(** * String similarity analyzer: a shallow embedding of [attribute_analyzer.py]

    The development follows the source file function by function:
    [normalize_text], [are_case_variants], [find_similar_attributes],
    [find_differences] and the difference text of [export_to_excel].

    Python strings are sequences of code points.  Labels are modelled over
    the Latin-1 repertoire, one [ascii] per code point (U+0000 to U+00FF);
    the character classes below are those of Python's [str] methods and of
    the [re] module restricted to that range.  Python integers are [Z]. *)

From Stdlib Require Import Strings.Ascii Strings.String Numbers.DecimalString Numbers.DecimalZ.
From Stdlib Require Import List Bool Arith ZArith NArith QArith Lia.
From Stdlib Require Import Sorting.Permutation Sorting.Sorted.
Import ListNotations.

Open Scope Z_scope.

(** ** Characters and strings *)

Definition str := list ascii.

Definition lit (s : string) : str := list_ascii_of_string s.

Definition code (c : ascii) : N := N_of_ascii c.

Definition between (lo hi n : N) : bool := (lo <=? n)%N && (n <=? hi)%N.

(** [str.isspace], which is also the class [\s] of a [str] pattern. *)
Definition isspace (c : ascii) : bool :=
  let n := code c in
  between 9 13 n || between 28 32 n || (n =? 133)%N || (n =? 160)%N.

(** The class [\d] of a [str] pattern: decimal digits. *)
Definition isdecimal (c : ascii) : bool := between 48 57 (code c).

(** [str.isalnum]: letters, decimal digits, and the other digits and
    numerics of Latin-1 (superscripts and vulgar fractions). *)
Definition isalnum (c : ascii) : bool :=
  let n := code c in
  between 48 57 n || between 65 90 n || between 97 122 n
  || (n =? 170)%N || (n =? 178)%N || (n =? 179)%N || (n =? 181)%N
  || (n =? 185)%N || (n =? 186)%N || between 188 190 n
  || between 192 214 n || between 216 246 n || between 248 255 n.

(** The class [\w] of a [str] pattern: alphanumerics and the underscore. *)
Definition isword (c : ascii) : bool := isalnum c || (code c =? 95)%N.

(** One character of [str.lower]: within Latin-1 every character lowers to
    one character of the range. *)
Definition lower_char (c : ascii) : ascii :=
  let n := code c in
  if between 65 90 n || (between 192 222 n && negb (n =? 215)%N)
  then ascii_of_N (n + 32) else c.

Definition lower (s : str) : str := map lower_char s.

Fixpoint str_eqb (a b : str) : bool :=
  match a, b with
  | [], [] => true
  | x :: a', y :: b' => Ascii.eqb x y && str_eqb a' b'
  | _, _ => false
  end.

Fixpoint lstrip (s : str) : str :=
  match s with
  | c :: r => if isspace c then lstrip r else s
  | [] => []
  end.

Definition rstrip (s : str) : str := rev (lstrip (rev s)).

(** [str.strip()] with no argument. *)
Definition strip (s : str) : str := rstrip (lstrip s).

(** ** Regular-expression substitution

    [re.sub(pattern, repl, text)] scans [text] from the left; at each
    position it tries the pattern, replaces a match by [repl] and resumes
    after it, and otherwise copies one character.  A pattern is given by its
    matcher: from the character before the position (what a lookbehind sees)
    and the text from the position on, the length of the match there.  None
    of the patterns of the source matches the empty string. *)

Definition matcher := option ascii -> str -> option nat.

Fixpoint re_sub_from (m : matcher) (repl : str)
  (prev : option ascii) (skip : nat) (s : str) : str :=
  match s with
  | [] => []
  | c :: r =>
      match skip with
      | S k => re_sub_from m repl (Some c) k r
      | O =>
          match m prev s with
          | Some (S k) => repl ++ re_sub_from m repl (Some c) k r
          | _ => c :: re_sub_from m repl (Some c) O r
          end
      end
  end.

Definition re_sub (m : matcher) (repl : str) (s : str) : str :=
  re_sub_from m repl None O s.

(** Length of the longest prefix of whitespace: a greedy [\s*]. *)
Fixpoint span_space (s : str) : nat :=
  match s with
  | c :: r => if isspace c then S (span_space r) else O
  | [] => O
  end.

Definition is_digit_opt (o : option ascii) : bool :=
  match o with
  | Some c => isdecimal c
  | None => false
  end.

Definition is_char (x : ascii) (c : ascii) : bool := Ascii.eqb c x.

(** [(?<![\d])\.(?![\d])]: a period with no digit just before it and no
    digit just after it. *)
Definition pat_period : matcher := fun prev s =>
  match s with
  | c :: r =>
      if is_char "." c && negb (is_digit_opt prev) && negb (is_digit_opt (hd_error r))
      then Some 1%nat else None
  | [] => None
  end.

(** [\s*X\s*] for a literal character [X]: after the greedy whitespace the
    next character must be [X]; giving whitespace back cannot help, because
    the character that would then have to be [X] is a whitespace. *)
Definition pat_around (x : ascii) : matcher := fun _ s =>
  let n := span_space s in
  match skipn n s with
  | c :: r => if is_char x c then Some (n + 1 + span_space r)%nat else None
  | [] => None
  end.

(** [\s*\(\s*] *)
Definition pat_open : matcher := pat_around "(".

(** [\s*\)\s*] *)
Definition pat_close : matcher := pat_around ")".

(** [\s+] *)
Definition pat_spaces : matcher := fun _ s =>
  match span_space s with
  | O => None
  | n => Some n
  end.

(** [[^\w\s]] *)
Definition pat_punct : matcher := fun _ s =>
  match s with
  | c :: _ => if negb (isword c) && negb (isspace c) then Some 1%nat else None
  | [] => None
  end.

(** ** Cell values

    What a spreadsheet cell can hold besides text, as far as [str()] of it
    is a matter of integers: integers, booleans and [None]. *)

Inductive value : Type :=
| VStr (s : str)
| VInt (z : Z)
| VBool (b : bool)
| VNone.

(** [str(x)] *)
Definition py_str (v : value) : str :=
  match v with
  | VStr s => s
  | VInt z => lit (NilZero.string_of_int (Z.to_int z))
  | VBool true => lit "True"
  | VBool false => lit "False"
  | VNone => lit "None"
  end.

(** ** [normalize_text] *)

(** The body of [normalize_text] below its [isinstance] test. *)
Definition normalize_str (text : str) : str :=
  let text := strip (lower text) in
  let text := re_sub pat_period [] text in
  let text := re_sub pat_open (lit " (") text in
  let text := re_sub pat_close (lit ") ") text in
  let text := re_sub pat_spaces (lit " ") text in
  strip text.

Definition normalize_text (text : value) : str :=
  match text with
  | VStr s => normalize_str s
  | _ => py_str text
  end.

(** ** [are_case_variants] *)

Definition are_case_variants (attr1 attr2 : str) : bool :=
  let clean1 := lower (re_sub pat_punct [] attr1) in
  let clean2 := lower (re_sub pat_punct [] attr2) in
  str_eqb clean1 clean2 && negb (str_eqb attr1 attr2).

(** ** [difflib.SequenceMatcher(None, a, b)]

    With no junk predicate the junk set is empty; the automatic junk
    heuristic is on, so in a second sequence of 200 elements or more the
    elements that occur more than one percent of the time (plus one) are
    left out of the index [b2j]. *)

(** [Match(a, b, size)] *)
Definition block := (Z * Z * Z)%type.

(** Python indexing [s[i]]; [None] stands for [IndexError]. *)
Definition py_index (s : str) (i : Z) : option ascii :=
  let n := Z.of_nat (length s) in
  let i' := if i <? 0 then i + n else i in
  if (0 <=? i') && (i' <? n) then nth_error s (Z.to_nat i') else None.

Definition clamp_index (n i : Z) : Z :=
  if i <? 0 then Z.max 0 (i + n) else Z.min i n.

(** Python slicing [s[lo:hi]]. *)
Definition py_slice (s : str) (lo hi : Z) : str :=
  let n := Z.of_nat (length s) in
  let lo' := clamp_index n lo in
  let hi' := clamp_index n hi in
  firstn (Z.to_nat (hi' - lo')) (skipn (Z.to_nat lo') s).

(** The dict [b2j], in insertion order. *)
Definition b2j_t := list (ascii * list Z).

(** [b2j.setdefault(elt, []).append(i)] *)
Fixpoint b2j_add (elt : ascii) (i : Z) (d : b2j_t) : b2j_t :=
  match d with
  | [] => [(elt, [i])]
  | (e, idxs) :: d' =>
      if Ascii.eqb e elt then (e, idxs ++ [i]) :: d'
      else (e, idxs) :: b2j_add elt i d'
  end.

(** [b2j.get(elt, [])] *)
Fixpoint b2j_get (d : b2j_t) (elt : ascii) : list Z :=
  match d with
  | [] => []
  | (e, idxs) :: d' => if Ascii.eqb e elt then idxs else b2j_get d' elt
  end.

Fixpoint chain_b_from (i : Z) (b : str) (d : b2j_t) : b2j_t :=
  match b with
  | [] => d
  | elt :: r => chain_b_from (i + 1) r (b2j_add elt i d)
  end.

(** [__chain_b]: index the second sequence, then purge the popular
    elements. *)
Definition chain_b (b : str) : b2j_t :=
  let b2j := chain_b_from 0 b [] in
  let n := Z.of_nat (length b) in
  if 200 <=? n then
    let ntest := n / 100 + 1 in
    filter (fun e => negb (ntest <? Z.of_nat (length (snd e)))) b2j
  else b2j.

(** The dict [j2len]; a later binding of a key shadows an earlier one. *)
Definition j2len_t := list (Z * Z).

(** [j2len.get(j, 0)] *)
Fixpoint j2len_get (d : j2len_t) (j : Z) : Z :=
  match d with
  | [] => 0
  | (j', k) :: d' => if j' =? j then k else j2len_get d' j
  end.

(** The inner loop of [find_longest_match], over the positions [js] of
    [a[i]] in the second sequence. *)
Fixpoint scan_js (blo bhi i : Z) (j2len : j2len_t) (js : list Z)
  (newj2len : j2len_t) (best : block) : j2len_t * block :=
  match js with
  | [] => (newj2len, best)
  | j :: js' =>
      if j <? blo then scan_js blo bhi i j2len js' newj2len best
      else if bhi <=? j then (newj2len, best)
      else
        let k := j2len_get j2len (j - 1) + 1 in
        let '(_, _, bestsize) := best in
        scan_js blo bhi i j2len js' ((j, k) :: newj2len)
          (if bestsize <? k then (i - k + 1, j - k + 1, k) else best)
  end.

(** [range(lo, lo + n)] *)
Fixpoint zrange (lo : Z) (n : nat) : list Z :=
  match n with
  | O => []
  | S n' => lo :: zrange (lo + 1) n'
  end.

(** The outer loop of [find_longest_match], [for i in range(alo, ahi)]. *)
Fixpoint scan_is (a : str) (b2j : b2j_t) (blo bhi : Z) (rows : list Z)
  (j2len : j2len_t) (best : block) : block :=
  match rows with
  | [] => best
  | i :: rows' =>
      let js := match py_index a i with
                | Some c => b2j_get b2j c
                | None => []
                end in
      let '(newj2len, best') := scan_js blo bhi i j2len js [] best in
      scan_is a b2j blo bhi rows' newj2len best'
  end.

Definition same_elt (x y : option ascii) : bool :=
  match x, y with
  | Some c, Some d => Ascii.eqb c d
  | _, _ => false
  end.

(** The loop that extends the best match to the left; each turn lowers
    [besti], which stays above [alo], so [fuel] turns are enough once
    [besti - alo <= fuel]. *)
Fixpoint extend_left (a b : str) (alo blo : Z) (fuel : nat) (m : block) : block :=
  match fuel with
  | O => m
  | S f =>
      let '(besti, bestj, bestsize) := m in
      if (alo <? besti) && (blo <? bestj)
         && same_elt (py_index a (besti - 1)) (py_index b (bestj - 1))
      then extend_left a b alo blo f (besti - 1, bestj - 1, bestsize + 1)
      else m
  end.

(** The loop that extends the best match to the right. *)
Fixpoint extend_right (a b : str) (ahi bhi : Z) (fuel : nat) (m : block) : block :=
  match fuel with
  | O => m
  | S f =>
      let '(besti, bestj, bestsize) := m in
      if (besti + bestsize <? ahi) && (bestj + bestsize <? bhi)
         && same_elt (py_index a (besti + bestsize)) (py_index b (bestj + bestsize))
      then extend_right a b ahi bhi f (besti, bestj, bestsize + 1)
      else m
  end.

(** [find_longest_match(alo, ahi, blo, bhi)].  The two further loops of the
    library extend the match over junk elements; the junk set is empty, so
    they never turn. *)
Definition find_longest_match (a b : str) (b2j : b2j_t) (alo ahi blo bhi : Z) : block :=
  let m := scan_is a b2j blo bhi (zrange alo (Z.to_nat (ahi - alo))) [] (alo, blo, 0) in
  let m := extend_left a b alo blo (length a) m in
  extend_right a b ahi bhi (length a) m.

(** The work list of [get_matching_blocks] is a stack: [queue.pop()] takes
    what [queue.append] put last.  The head of the list is the top. *)
Definition range4 := (Z * Z * Z * Z)%type.

Fixpoint blocks_loop (a b : str) (b2j : b2j_t) (fuel : nat)
  (queue : list range4) (matching_blocks : list block) : list block :=
  match fuel with
  | O => matching_blocks
  | S f =>
      match queue with
      | [] => matching_blocks
      | (alo, ahi, blo, bhi) :: queue =>
          let '(i, j, k) := find_longest_match a b b2j alo ahi blo bhi in
          if k =? 0 then blocks_loop a b b2j f queue matching_blocks
          else
            let queue := if (alo <? i) && (blo <? j)
                         then (alo, i, blo, j) :: queue else queue in
            let queue := if (i + k <? ahi) && (j + k <? bhi)
                         then (i + k, ahi, j + k, bhi) :: queue else queue in
            blocks_loop a b b2j f queue (matching_blocks ++ [(i, j, k)])
      end
  end.

(** Tuple comparison, as [list.sort()] uses it on the blocks. *)
Definition block_leb (x y : block) : bool :=
  let '(i1, j1, k1) := x in
  let '(i2, j2, k2) := y in
  (i1 <? i2) || ((i1 =? i2) && ((j1 <? j2) || ((j1 =? j2) && (k1 <=? k2)))).

Fixpoint insert_block (x : block) (l : list block) : list block :=
  match l with
  | [] => [x]
  | y :: l' => if block_leb x y then x :: l else y :: insert_block x l'
  end.

Definition sort_blocks (l : list block) : list block :=
  fold_right insert_block [] l.

Definition emit_block (i j k : Z) : list block :=
  if k =? 0 then [] else [(i, j, k)].

(** The loop that merges adjacent blocks. *)
Fixpoint collapse_adjacent (i1 j1 k1 : Z) (bl : list block) : list block :=
  match bl with
  | [] => emit_block i1 j1 k1
  | (i2, j2, k2) :: r =>
      if (i1 + k1 =? i2) && (j1 + k1 =? j2)
      then collapse_adjacent i1 j1 (k1 + k2) r
      else emit_block i1 j1 k1 ++ collapse_adjacent i2 j2 k2 r
  end.

(** Every turn of the work loop takes a range off the stack and puts back
    ranges that are shorter by the block found, so [2 * len(a) + 1] turns
    empty it. *)
Definition get_matching_blocks (a b : str) : list block :=
  let la := Z.of_nat (length a) in
  let lb := Z.of_nat (length b) in
  let found := blocks_loop a b (chain_b b) (2 * length a + 1) [(0, la, 0, lb)] [] in
  collapse_adjacent 0 0 0 (sort_blocks found) ++ [(la, lb, 0)].

Definition block_size (x : block) : Z := let '(_, _, k) := x in k.

(** The sum of the sizes of the matching blocks, as [ratio()] takes it. *)
Definition matches (a b : str) : Z :=
  fold_right Z.add 0 (map block_size (get_matching_blocks a b)).

(** ** The similarity scorer *)

(** Rounding of the quotient [p / q] to the nearest integer, a tie going to
    the even one. *)
Definition round_div (p q : Z) : Z :=
  let d := p / q in
  let r := p mod q in
  if 2 * r <? q then d
  else if q <? 2 * r then d + 1
  else if Z.even d then d else d + 1.

(** One row of the table of longest common subsequences: from the lengths
    [r] for [a] against every suffix of [b], the longest first, those for
    [x :: a]. *)
Fixpoint lcs_row (x : ascii) (b : str) (r : list nat) : list nat :=
  match b with
  | [] => [0%nat]
  | y :: b' =>
      let rest := lcs_row x b' (tl r) in
      (if Ascii.eqb x y then S (hd 0%nat (tl r))
       else Nat.max (hd 0%nat r) (hd 0%nat rest)) :: rest
  end.

Definition lcs_table (a b : str) : list nat :=
  fold_right (fun x r => lcs_row x b r) (repeat 0%nat (S (length b))) a.

(** The length of a longest common subsequence of [a] and [b]. *)
Definition lcs_length (a b : str) : nat := hd 0%nat (lcs_table a b).

(** Modelled from the spec: the Similarity Scorer, which the source takes
    from the library [thefuzz] ([fuzz.ratio]) and which is not among the
    sources.  Section 4.3 gives it as an edit-distance-style ratio,
    100 * (2 * matchedCharacters) / (len(normA) + len(normB)), an integer,
    symmetric in its two arguments; section 9 asks for an LCS-based or
    edit-distance-based computation of that formula.  The matched
    characters are those of a longest common subsequence: the ratio is the
    normalized similarity under insertions and deletions,
    100 * (1 - (len(a) + len(b) - 2 * lcs) / (len(a) + len(b))), which is
    what the library returns (50 for "tide" and "diet" in either order).
    Two empty strings have ratio 100.  The library rounds with
    [int(round(...))]; its float arithmetic is read as exact, the quotient
    rounded to the nearest integer, a tie going to the even one. *)
Definition fuzz_ratio (norm_a norm_b : str) : Z :=
  let len := Z.of_nat (length norm_a) + Z.of_nat (length norm_b) in
  if len =? 0 then 100
  else round_div (100 * (2 * Z.of_nat (lcs_length norm_a norm_b))) len.

(** Section 4.3 also names the ratio of a [SequenceMatcher], which takes
    the matched characters from the greedy block alignment of [difflib]
    and not from a longest common subsequence. *)
Definition sequence_matcher_ratio (a b : str) : Z :=
  let len := Z.of_nat (length a) + Z.of_nat (length b) in
  if len =? 0 then 100
  else round_div (100 * (2 * matches a b)) len.

(** ** [find_differences] *)

Fixpoint differences_from (str1 str2 : str) (last_end1 last_end2 : Z)
  (blocks : list block) : list (str * str) :=
  match blocks with
  | [] => []
  | (i, j, size) :: r =>
      let rest := differences_from str1 str2 (i + size) (j + size) r in
      if (last_end1 <? i) || (last_end2 <? j)
      then (py_slice str1 last_end1 i, py_slice str2 last_end2 j) :: rest
      else rest
  end.

Definition find_differences (str1 str2 : str) : list (str * str) :=
  differences_from str1 str2 0 0 (get_matching_blocks str1 str2).

(** ** The difference text of [export_to_excel]

    The text of the report contains an arrow, U+2192, which is outside
    Latin-1: rendered text is a list of code points. *)

Definition text := list N.

Definition encode (s : str) : text := map code s.

(** [" → "] *)
Definition arrow : text := [32; 8594; 32]%N.

Fixpoint join (sep : text) (parts : list text) : text :=
  match parts with
  | [] => []
  | [p] => p
  | p :: r => p ++ sep ++ join sep r
  end.

Definition truthy (s : str) : bool :=
  match s with
  | [] => false
  | _ => true
  end.

(** [" vs ".join([f"{d1} → {d2}" for d1, d2 in diffs if d1 or d2])] *)
Definition diff_text (diffs : list (str * str)) : text :=
  join (encode (lit " vs "))
    (map (fun d => encode (fst d) ++ arrow ++ encode (snd d))
       (filter (fun d => truthy (fst d) || truthy (snd d)) diffs)).

(** ** [find_similar_attributes] *)

(** The [defaultdict(list)] of the matcher, in insertion order: a key is
    created by the first append under it. *)
Definition groups := list (str * list (str * Z)).

(** [similar_groups[key].append(item)] *)
Fixpoint groups_append (key : str) (item : str * Z) (g : groups) : groups :=
  match g with
  | [] => [(key, [item])]
  | (k, items) :: g' =>
      if str_eqb k key then (k, items ++ [item]) :: g'
      else (k, items) :: groups_append key item g'
  end.

Fixpoint groups_get (g : groups) (key : str) : option (list (str * Z)) :=
  match g with
  | [] => None
  | (k, items) :: g' => if str_eqb k key then Some items else groups_get g' key
  end.

(** The (base, match, score) triples of a result, as [export_to_excel]
    collects them. *)
Definition all_pairs (g : groups) : list (str * str * Z) :=
  flat_map (fun e => map (fun m => (fst e, fst m, snd m)) (snd e)) g.

Section Matcher.

(** The scorer called at line 74. *)
Variable ratio : str -> str -> Z.

(** The inner loop, [for attr2 in attributes[i+1:]]. *)
Fixpoint compare_with (attr1 base_normalized : str) (similarity_threshold : Q)
  (rest : list str) (similar_groups : groups) : groups :=
  match rest with
  | [] => similar_groups
  | attr2 :: rest' =>
      if str_eqb attr1 attr2
      then compare_with attr1 base_normalized similarity_threshold rest' similar_groups
      else if are_case_variants attr1 attr2
      then compare_with attr1 base_normalized similarity_threshold rest'
             (groups_append attr1 (attr2, 100) similar_groups)
      else
        let compare_normalized := normalize_text (VStr attr2) in
        let similarity := ratio base_normalized compare_normalized in
        if Qle_bool similarity_threshold (inject_Z similarity)
        then compare_with attr1 base_normalized similarity_threshold rest'
               (groups_append attr1 (attr2, similarity) similar_groups)
        else compare_with attr1 base_normalized similarity_threshold rest' similar_groups
  end.

(** The outer loop, [for i, attr1 in enumerate(attributes)]. *)
Fixpoint compare_all (similarity_threshold : Q) (attributes : list str)
  (similar_groups : groups) : groups :=
  match attributes with
  | [] => similar_groups
  | attr1 :: rest =>
      compare_all similarity_threshold rest
        (compare_with attr1 (normalize_text (VStr attr1)) similarity_threshold
           rest similar_groups)
  end.

End Matcher.

(** The data frame that [pd.read_excel] returns: its columns, a cell being
    a text or missing. *)
Definition DataFrame := list (list (option str)).

Inductive exn : Type :=
| IndexError.

Inductive result (A : Type) : Type :=
| Ok (x : A)
| Raise (e : exn).
Arguments Ok {A} x.
Arguments Raise {A} e.

(** [df.iloc[:, 0]]: a frame with no column raises [IndexError]. *)
Definition iloc_first_column (df : DataFrame) : result (list (option str)) :=
  match df with
  | [] => Raise IndexError
  | col :: _ => Ok col
  end.

(** [Series.dropna()] *)
Fixpoint dropna (col : list (option str)) : list str :=
  match col with
  | [] => []
  | Some x :: r => x :: dropna r
  | None :: r => dropna r
  end.

(** [Series.unique()]: the distinct values in order of first occurrence. *)
Fixpoint unique_from (seen : list str) (l : list str) : list str :=
  match l with
  | [] => []
  | x :: r =>
      if existsb (str_eqb x) seen then unique_from seen r
      else x :: unique_from (x :: seen) r
  end.

Definition unique (l : list str) : list str := unique_from [] l.

(** The loops of [find_similar_attributes] from the distinct labels on. *)
Definition similar_groups_of (attributes : list str) (similarity_threshold : Q)
  : groups :=
  compare_all fuzz_ratio similarity_threshold attributes [].

(** [find_similar_attributes], from the frame that [pd.read_excel] gave. *)
Definition find_similar_attributes (df : DataFrame) (similarity_threshold : Q)
  : result groups :=
  match iloc_first_column df with
  | Raise e => Raise e
  | Ok col => Ok (similar_groups_of (unique (dropna col)) similarity_threshold)
  end.

(** A frame of one column holding the given labels. *)
Definition frame_of (labels : list string) : DataFrame :=
  [map (fun s => Some (lit s)) labels].

(** ** The Case-Variant Detector in the words of the specification

    Section 4.2: strip all characters that are not alphanumeric or
    whitespace from both strings, lowercase both; true iff the cleaned forms
    are equal and the raw strings are not identical. *)

Definition spec_clean (s : str) : str :=
  lower (filter (fun c => isalnum c || isspace c) s).

Definition isCaseVariant_spec (a b : str) : bool :=
  str_eqb (spec_clean a) (spec_clean b) && negb (str_eqb a b).

(** What the pattern [[^\w\s]] leaves in place. *)
Definition word_or_space (c : ascii) : bool := isword c || isspace c.

Definition is_text (v : value) : bool :=
  match v with
  | VStr _ => true
  | _ => false
  end.

(** A call that ends in an exception. *)
Definition fails {A : Type} (r : result A) : Prop := exists e, r = Raise e.

(** What the body of the inner loop records for a pair of labels: nothing,
    or the score appended under the first label. *)
Definition pair_score (ratio : str -> str -> Z) (similarity_threshold : Q)
  (attr1 attr2 : str) : option Z :=
  if str_eqb attr1 attr2 then None
  else if are_case_variants attr1 attr2 then Some 100
  else
    let similarity :=
      ratio (normalize_text (VStr attr1)) (normalize_text (VStr attr2)) in
    if Qle_bool similarity_threshold (inject_Z similarity)
    then Some similarity else None.

(** [b] is compared with [a] by the loops: it comes after it in the list. *)
Definition compared (attributes : list str) (a b : str) : Prop :=
  exists l1 l2, attributes = l1 ++ a :: l2 /\ In b l2.

Definition record_pair (ratio : str -> str -> Z) (t : Q) (a b : str)
  (g : groups) : groups :=
  match pair_score ratio t a b with
  | Some s => groups_append a (b, s) g
  | None => g
  end.

(** ** Invariants of the block alignment *)

(** A block that lies in the window [alo, ahi) x [blo, bhi). *)
Definition within (alo ahi blo bhi : Z) (x : block) : Prop :=
  let '(i, j, k) := x in
  alo <= i /\ i + k <= ahi /\ blo <= j /\ j + k <= bhi /\ 0 <= k.

(** A block of two sequences of lengths [la] and [lb]. *)
Definition block_ok (la lb : Z) (x : block) : Prop := within 0 la 0 lb x.

Definition range_ok (la lb : Z) (r : range4) : Prop :=
  let '(alo, ahi, blo, bhi) := r in
  0 <= alo /\ alo <= ahi /\ ahi <= la /\ 0 <= blo /\ blo <= bhi /\ bhi <= lb.

(** The lengths recorded in [j2len] after [n] rows of the window. *)
Definition j2len_ok (blo n : Z) (d : j2len_t) : Prop :=
  Forall (fun e => 0 <= snd e /\ snd e <= n /\ blo <= fst e
                   /\ snd e <= fst e - blo + 1) d.

Definition total_size (l : list block) : Z :=
  fold_right Z.add 0 (map block_size l).

Definition width_a (r : range4) : Z := let '(alo, ahi, _, _) := r in ahi - alo.

Definition width_b (r : range4) : Z := let '(_, _, blo, bhi) := r in bhi - blo.

Definition total_width (w : range4 -> Z) (q : list range4) : Z :=
  fold_right Z.add 0 (map w q).

(** A span with a segment that is not empty. *)
Definition real_span (d : str * str) : Prop := fst d <> [] \/ snd d <> [].

(** ** Runs of whitespace

    For the whitespace steps of the Normalizer a text is read as a leading
    run of whitespace followed by items, an item being a character that is
    not a whitespace together with the run of whitespace after it. *)

Definition item := (ascii * str)%type.

Definition flat (items : list item) : str :=
  flat_map (fun it => fst it :: snd it) items.

Definition spaces (w : str) : Prop := Forall (fun c => isspace c = true) w.

Definition valid_item (it : item) : Prop :=
  isspace (fst it) = false /\ spaces (snd it).

Definition first_char (items : list item) : option ascii :=
  match items with
  | [] => None
  | it :: _ => Some (fst it)
  end.

Definition next_is (x : ascii) (n : option ascii) : bool :=
  match n with
  | Some c => is_char x c
  | None => false
  end.

(** A rewriting of the runs after the items, each from its item and the
    character that follows the run. *)
Fixpoint map_next (g : ascii -> str -> option ascii -> str) (items : list item)
  : list item :=
  match items with
  | [] => []
  | (c, w) :: r => (c, g c w (first_char r)) :: map_next g r
  end.

(** What [\s*X\s*] replaced by [pre X post] does to the run after an item. *)
Definition run_around (x : ascii) (pre post : str)
  (c : ascii) (w : str) (n : option ascii) : str :=
  if is_char x c then post ++ (if next_is x n then pre else [])
  else if next_is x n then pre else w.

Definition lead_around (x : ascii) (pre : str) (lead : str) (items : list item) : str :=
  if next_is x (first_char items) then pre else lead.

(** What [\s+] replaced by one space does to a run. *)
Definition one_space (w : str) : str :=
  match w with
  | [] => []
  | _ => lit " "
  end.

Definition run_collapse (c : ascii) (w : str) (n : option ascii) : str := one_space w.

(** What [strip] does to the run after an item. *)
Definition run_strip (c : ascii) (w : str) (n : option ascii) : str :=
  match n with
  | None => []
  | Some _ => w
  end.

(** The four whitespace steps in a row. *)
Definition run_normal (c : ascii) (w : str) (n : option ascii) : str :=
  run_strip c
    (run_collapse c
       (run_around ")" [] (lit " ") c
          (run_around "(" (lit " ") [] c w n) n) n) n.

Definition is_nil (w : str) : bool :=
  match w with
  | [] => true
  | _ => false
  end.

(** No period of the text is one that the first substitution removes;
    [pd] tells whether the character before the text is a digit. *)
Fixpoint no_removable (pd : bool) (s : str) : bool :=
  match s with
  | [] => true
  | c :: r =>
      negb (is_char "." c && negb pd && negb (is_digit_opt (hd_error r)))
      && no_removable (isdecimal c) r
  end.

(** The same on items. *)
Fixpoint no_removable_items (pd : bool) (items : list item) : bool :=
  match items with
  | [] => true
  | (c, w) :: r =>
      negb (is_char "." c && negb pd
            && negb (is_nil w && is_digit_opt (first_char r)))
      && no_removable_items (is_nil w && isdecimal c) r
  end.

Definition lowered (c : ascii) : Prop := lower_char c = c.

(** A matcher that does not look behind. *)
Definition prev_free (m : matcher) : Prop := forall p p' s, m p s = m p' s.

Definition period_or_digit (c : ascii) : bool := is_char "." c || isdecimal c.

(** A rewriting of the runs that leaves a period next to a digit. *)
Definition keeps_adjacent (g : ascii -> str -> option ascii -> str) : Prop :=
  forall c d, period_or_digit c = true -> period_or_digit d = true ->
              g c [] (Some d) = [].

(** The turns that the work loop of [get_matching_blocks] still has to
    make for a stack of ranges, at most. *)
Definition work (q : list range4) : Z :=
  total_width (fun r => 2 * width_a r + 1) q.

(** ** The longest common subsequence by its recurrence *)

(** The length of a longest common subsequence: a first character that the
    two strings share is matched, otherwise one of the two first characters
    is dropped. *)
Fixpoint lcs (a b : str) : nat :=
  match a with
  | [] => 0%nat
  | x :: a' =>
      (fix against (b : str) : nat :=
         match b with
         | [] => 0%nat
         | y :: b' =>
             if Ascii.eqb x y then S (lcs a' b')
             else Nat.max (lcs a' b) (against b')
         end) b
  end.

(** The values of [lcs a] on [b] and on every suffix of [b]. *)
Fixpoint suffix_values (a b : str) : list nat :=
  lcs a b :: match b with
             | [] => []
             | _ :: b' => suffix_values a b'
             end.

(** ** The result of the matcher as a function of the labels *)

(** The candidates recorded under [attr1]: the labels after it that the body
    of the inner loop records, in their order. *)
Definition matches_of (ratio : str -> str -> Z) (t : Q) (attr1 : str)
  (rest : list str) : list (str * Z) :=
  flat_map (fun attr2 => match pair_score ratio t attr1 attr2 with
                         | Some s => [(attr2, s)]
                         | None => []
                         end) rest.

(** The entry of a base label: none when nothing was recorded under it. *)
Definition group_of (a : str) (items : list (str * Z)) : groups :=
  match items with
  | [] => []
  | _ => [(a, items)]
  end.

Fixpoint expected_groups (ratio : str -> str -> Z) (t : Q) (attributes : list str)
  : groups :=
  match attributes with
  | [] => []
  | a :: rest => group_of a (matches_of ratio t a rest) ++ expected_groups ratio t rest
  end.

Definition keys (g : groups) : list str := map fst g.

(** The labels of a recorded triple. *)
Definition labels_of (x : str * str * Z) : str * str := (fst (fst x), snd (fst x)).

(** ** The shape of a normalized text *)

(** A check of every character of a text against the character before it
    and the character after it. *)
Fixpoint windows (P : option ascii -> ascii -> option ascii -> bool)
  (prev : option ascii) (s : str) : bool :=
  match s with
  | [] => true
  | c :: r => P prev c (hd_error r) && windows P (Some c) r
  end.

Definition solid (o : option ascii) : bool :=
  match o with
  | Some c => negb (isspace c)
  | None => false
  end.

Definition none_or_space (o : option ascii) : bool :=
  match o with
  | Some c => is_char " " c
  | None => true
  end.

(** A whitespace is one space between two characters that are not
    whitespace; an opening parenthesis has a space or nothing before it, a
    closing one a space or nothing after it. *)
Definition spaced (p : option ascii) (c : ascii) (n : option ascii) : bool :=
  (if isspace c then is_char " " c && solid p && solid n else true)
  && (if is_char "(" c then none_or_space p else true)
  && (if is_char ")" c then none_or_space n else true).

Definition last_or (p : option ascii) (l : str) : option ascii :=
  match rev l with
  | [] => p
  | c :: _ => Some c
  end.

(** ** Soundness of the block alignment *)

(** The two sequences hold the same elements on a block. *)
Definition matched (a b : str) (x : block) : Prop :=
  let '(i, j, k) := x in
  forall t, 0 <= t < k -> same_elt (py_index a (i + t)) (py_index b (j + t)) = true.

(** The index holds under an element only positions of that element. *)
Definition b2j_sound (b : str) (d : b2j_t) : Prop :=
  Forall (fun e => Forall (fun j => py_index b j = Some (fst e)) (snd e)) d.

(** The lengths recorded in [j2len] for row [i] are lengths of common runs
    that end in that row. *)
Definition j2len_sound (a b : str) (i : Z) (d : j2len_t) : Prop :=
  Forall (fun e => matched a b (i - snd e + 1, fst e - snd e + 1, snd e)) d.

(** ** Order of the matching blocks *)

(** A block as a rectangle [alo, ahi) x [blo, bhi), like a range of the
    work list. *)
Definition rect_of_block (x : block) : range4 :=
  let '(i, j, k) := x in (i, i + k, j, j + k).

(** The first rectangle ends, in both sequences, where the second begins
    or earlier. *)
Definition rbefore (r1 r2 : range4) : Prop :=
  let '(_, ahi1, _, bhi1) := r1 in
  let '(alo2, _, blo2, _) := r2 in
  ahi1 <= alo2 /\ bhi1 <= blo2.

Definition chain (r1 r2 : range4) : Prop := rbefore r1 r2 \/ rbefore r2 r1.

Definition inside (r w : range4) : Prop :=
  let '(alo, ahi, blo, bhi) := r in
  let '(wlo, whi, vlo, vhi) := w in
  wlo <= alo /\ ahi <= whi /\ vlo <= blo /\ bhi <= vhi.

Definition before (x y : block) : Prop := rbefore (rect_of_block x) (rect_of_block y).

Definition chain_blocks (x y : block) : Prop := chain (rect_of_block x) (rect_of_block y).

Fixpoint pairwise {A : Type} (R : A -> A -> Prop) (l : list A) : Prop :=
  match l with
  | [] => True
  | x :: r => Forall (R x) r /\ pairwise R r
  end.

Definition positive_size (x : block) : Prop := 0 < block_size x.

Definition starts_from (i j : Z) (x : block) : Prop :=
  let '(i', j', _) := x in i <= i' /\ j <= j'.

(** Where the last of the blocks ends in the first and in the second
    sequence; [e] when there is no block. *)
Definition end_a (e : Z) (blocks : list block) : Z :=
  fold_left (fun _ x => let '(i, _, k) := x in i + k) blocks e.

Definition end_b (e : Z) (blocks : list block) : Z :=
  fold_left (fun _ x => let '(_, j, k) := x in j + k) blocks e.

(** The lengths of the segments of the spans, added up. *)
Definition total_length (segments : list str) : Z :=
  Z.of_nat (length (concat segments)).

(** The state of the work loop: the ranges still to do and the blocks found
    are pairwise one before the other. *)
Definition loop_chained (queue : list range4) (acc : list block) : Prop :=
  pairwise chain queue
  /\ pairwise chain_blocks acc
  /\ Forall (fun w => Forall (fun x => chain w (rect_of_block x)) acc) queue
  /\ Forall positive_size acc.

(** ** A string aligned with itself *)

(** The positions of [c] in [s], counted from [i0]. *)
Fixpoint positions (i0 : Z) (s : str) (c : ascii) : list Z :=
  match s with
  | [] => []
  | x :: r => (if Ascii.eqb x c then [i0] else []) ++ positions (i0 + 1) r c
  end.

Definition b2j_keys (d : b2j_t) : list ascii := map fst d.

(** The element has positions in the index: it was not purged. *)
Definition indexed (b2j : b2j_t) (c : ascii) : bool :=
  match b2j_get b2j c with
  | [] => false
  | _ => true
  end.

(** The number of indexed elements in a row that end at position [m]. *)
Fixpoint run_to (b2j : b2j_t) (s : str) (m : nat) : Z :=
  let prev := match m with
              | O => 0
              | S m' => run_to b2j s m'
              end in
  match nth_error s m with
  | Some c => if indexed b2j c then prev + 1 else 0
  | None => 0
  end.

Definition run_at (b2j : b2j_t) (s : str) (i : Z) : Z :=
  if i <? 0 then 0 else run_to b2j s (Z.to_nat i).

(** What [j2len] holds after row [i] when the string is aligned with itself:
    no length above the run that ends at the smaller of row and column, and
    on the diagonal that run. *)
Definition row_bounded (b2j : b2j_t) (s : str) (i : Z) (d : j2len_t) : Prop :=
  forall j, 0 <= j2len_get d j /\ j2len_get d j <= run_at b2j s (Z.min i j).

Definition row_ok (b2j : b2j_t) (s : str) (i : Z) (d : j2len_t) : Prop :=
  row_bounded b2j s i d /\ j2len_get d i = run_at b2j s i.

(** The best match so far lies on the diagonal and is as long as every run
    that ends before row [i]. *)
Definition best_diagonal (b2j : b2j_t) (s : str) (i : Z) (best : block) : Prop :=
  let '(bi, bj, bs) := best in
  bi = bj /\ 0 <= bs /\ forall m, 0 <= m < i -> run_at b2j s m <= bs.

(** ** [get_unique_filename]

    The functions of [os.path] are those of [posixpath].  The state of the
    file system enters through [os.path.exists], a predicate on paths. *)

(** [p.rfind(c)] from position [i] on: the last index of [c], or [found]. *)
Fixpoint rfind_from (i : Z) (c : ascii) (p : str) (found : Z) : Z :=
  match p with
  | [] => found
  | x :: r => rfind_from (i + 1) c r (if Ascii.eqb x c then i else found)
  end.

(** [p.rfind(c)]: the last index of [c] in [p], or -1. *)
Definition rfind (c : ascii) (p : str) : Z := rfind_from 0 c p (-1).

(** [s.rstrip(c)] for one character [c]. *)
Definition rstrip_char (c : ascii) (s : str) : str :=
  let fix drop (s : str) : str :=
    match s with
    | x :: r => if Ascii.eqb x c then drop r else s
    | [] => []
    end in
  rev (drop (rev s)).

(** [p[i:]] *)
Definition py_slice_from (p : str) (i : Z) : str :=
  py_slice p i (Z.of_nat (length p)).

(** [os.path.dirname] *)
Definition dirname (p : str) : str :=
  let i := rfind "/" p + 1 in
  let head := py_slice p 0 i in
  if truthy head && negb (forallb (Ascii.eqb "/") head)
  then rstrip_char "/" head else head.

(** [os.path.basename] *)
Definition basename (p : str) : str :=
  let i := rfind "/" p + 1 in
  py_slice_from p i.

(** [os.path.splitext]: the extension starts at the last dot of the last
    component, unless only dots come before it there. *)
Definition splitext (p : str) : str * str :=
  let sepIndex := rfind "/" p in
  let dotIndex := rfind "." p in
  if sepIndex <? dotIndex then
    if forallb (Ascii.eqb ".") (py_slice p (sepIndex + 1) dotIndex)
    then (p, [])
    else (py_slice p 0 dotIndex, py_slice_from p dotIndex)
  else (p, []).

Definition starts_with (c : ascii) (s : str) : bool :=
  match s with
  | x :: _ => Ascii.eqb x c
  | [] => false
  end.

Definition ends_with (c : ascii) (s : str) : bool := starts_with c (rev s).

(** [os.path.join(a, b)] *)
Definition path_join (a b : str) : str :=
  if starts_with "/" b then b
  else if negb (truthy a) || ends_with "/" a then a ++ b
  else a ++ "/"%char :: b.

(** [f"{name}_{counter}{ext}"] *)
Definition numbered (name : str) (counter : Z) (ext : str) : str :=
  name ++ "_"%char :: py_str (VInt counter) ++ ext.

(** The loop [while True] of [get_unique_filename]; [None] when the turns
    run out. *)
Fixpoint unique_loop (exists_ : str -> bool) (directory name ext : str)
  (fuel : nat) (counter : Z) : option str :=
  match fuel with
  | O => None
  | S f =>
      let new_filename := path_join directory (numbered name counter ext) in
      if negb (exists_ new_filename) then Some new_filename
      else unique_loop exists_ directory name ext f (counter + 1)
  end.

Definition get_unique_filename (exists_ : str -> bool) (fuel : nat) (file_path : str)
  : option str :=
  if negb (exists_ file_path) then Some file_path
  else
    let directory := dirname file_path in
    let filename := basename file_path in
    let '(name, ext) := splitext filename in
    unique_loop exists_ directory name ext fuel 1.

(** A file system that holds the paths of a list. *)
Definition exists_in (fs : list str) (p : str) : bool := existsb (str_eqb p) fs.

(** ** Sorting for the reports *)

(** [a < b] on [str]: by code points, a proper prefix first. *)
Fixpoint str_ltb (a b : str) : bool :=
  match a, b with
  | _, [] => false
  | [], _ :: _ => true
  | x :: a', y :: b' =>
      if (code x =? code y)%N then str_ltb a' b' else (code x <? code y)%N
  end.

(** The keys of the two sorts are tuples [(-score, label)]. *)
Definition sort_key := (Z * str)%type.

(** [k1 < k2] on tuples: decided by the first component that differs. *)
Definition key_ltb (k1 k2 : sort_key) : bool :=
  if negb (fst k1 =? fst k2) then fst k1 <? fst k2
  else if negb (str_eqb (snd k1) (snd k2)) then str_ltb (snd k1) (snd k2)
  else false.

Section Sort.

Context {A : Type}.
Variable key_of : A -> sort_key.

(** [list.sort(key=...)] is stable and compares keys with [<] only: an
    element goes before the first one after it whose key is not smaller. *)
Fixpoint sort_insert (x : A) (l : list A) : list A :=
  match l with
  | [] => [x]
  | y :: l' =>
      if key_ltb (key_of y) (key_of x) then y :: sort_insert x l' else x :: l
  end.

Definition py_sort (l : list A) : list A := fold_right sort_insert [] l.

End Sort.

(** ** [print_similar_groups]

    The output is the list of the strings printed, one for each call of
    [print]. *)

Definition show_int (z : Z) : text := encode (py_str (VInt z)).

(** [c * n] *)
Definition rule (c : string) (n : nat) : text := concat (repeat (encode (lit c)) n).

Definition newline : text := [10%N].

(** [percentage_buckets], a [defaultdict(list)] that is only read by key. *)
Definition buckets := Z -> list (str * str).

(** [percentage_buckets[percent].append(item)] *)
Definition bucket_append (percent : Z) (item : str * str) (b : buckets) : buckets :=
  fun p => if p =? percent then b p ++ [item] else b p.

(** [int(x)] of a float: truncation toward zero. *)
Definition int_of (x : Q) : Z := Z.quot (Qnum x) (Z.pos (Qden x)).

(** [range(start, stop, -1)] *)
Definition range_down (start stop : Z) : list Z :=
  map (fun k => start - Z.of_nat k) (seq 0 (Z.to_nat (start - stop))).

(** The key of line 95, [(-x[1], x[0])]. *)
Definition match_key (x : str * Z) : sort_key := (- snd x, fst x).

(** The loop of lines 95-97; the scores are integers, [int(score)] is the
    score. *)
Fixpoint print_matches (base_attr : str) (matches : list (str * Z)) (b : buckets)
  : list text * buckets :=
  match matches with
  | [] => ([], b)
  | (m, score) :: rest =>
      let line := encode (lit "  - ") ++ encode m ++ encode (lit " (similarity: ")
                  ++ show_int score ++ encode (lit "%)") in
      let '(out, b') :=
        print_matches base_attr rest (bucket_append score (base_attr, m) b) in
      (line :: out, b')
  end.

(** The loop of lines 91-98. *)
Fixpoint print_groups (similar_groups : groups) (b : buckets) : list text * buckets :=
  match similar_groups with
  | [] => ([], b)
  | (base_attr, matches) :: rest =>
      match matches with
      | [] => print_groups rest b
      | _ =>
          let '(out1, b1) := print_matches base_attr (py_sort match_key matches) b in
          let '(out2, b2) := print_groups rest b1 in
          ((newline ++ encode (lit "Base attribute: ") ++ encode base_attr)
             :: encode (lit "Similar to:") :: out1 ++ rule "-" 40 :: out2, b2)
      end
  end.

(** The loop of lines 109-110, [idx] counting from 1. *)
Fixpoint print_bucket (idx : Z) (matches : list (str * str)) : list text :=
  match matches with
  | [] => []
  | (base, m) :: rest =>
      (encode (lit "  ") ++ show_int idx ++ encode (lit ". '") ++ encode base
         ++ [39; 32; 8596; 32; 39]%N ++ encode m ++ encode (lit "'"))
        :: print_bucket (idx + 1) rest
  end.

(** The loop of lines 105-111, with the running [grand_total]. *)
Fixpoint print_summary (b : buckets) (percents : list Z) (grand_total : Z)
  : list text * Z :=
  match percents with
  | [] => ([], grand_total)
  | percent :: rest =>
      let matches := b percent in
      match matches with
      | [] => print_summary b rest grand_total
      | _ =>
          let '(out, total) :=
            print_summary b rest (grand_total + Z.of_nat (length matches)) in
          ((newline ++ show_int percent ++ encode (lit "% Similarity (")
              ++ show_int (Z.of_nat (length matches)) ++ encode (lit " pairs):"))
             :: print_bucket 1 matches ++ out, total)
      end
  end.

(** The last lines of the output, with the total. *)
Definition total_lines (grand_total : Z) : list text :=
  [newline ++ rule "=" 80;
   encode (lit "Total number of similar pairs found: ") ++ show_int grand_total;
   rule "=" 80].

Definition print_similar_groups (similar_groups : groups) (min_threshold : Q)
  : list text :=
  let '(out1, b) := print_groups similar_groups (fun _ => []) in
  let '(out2, grand_total) :=
    print_summary b (range_down 100 (int_of min_threshold - 1)) 0 in
  [newline ++ encode (lit "Potential similar attributes found:"); rule "=" 80]
    ++ out1
    ++ [newline ++ encode (lit "Summary by Similarity Percentage:"); rule "=" 80]
    ++ out2
    ++ total_lines grand_total.

(** The pairs that the summary counts: those with a score from
    [int(min_threshold)] to 100. *)
Definition in_summary (min_threshold : Q) (x : str * str * Z) : bool :=
  (int_of min_threshold <=? snd x) && (snd x <=? 100).

(** ** The rows of [export_to_excel] *)

(** The key of line 215, [(-x[2], x[0])]. *)
Definition pair_key (x : str * str * Z) : sort_key := (- snd x, fst (fst x)).

Inductive fill : Type := white_fill | gray_fill.

(** What lines 239-260 write into one row of the sheet: the row number, the
    pair id, the attribute and its comment, the similarity, [score/100] as a
    fraction, and the difference text, all cells of the row with one fill. *)
Record sheet_row : Type := {
  row_number : Z;
  row_pair_id : Z;
  row_attribute : str;
  row_comment : option text;
  row_similarity : Q;
  row_differences : text;
  row_fill : fill
}.

(** The comment of [write_attribute_with_highlighting]: the parts of the
    first string on the first row of a pair, those of the second on the
    second row; none when there is no difference. *)
Definition highlight_comment (first_row : bool) (differences : list (str * str))
  : option text :=
  match differences with
  | [] => None
  | _ =>
      Some (encode (lit "Different parts:") ++ newline
              ++ join (encode (lit ", "))
                   (map (fun d => encode (if first_row then fst d else snd d))
                      differences))
  end.

(** The two rows of one pair. *)
Definition pair_rows (current_row pair_id : Z) (x : str * str * Z) : list sheet_row :=
  let '(base_attr, m, score) := x in
  let diffs := find_differences base_attr m in
  let shown := diff_text diffs in
  let fill := if pair_id mod 2 =? 0 then white_fill else gray_fill in
  [ {| row_number := current_row; row_pair_id := pair_id;
       row_attribute := base_attr; row_comment := highlight_comment true diffs;
       row_similarity := inject_Z score / 100;
       row_differences := shown; row_fill := fill |};
    {| row_number := current_row + 1; row_pair_id := pair_id;
       row_attribute := m; row_comment := highlight_comment false diffs;
       row_similarity := inject_Z score / 100;
       row_differences := shown; row_fill := fill |} ].

(** The loop of lines 221-263. *)
Fixpoint write_pairs (current_row pair_id : Z) (pairs : list (str * str * Z))
  : list sheet_row :=
  match pairs with
  | [] => []
  | x :: rest =>
      pair_rows current_row pair_id x ++ write_pairs (current_row + 2) (pair_id + 1) rest
  end.

(** The data rows of the sheet, below the header in row 1. *)
Definition export_rows (similar_groups : groups) : list sheet_row :=
  write_pairs 2 1 (py_sort pair_key (all_pairs similar_groups)).

(** ** The results section of the app

    Lines 85-144 of [app.py]: what the section shows, from the result kept
    in the session state.  The average, a float, is left out. *)

Record result_record : Type := {
  base_attribute : str;
  similar_attribute : str;
  similarity_percent : Z;
  differences : text
}.

(** The loops of lines 89-98. *)
Definition results_data (analysis_results : groups) : list result_record :=
  flat_map (fun e =>
    map (fun m =>
      {| base_attribute := fst e; similar_attribute := fst m;
         similarity_percent := snd m;
         differences := diff_text (find_differences (fst e) (fst m)) |})
      (snd e)) analysis_results.

Inductive results_view : Type :=
| no_section
| results_table (data : list result_record) (total_similar_pairs full_matches : nat)
| no_similar_attributes.

(** [None] and an empty dict are falsy, an empty list too. *)
Definition results_section (analysis_results : option groups) : results_view :=
  match analysis_results with
  | None => no_section
  | Some [] => no_section
  | Some similar_groups =>
      match results_data similar_groups with
      | [] => no_similar_attributes
      | data =>
          results_table data (length data)
            (length (filter (fun r => similarity_percent r =? 100) data))
      end
  end.

(** * Properties *)

Example normalize_weight :
  normalize_str (lit "Weight(kg)") = lit "weight (kg)"
  /\ normalize_str (lit "Weight (kg)") = lit "weight (kg)"
  /\ normalize_str (lit "  e.g.  3.5 Inc. ") = lit "eg 3.5 inc"
  /\ normalize_str (lit "a ( b ) c") = lit "a (b) c".
Proof. repeat split; reflexivity. Qed.

Example blocks_tide_diet :
  get_matching_blocks (lit "tide") (lit "diet") = [(0, 3, 1); (4, 4, 0)]
  /\ get_matching_blocks (lit "diet") (lit "tide") = [(0, 2, 1); (2, 3, 1); (4, 4, 0)]
  /\ get_matching_blocks (lit "abxcd") (lit "abcd") = [(0, 0, 2); (3, 2, 2); (5, 4, 0)].
Proof. repeat split; vm_compute; reflexivity. Qed.

(** ** Strings *)

Lemma str_eqb_eq (a b : str) : str_eqb a b = true <-> a = b.
Proof.
  revert b. induction a as [|x a IH]; intros [|y b]; simpl; split; intro H;
    try reflexivity; try discriminate.
  - apply andb_true_iff in H. destruct H as [Hxy Hab].
    apply Ascii.eqb_eq in Hxy. apply IH in Hab. congruence.
  - injection H as -> ->. rewrite Ascii.eqb_refl. simpl. apply IH. reflexivity.
Qed.

Lemma str_eqb_refl (a : str) : str_eqb a a = true.
Proof. apply str_eqb_eq. reflexivity. Qed.

Lemma str_eqb_neq (a b : str) : str_eqb a b = false <-> a <> b.
Proof.
  split.
  - intros H E. apply str_eqb_eq in E. congruence.
  - intro H. destruct (str_eqb a b) eqn:E; [|reflexivity].
    apply str_eqb_eq in E. contradiction.
Qed.

(** ** The Normalizer on values that are not text *)

(** C8, as the code has it: a value that is not a string is returned in its
    string form, and none of the normalization steps is applied to it. *)
Theorem normalize_text_non_string (x : value) :
  is_text x = false -> normalize_text x = py_str x.
Proof. destruct x; simpl; intro H; [discriminate | reflexivity ..]. Qed.

Lemma normalize_text_non_string_witness :
  is_text (VBool true) = false /\ normalize_text (VBool true) = lit "True".
Proof.
  split; [reflexivity | apply (normalize_text_non_string (VBool true)); reflexivity].
Defined.

(** C8 as stated fails at the boolean [True]: its string form is returned
    with its capital, while normalizing that string lowercases it. *)
Lemma normalize_text_bool_counterexample :
  is_text (VBool true) = false
  /\ normalize_text (VBool true) <> normalize_text (VStr (py_str (VBool true))).
Proof. split; [reflexivity | vm_compute; discriminate]. Qed.

(** ** The Case-Variant Detector *)

Lemma re_sub_punct_filter (prev : option ascii) (s : str) :
  re_sub_from pat_punct [] prev O s = filter word_or_space s.
Proof.
  revert prev. induction s as [|c r IH]; intro prev; [reflexivity|].
  simpl. unfold word_or_space at 1.
  destruct (isword c); simpl.
  - f_equal. apply IH.
  - destruct (isspace c); simpl; [f_equal|]; apply IH.
Qed.

(** C7, as the code has it: the characters removed are those that are
    neither word characters (alphanumerics and the underscore) nor
    whitespace. *)
Theorem are_case_variants_iff (a b : str) :
  are_case_variants a b = true
  <-> lower (filter word_or_space a) = lower (filter word_or_space b) /\ a <> b.
Proof.
  unfold are_case_variants, re_sub. rewrite !re_sub_punct_filter.
  rewrite andb_true_iff, negb_true_iff, str_eqb_eq, str_eqb_neq. reflexivity.
Qed.

Lemma are_case_variants_iff_witness :
  are_case_variants (lit "Size-Range") (lit "SizeRange") = true.
Proof.
  apply (proj2 (are_case_variants_iff (lit "Size-Range") (lit "SizeRange"))).
  split; [reflexivity | discriminate].
Defined.

(** C7 as stated fails on an underscore: it is not alphanumeric, yet the
    pattern keeps it. *)
Lemma are_case_variants_underscore_counterexample :
  ~ (are_case_variants (lit "a_b") (lit "ab") = true
     <-> spec_clean (lit "a_b") = spec_clean (lit "ab") /\ lit "a_b" <> lit "ab").
Proof.
  intros [_ H].
  assert (E : are_case_variants (lit "a_b") (lit "ab") = true).
  { apply H. split; [reflexivity | discriminate]. }
  vm_compute in E. discriminate.
Qed.

Example isCaseVariant_spec_underscore :
  isCaseVariant_spec (lit "a_b") (lit "ab") = true.
Proof. reflexivity. Qed.

(** ** Scenarios *)

Example scenario_color :
  find_similar_attributes (frame_of ["Color"; "color"; "Size"]%string) 80
  = Ok [(lit "Color", [(lit "color", 100)])].
Proof. vm_compute. reflexivity. Qed.

(** C3, as the code has it: the pair is reported with score 100, by the
    case-variant test, and the differences are taken between the raw labels,
    so that the final period is reported as a gap. *)
Theorem scenario_country_of_origin :
  find_similar_attributes
    (frame_of ["Country of Origin"; "Country of Origin."]%string) 90
  = Ok [(lit "Country of Origin", [(lit "Country of Origin.", 100)])]
  /\ find_differences (lit "Country of Origin") (lit "Country of Origin.")
     = [([], lit ".")]
  /\ diff_text (find_differences (lit "Country of Origin") (lit "Country of Origin."))
     = arrow ++ encode (lit ".").
Proof. repeat split; vm_compute; reflexivity. Qed.

(** C3 as stated fails: the difference text of the pair is not empty. *)
Lemma scenario_country_of_origin_counterexample :
  ~ (find_similar_attributes
       (frame_of ["Country of Origin"; "Country of Origin."]%string) 90
     = Ok [(lit "Country of Origin", [(lit "Country of Origin.", 100)])]
     /\ diff_text (find_differences (lit "Country of Origin") (lit "Country of Origin."))
        = []).
Proof. intros [_ H]. vm_compute in H. discriminate. Qed.

(** ** Input without labels *)

(** C1, as the code has it: a first column without labels gives the empty
    mapping and no error; a frame without columns fails in the column
    access, with [IndexError]. *)
Theorem find_similar_attributes_no_labels :
  (forall t, find_similar_attributes [] t = Raise IndexError)
  /\ (forall col rest t,
        dropna col = [] -> find_similar_attributes (col :: rest) t = Ok []).
Proof.
  split; [reflexivity|].
  intros col rest t H. unfold find_similar_attributes. simpl. rewrite H. reflexivity.
Qed.

Lemma find_similar_attributes_no_labels_witness :
  dropna [None; None] = []
  /\ find_similar_attributes [[None; None]] 80 = Ok [].
Proof.
  split; [reflexivity|].
  apply (proj2 find_similar_attributes_no_labels [None; None] [] 80%Q). reflexivity.
Defined.

(** C1 as stated fails on an empty label column: the call returns the empty
    mapping. *)
Lemma find_similar_attributes_empty_counterexample :
  unique (dropna []) = []
  /\ find_similar_attributes [[]] 80 = Ok []
  /\ ~ fails (find_similar_attributes [[]] 80).
Proof.
  split; [reflexivity|]. split; [reflexivity|].
  intros [e H]. vm_compute in H. discriminate.
Qed.

(** ** The Pairwise Matcher *)

Lemma in_all_pairs_append (key : str) (item : str * Z) (g : groups) (x : str * str * Z) :
  In x (all_pairs (groups_append key item g))
  <-> In x (all_pairs g) \/ x = (key, fst item, snd item).
Proof.
  induction g as [|[k items] g IH]; simpl.
  - intuition congruence.
  - destruct (str_eqb k key) eqn:E; simpl.
    + apply str_eqb_eq in E. subst k.
      rewrite map_app, !in_app_iff. simpl. intuition congruence.
    + rewrite !in_app_iff, IH. intuition.
Qed.

Section MatcherFacts.

Variable ratio : str -> str -> Z.

Lemma compare_with_cons (t : Q) (a b : str) (rest : list str) (g : groups) :
  compare_with ratio a (normalize_text (VStr a)) t (b :: rest) g
  = compare_with ratio a (normalize_text (VStr a)) t rest (record_pair ratio t a b g).
Proof.
  unfold record_pair, pair_score. simpl.
  destruct (str_eqb a b); [reflexivity|].
  destruct (are_case_variants a b); [reflexivity|].
  destruct (Qle_bool _ _); reflexivity.
Qed.

Lemma in_record_pair (t : Q) (a b : str) (g : groups) (x : str * str * Z) :
  In x (all_pairs (record_pair ratio t a b g))
  <-> In x (all_pairs g) \/ exists s, pair_score ratio t a b = Some s /\ x = (a, b, s).
Proof.
  unfold record_pair. destruct (pair_score ratio t a b) as [s|].
  - rewrite in_all_pairs_append. simpl. split.
    + intros [H | H]; [tauto | right; exists s; tauto].
    + intros [H | (s' & Hs & Hx)]; [tauto | right; congruence].
  - split; [tauto | intros [H | (s & Hs & _)]; [exact H | discriminate]].
Qed.

Lemma in_compare_with (t : Q) (a : str) (rest : list str) (g : groups)
  (x : str * str * Z) :
  In x (all_pairs (compare_with ratio a (normalize_text (VStr a)) t rest g))
  <-> In x (all_pairs g)
      \/ exists b s, In b rest /\ pair_score ratio t a b = Some s /\ x = (a, b, s).
Proof.
  revert g. induction rest as [|b rest IH]; intro g.
  - simpl. split; [auto | intros [H | (b & s & [] & _)]; exact H].
  - rewrite compare_with_cons, IH, in_record_pair. split.
    + intros [[H | (s & Hs)] | (b' & s & Hin & Hs)].
      * tauto.
      * right. exists b, s. simpl. tauto.
      * right. exists b', s. simpl. tauto.
    + intros [H | (b' & s & [-> | Hin] & Hs)].
      * tauto.
      * left. right. exists s. exact Hs.
      * right. exists b', s. tauto.
Qed.

Lemma in_compare_all (t : Q) (attributes : list str) (g : groups)
  (x : str * str * Z) :
  In x (all_pairs (compare_all ratio t attributes g))
  <-> In x (all_pairs g)
      \/ exists a b s, compared attributes a b
                       /\ pair_score ratio t a b = Some s /\ x = (a, b, s).
Proof.
  revert g. induction attributes as [|a rest IH]; intro g; simpl.
  - split; [auto | intros [H | (a & b & s & (l1 & l2 & E & _) & _)]; [exact H|]].
    destruct l1; discriminate.
  - rewrite IH, in_compare_with. split.
    + intros [[H | (b & s & Hin & Hs & Hx)] | (a' & b & s & (l1 & l2 & E & Hin) & Hs)].
      * tauto.
      * right. exists a, b, s. split; [|tauto]. exists [], rest. tauto.
      * right. exists a', b, s. split; [|tauto]. exists (a :: l1), l2.
        rewrite E. tauto.
    + intros [H | (a' & b & s & (l1 & l2 & E & Hin) & Hs)]; [tauto|].
      destruct l1 as [|a0 l1]; simpl in E; injection E as -> ->.
      * left. right. exists b, s. tauto.
      * right. exists a', b, s. split; [|tauto]. exists l1, l2. tauto.
Qed.

(** The score of a recorded pair does not depend on the threshold. *)
Lemma pair_score_value (t : Q) (a b : str) (s : Z) :
  pair_score ratio t a b = Some s ->
  a <> b
  /\ s = if are_case_variants a b then 100
         else ratio (normalize_text (VStr a)) (normalize_text (VStr b)).
Proof.
  unfold pair_score. destruct (str_eqb a b) eqn:Eab; [discriminate|].
  apply str_eqb_neq in Eab. split; [exact Eab|].
  destruct (are_case_variants a b); [congruence|].
  destruct (Qle_bool _ _); congruence.
Qed.

Lemma pair_score_monotone (t1 t2 : Q) (a b : str) (s : Z) :
  (t1 <= t2)%Q -> pair_score ratio t2 a b = Some s -> pair_score ratio t1 a b = Some s.
Proof.
  unfold pair_score. intros Ht.
  destruct (str_eqb a b); [trivial|].
  destruct (are_case_variants a b); [trivial|]. cbv zeta.
  destruct (Qle_bool t2 _) eqn:E2; [|discriminate].
  intro H. injection H as <-.
  apply Qle_bool_iff in E2.
  assert (E1 : Qle_bool t1 (inject_Z (ratio (normalize_text (VStr a))
                                        (normalize_text (VStr b)))) = true).
  { apply Qle_bool_iff. eapply Qle_trans; eassumption. }
  rewrite E1. reflexivity.
Qed.

End MatcherFacts.

Lemma find_similar_attributes_ok (df : DataFrame) (t : Q) (g : groups) :
  find_similar_attributes df t = Ok g ->
  exists col rest, df = col :: rest
                   /\ g = similar_groups_of (unique (dropna col)) t.
Proof.
  unfold find_similar_attributes. destruct df as [|col rest]; simpl; [discriminate|].
  intro H. injection H as <-. exists col, rest. split; reflexivity.
Qed.

(** C2: raising the threshold keeps a subset of the pairs, and a pair
    reported at both thresholds carries the same score. *)
Theorem threshold_monotonicity (df : DataFrame) (t1 t2 : Q) (g2 : groups) :
  (0 <= t1)%Q -> (t1 < t2)%Q -> (t2 <= 100)%Q ->
  find_similar_attributes df t2 = Ok g2 ->
  exists g1,
    find_similar_attributes df t1 = Ok g1
    /\ (forall x, In x (all_pairs g2) -> In x (all_pairs g1))
    /\ (forall a b s1 s2,
          In (a, b, s1) (all_pairs g1) -> In (a, b, s2) (all_pairs g2) -> s1 = s2).
Proof.
  intros _ Hlt _ H2. apply find_similar_attributes_ok in H2.
  destruct H2 as (col & rest & -> & ->).
  exists (similar_groups_of (unique (dropna col)) t1).
  split; [reflexivity|]. unfold similar_groups_of. split.
  - intros x Hx. apply in_compare_all in Hx. apply in_compare_all.
    destruct Hx as [[] | (a & b & s & Hc & Hs & Hx)].
    right. exists a, b, s. split; [exact Hc|]. split; [|exact Hx].
    eapply pair_score_monotone; [apply Qlt_le_weak; exact Hlt | exact Hs].
  - intros a b s1 s2 H1 H2.
    apply in_compare_all in H1. apply in_compare_all in H2.
    destruct H1 as [[] | (a1 & b1 & s1' & _ & Hs1 & E1)].
    destruct H2 as [[] | (a2 & b2 & s2' & _ & Hs2 & E2)].
    injection E1 as <- <- <-. injection E2 as <- <- <-.
    apply pair_score_value in Hs1. apply pair_score_value in Hs2.
    destruct Hs1 as [_ ->]. destruct Hs2 as [_ ->]. reflexivity.
Qed.

Lemma threshold_monotonicity_witness :
  exists g1,
    find_similar_attributes (frame_of ["Color"; "color"; "Size"]%string) 0 = Ok g1
    /\ (forall x, In x (all_pairs [(lit "Color", [(lit "color", 100)])]) ->
                  In x (all_pairs g1))
    /\ (forall a b s1 s2,
          In (a, b, s1) (all_pairs g1) ->
          In (a, b, s2) (all_pairs [(lit "Color", [(lit "color", 100)])]) -> s1 = s2).
Proof.
  apply (threshold_monotonicity (frame_of ["Color"; "color"; "Size"]%string) 0 80).
  - discriminate.
  - reflexivity.
  - discriminate.
  - vm_compute. reflexivity.
Defined.

(** ** The block alignment *)

Lemma j2len_get_ok (blo n : Z) (d : j2len_t) (j : Z) :
  0 <= n -> j2len_ok blo n d ->
  0 <= j2len_get d j <= n /\ (j2len_get d j = 0 \/ j2len_get d j <= j - blo + 1).
Proof.
  intros Hn H. induction H as [|[j' k] d (Hk0 & Hkn & Hj & Hk) _ IH]; simpl.
  - lia.
  - simpl in *. destruct (j' =? j) eqn:E; [|exact IH].
    apply Z.eqb_eq in E. subst j'. lia.
Qed.

Lemma scan_js_ok (alo ahi blo bhi i : Z) (j2len : j2len_t) (js : list Z) :
  alo <= i < ahi -> j2len_ok blo (i - alo) j2len ->
  forall newj2len best,
    j2len_ok blo (i - alo + 1) newj2len -> within alo ahi blo bhi best ->
    j2len_ok blo (i - alo + 1) (fst (scan_js blo bhi i j2len js newj2len best))
    /\ within alo ahi blo bhi (snd (scan_js blo bhi i j2len js newj2len best)).
Proof.
  intros Hi Hprev. induction js as [|j js IH]; intros new best Hnew Hbest; simpl.
  - split; assumption.
  - destruct (j <? blo) eqn:E1; [apply IH; assumption|].
    destruct (bhi <=? j) eqn:E2; [split; assumption|].
    apply Z.ltb_ge in E1. apply Z.leb_gt in E2.
    destruct best as [[bi bj] bs].
    destruct (j2len_get_ok blo (i - alo) j2len (j - 1) ltac:(lia) Hprev) as [Hg1 Hg2].
    apply IH.
    + constructor; [simpl; lia | exact Hnew].
    + destruct (bs <? j2len_get j2len (j - 1) + 1); [|exact Hbest].
      simpl in *. lia.
Qed.

Lemma scan_is_ok (a : str) (b2j : b2j_t) (alo ahi blo bhi : Z) (n : nat) :
  forall i j2len best,
    alo <= i -> i + Z.of_nat n <= ahi ->
    j2len_ok blo (i - alo) j2len -> within alo ahi blo bhi best ->
    within alo ahi blo bhi (scan_is a b2j blo bhi (zrange i n) j2len best).
Proof.
  induction n as [|n IH]; intros i j2len best Hlo Hhi Hd Hbest; simpl.
  - exact Hbest.
  - set (js := match py_index a i with Some c => b2j_get b2j c | None => [] end).
    destruct (scan_js_ok alo ahi blo bhi i j2len js ltac:(lia) Hd [] best
                (Forall_nil _) Hbest) as [H1 H2].
    destruct (scan_js blo bhi i j2len js [] best) as [new best'].
    simpl in H1, H2. apply IH; try lia; try assumption.
    replace (i + 1 - alo) with (i - alo + 1) by lia. exact H1.
Qed.

Lemma extend_left_ok (a b : str) (alo ahi blo bhi : Z) (fuel : nat) (m : block) :
  within alo ahi blo bhi m -> within alo ahi blo bhi (extend_left a b alo blo fuel m).
Proof.
  revert m. induction fuel as [|f IH]; intros [[bi bj] bs] H; simpl; [exact H|].
  destruct ((alo <? bi) && (blo <? bj) && _) eqn:E; [|exact H].
  apply andb_true_iff in E. destruct E as [E _].
  apply andb_true_iff in E. destruct E as [E1 E2].
  apply Z.ltb_lt in E1, E2. apply IH. simpl in *. lia.
Qed.

Lemma extend_right_ok (a b : str) (alo ahi blo bhi : Z) (fuel : nat) (m : block) :
  within alo ahi blo bhi m -> within alo ahi blo bhi (extend_right a b ahi bhi fuel m).
Proof.
  revert m. induction fuel as [|f IH]; intros [[bi bj] bs] H; simpl; [exact H|].
  destruct ((bi + bs <? ahi) && (bj + bs <? bhi) && _) eqn:E; [|exact H].
  apply andb_true_iff in E. destruct E as [E _].
  apply andb_true_iff in E. destruct E as [E1 E2].
  apply Z.ltb_lt in E1, E2. apply IH. simpl in *. lia.
Qed.

(** The longest match lies in the window it was asked for. *)
Lemma find_longest_match_within (a b : str) (b2j : b2j_t) (alo ahi blo bhi : Z) :
  alo <= ahi -> blo <= bhi ->
  within alo ahi blo bhi (find_longest_match a b b2j alo ahi blo bhi).
Proof.
  intros Ha Hb. unfold find_longest_match.
  apply extend_right_ok with (alo := alo) (blo := blo).
  apply extend_left_ok with (ahi := ahi) (bhi := bhi).
  apply scan_is_ok; try lia.
  - replace (alo - alo) with 0 by lia. constructor.
  - simpl. lia.
Qed.

Lemma total_size_app (l1 l2 : list block) :
  total_size (l1 ++ l2) = total_size l1 + total_size l2.
Proof.
  unfold total_size. induction l1 as [|x l1 IH]; simpl; [reflexivity|].
  rewrite IH. lia.
Qed.

Lemma total_size_nonneg (la lb : Z) (l : list block) :
  Forall (block_ok la lb) l -> 0 <= total_size l.
Proof.
  unfold total_size. induction 1 as [|[[i j] k] l Hx _ IH]; simpl; [lia|].
  unfold block_ok, within in Hx. lia.
Qed.

Lemma total_width_nonneg_a (la lb : Z) (q : list range4) :
  Forall (range_ok la lb) q -> 0 <= total_width width_a q.
Proof.
  unfold total_width. induction 1 as [|[[[alo ahi] blo] bhi] q Hx _ IH]; simpl; [lia|].
  unfold range_ok in Hx. lia.
Qed.

Lemma total_width_nonneg_b (la lb : Z) (q : list range4) :
  Forall (range_ok la lb) q -> 0 <= total_width width_b q.
Proof.
  unfold total_width. induction 1 as [|[[[alo ahi] blo] bhi] q Hx _ IH]; simpl; [lia|].
  unfold range_ok in Hx. lia.
Qed.

(** The blocks found by the work loop lie inside the two sequences and do
    not share elements: their sizes add up to no more than either length. *)
Lemma blocks_loop_ok (a b : str) (b2j : b2j_t) (la lb : Z) (fuel : nat) :
  forall queue acc,
    Forall (range_ok la lb) queue -> Forall (block_ok la lb) acc ->
    total_size acc + total_width width_a queue <= la ->
    total_size acc + total_width width_b queue <= lb ->
    Forall (block_ok la lb) (blocks_loop a b b2j fuel queue acc)
    /\ total_size (blocks_loop a b b2j fuel queue acc) <= la
    /\ total_size (blocks_loop a b b2j fuel queue acc) <= lb.
Proof.
  induction fuel as [|f IH]; intros queue acc Hq Hacc Ha Hb.
  - simpl. pose proof (total_width_nonneg_a _ _ _ Hq).
    pose proof (total_width_nonneg_b _ _ _ Hq). repeat split; [assumption | lia ..].
  - destruct queue as [|[[[alo ahi] blo] bhi] queue].
    + simpl in *. unfold total_width in *. simpl in *. repeat split; [assumption | lia ..].
    + simpl. inversion Hq as [|? ? Hr Hq']; subst.
      unfold range_ok in Hr.
      pose proof (find_longest_match_within a b b2j alo ahi blo bhi
                    ltac:(lia) ltac:(lia)) as Hw.
      destruct (find_longest_match a b b2j alo ahi blo bhi) as [[i j] k].
      unfold within in Hw. unfold total_width in Ha, Hb. simpl in Ha, Hb.
      fold (total_width width_a queue) in Ha. fold (total_width width_b queue) in Hb.
      destruct (k =? 0) eqn:Ek.
      * apply IH; try assumption; lia.
      * apply Z.eqb_neq in Ek.
        set (q1 := if (alo <? i) && (blo <? j)
                   then (alo, i, blo, j) :: queue else queue).
        assert (Hq1 : Forall (range_ok la lb) q1).
        { unfold q1. destruct ((alo <? i) && (blo <? j)); [|assumption].
          constructor; [unfold range_ok; lia | assumption]. }
        assert (Hw1 : forall w : range4 -> Z,
                  (w (alo, i, blo, j) >= 0) ->
                  total_width w q1 <= w (alo, i, blo, j) + total_width w queue).
        { intros w Hw0. unfold q1. destruct ((alo <? i) && (blo <? j));
            unfold total_width; simpl; lia. }
        clearbody q1.
        assert (Hq2 : Forall (range_ok la lb)
                        (if (i + k <? ahi) && (j + k <? bhi)
                         then (i + k, ahi, j + k, bhi) :: q1 else q1)).
        { destruct ((i + k <? ahi) && (j + k <? bhi)); [|assumption].
          constructor; [unfold range_ok; lia | assumption]. }
        assert (Hw2 : forall w : range4 -> Z,
                  (w (i + k, ahi, j + k, bhi) >= 0) ->
                  total_width w (if (i + k <? ahi) && (j + k <? bhi)
                                 then (i + k, ahi, j + k, bhi) :: q1 else q1)
                  <= w (i + k, ahi, j + k, bhi) + total_width w q1).
        { intros w Hw0. destruct ((i + k <? ahi) && (j + k <? bhi));
            unfold total_width; simpl; lia. }
        pose proof (Hw1 width_a ltac:(simpl; lia)) as Ha1.
        pose proof (Hw1 width_b ltac:(simpl; lia)) as Hb1.
        pose proof (Hw2 width_a ltac:(simpl; lia)) as Ha2.
        pose proof (Hw2 width_b ltac:(simpl; lia)) as Hb2.
        simpl in Ha1, Hb1, Ha2, Hb2.
        apply IH.
        -- exact Hq2.
        -- apply Forall_app. split; [assumption|].
           constructor; [unfold block_ok, within; lia | constructor].
        -- rewrite total_size_app. unfold total_size at 2. simpl.
           etransitivity; [apply Z.add_le_mono_l; exact Ha2 | lia].
        -- rewrite total_size_app. unfold total_size at 2. simpl.
           etransitivity; [apply Z.add_le_mono_l; exact Hb2 | lia].
Qed.

Lemma insert_block_Forall (P : block -> Prop) (x : block) (l : list block) :
  P x -> Forall P l -> Forall P (insert_block x l).
Proof.
  intros Hx Hl. induction Hl as [|y l Hy Hl IH]; simpl.
  - constructor; [exact Hx | constructor].
  - destruct (block_leb x y); constructor; try assumption.
    constructor; assumption.
Qed.

Lemma insert_block_size (x : block) (l : list block) :
  total_size (insert_block x l) = block_size x + total_size l.
Proof.
  unfold total_size. induction l as [|y l IH]; simpl; [reflexivity|].
  destruct (block_leb x y); simpl; [reflexivity|]. rewrite IH. lia.
Qed.

Lemma sort_blocks_Forall (P : block -> Prop) (l : list block) :
  Forall P l -> Forall P (sort_blocks l).
Proof.
  unfold sort_blocks. induction 1; simpl; [constructor|].
  apply insert_block_Forall; assumption.
Qed.

Lemma sort_blocks_size (l : list block) : total_size (sort_blocks l) = total_size l.
Proof.
  unfold sort_blocks. induction l as [|x l IH]; simpl; [reflexivity|].
  rewrite insert_block_size, IH. reflexivity.
Qed.

Lemma emit_block_ok (la lb i j k : Z) :
  block_ok la lb (i, j, k) -> Forall (block_ok la lb) (emit_block i j k).
Proof.
  intro H. unfold emit_block.
  destruct (k =? 0); [constructor | constructor; [exact H | constructor]].
Qed.

Lemma emit_block_size (i j k : Z) : total_size (emit_block i j k) = k.
Proof.
  unfold emit_block. destruct (k =? 0) eqn:E; unfold total_size; simpl.
  - apply Z.eqb_eq in E. lia.
  - lia.
Qed.

Lemma collapse_adjacent_ok (la lb : Z) (bl : list block) :
  Forall (block_ok la lb) bl ->
  forall i1 j1 k1,
    block_ok la lb (i1, j1, k1) ->
    Forall (block_ok la lb) (collapse_adjacent i1 j1 k1 bl).
Proof.
  induction 1 as [|[[i2 j2] k2] bl Hx _ IH]; intros i1 j1 k1 H1; simpl.
  - apply emit_block_ok. exact H1.
  - destruct ((i1 + k1 =? i2) && (j1 + k1 =? j2)) eqn:E.
    + apply andb_true_iff in E. destruct E as [E1 E2].
      apply Z.eqb_eq in E1, E2. apply IH.
      unfold block_ok, within in *. lia.
    + apply Forall_app. split; [apply emit_block_ok; exact H1 | apply IH; exact Hx].
Qed.

Lemma collapse_adjacent_size (bl : list block) :
  forall i1 j1 k1,
    total_size (collapse_adjacent i1 j1 k1 bl) = k1 + total_size bl.
Proof.
  induction bl as [|[[i2 j2] k2] bl IH]; intros i1 j1 k1; simpl.
  - rewrite emit_block_size. unfold total_size. simpl. lia.
  - destruct ((i1 + k1 =? i2) && (j1 + k1 =? j2)).
    + rewrite IH. unfold total_size. simpl. lia.
    + rewrite total_size_app, emit_block_size, IH. unfold total_size. simpl. lia.
Qed.

Lemma found_blocks_ok (a b : str) :
  let la := Z.of_nat (length a) in
  let lb := Z.of_nat (length b) in
  let found := blocks_loop a b (chain_b b) (2 * length a + 1) [(0, la, 0, lb)] [] in
  Forall (block_ok la lb) found /\ total_size found <= la /\ total_size found <= lb.
Proof.
  intros la lb found. apply blocks_loop_ok.
  - constructor; [unfold range_ok; lia | constructor].
  - constructor.
  - unfold total_size, total_width. simpl. lia.
  - unfold total_size, total_width. simpl. lia.
Qed.

(** Every matching block lies inside the two sequences. *)
Lemma get_matching_blocks_ok (a b : str) :
  Forall (block_ok (Z.of_nat (length a)) (Z.of_nat (length b)))
    (get_matching_blocks a b).
Proof.
  unfold get_matching_blocks. destruct (found_blocks_ok a b) as (H & _ & _).
  apply Forall_app. split.
  - apply collapse_adjacent_ok; [apply sort_blocks_Forall; exact H|].
    unfold block_ok, within. lia.
  - constructor; [unfold block_ok, within; lia | constructor].
Qed.

(** The matched characters are no more than either sequence holds. *)
Lemma matches_bounds (a b : str) :
  0 <= matches a b
  /\ matches a b <= Z.of_nat (length a) /\ matches a b <= Z.of_nat (length b).
Proof.
  split.
  - apply (total_size_nonneg _ _ _ (get_matching_blocks_ok a b)).
  - change (matches a b) with (total_size (get_matching_blocks a b)).
    unfold get_matching_blocks. destruct (found_blocks_ok a b) as (_ & Ha & Hb).
    cbv zeta in Ha, Hb.
    rewrite total_size_app, collapse_adjacent_size, sort_blocks_size.
    change (total_size [(Z.of_nat (length a), Z.of_nat (length b), 0)]) with 0.
    lia.
Qed.

(** ** The Difference Extractor *)

Lemma py_slice_length (s : str) (lo hi : Z) :
  0 <= lo -> lo <= hi -> hi <= Z.of_nat (length s) ->
  length (py_slice s lo hi) = Z.to_nat (hi - lo).
Proof.
  intros H0 H1 H2. unfold py_slice, clamp_index.
  destruct (lo <? 0) eqn:E1; [apply Z.ltb_lt in E1; lia|].
  destruct (hi <? 0) eqn:E2; [apply Z.ltb_lt in E2; lia|].
  rewrite length_firstn, length_skipn. lia.
Qed.

Lemma py_slice_nonempty (s : str) (lo hi : Z) :
  0 <= lo -> lo < hi -> hi <= Z.of_nat (length s) -> py_slice s lo hi <> [].
Proof.
  intros H0 H1 H2 E.
  pose proof (py_slice_length s lo hi H0 ltac:(lia) H2) as L.
  rewrite E in L. simpl in L. lia.
Qed.

Lemma differences_from_nonempty (str1 str2 : str) (blocks : list block) :
  Forall (block_ok (Z.of_nat (length str1)) (Z.of_nat (length str2))) blocks ->
  forall last_end1 last_end2,
    0 <= last_end1 -> 0 <= last_end2 ->
    Forall real_span (differences_from str1 str2 last_end1 last_end2 blocks).
Proof.
  induction 1 as [|[[i j] size] blocks Hx _ IH]; intros e1 e2 H1 H2; simpl.
  - constructor.
  - unfold block_ok, within in Hx.
    destruct ((e1 <? i) || (e2 <? j)) eqn:E; [|apply IH; lia].
    constructor; [|apply IH; lia].
    apply orb_true_iff in E. destruct E as [E | E]; apply Z.ltb_lt in E.
    + left. simpl. apply py_slice_nonempty; lia.
    + right. simpl. apply py_slice_nonempty; lia.
Qed.

(** C10: every span that [find_differences] returns has a segment that is
    not empty. *)
Theorem find_differences_spans_nonempty (str1 str2 : str) :
  Forall (fun d => fst d <> [] \/ snd d <> []) (find_differences str1 str2).
Proof.
  unfold find_differences.
  apply (differences_from_nonempty str1 str2 _ (get_matching_blocks_ok str1 str2));
    lia.
Qed.

(** ** The Similarity Scorer *)

Lemma round_div_bounds (p q : Z) :
  0 < q -> 0 <= p -> p <= 100 * q -> 0 <= round_div p q <= 100.
Proof.
  intros Hq Hp Hpq. unfold round_div.
  pose proof (Z.div_mod p q ltac:(lia)) as E.
  pose proof (Z.mod_pos_bound p q Hq) as Hr.
  assert (Hd : 0 <= p / q) by (apply Z.div_pos; lia).
  assert (Hd' : p / q <= 100) by (apply Z.div_le_upper_bound; lia).
  destruct (2 * (p mod q) <? q) eqn:E1; [lia|].
  apply Z.ltb_ge in E1.
  assert (p / q <> 100) by nia.
  destruct (q <? 2 * (p mod q)); [lia|].
  destruct (Z.even (p / q)); lia.
Qed.

Lemma lcs_nil_r (a : str) : lcs a [] = 0%nat.
Proof. destruct a; reflexivity. Qed.

Lemma lcs_cons (x y : ascii) (a b : str) :
  lcs (x :: a) (y :: b)
  = if Ascii.eqb x y then S (lcs a b)
    else Nat.max (lcs a (y :: b)) (lcs (x :: a) b).
Proof. reflexivity. Qed.

Lemma lcs_sym (a b : str) : lcs a b = lcs b a.
Proof.
  revert b. induction a as [|x a IHa]; intro b.
  - rewrite lcs_nil_r. reflexivity.
  - induction b as [|y b IHb]; [reflexivity|].
    rewrite !lcs_cons, (Ascii.eqb_sym y x), IHb, (IHa b), (IHa (y :: b)).
    destruct (Ascii.eqb x y); [reflexivity | apply Nat.max_comm].
Qed.

Lemma lcs_le_length (a b : str) : (lcs a b <= length a)%nat.
Proof.
  revert b. induction a as [|x a IHa]; intro b; [apply Nat.le_refl|].
  induction b as [|y b IHb]; [apply Nat.le_0_l|].
  rewrite lcs_cons. destruct (Ascii.eqb x y).
  - simpl. apply le_n_S. apply IHa.
  - apply Nat.max_lub; [|exact IHb].
    simpl. apply Nat.le_le_succ_r. apply IHa.
Qed.

Lemma suffix_values_hd (a b : str) : hd 0%nat (suffix_values a b) = lcs a b.
Proof. destruct b; reflexivity. Qed.

Lemma lcs_row_suffix_values (x : ascii) (a b : str) :
  lcs_row x b (suffix_values a b) = suffix_values (x :: a) b.
Proof.
  induction b as [|y b IH]; [reflexivity|].
  cbn [lcs_row suffix_values tl hd]. rewrite IH, !suffix_values_hd, lcs_cons.
  reflexivity.
Qed.

(** The table holds the values of the recurrence. *)
Lemma lcs_table_suffix_values (a b : str) : lcs_table a b = suffix_values a b.
Proof.
  unfold lcs_table. induction a as [|x a IH].
  - simpl. f_equal. induction b as [|y b IHb]; [reflexivity|].
    simpl. f_equal. exact IHb.
  - cbn [fold_right]. rewrite IH. apply lcs_row_suffix_values.
Qed.

Lemma lcs_length_lcs (a b : str) : lcs_length a b = lcs a b.
Proof. unfold lcs_length. rewrite lcs_table_suffix_values. apply suffix_values_hd. Qed.

Lemma lcs_length_sym (a b : str) : lcs_length a b = lcs_length b a.
Proof. rewrite !lcs_length_lcs. apply lcs_sym. Qed.

Lemma lcs_length_bounds (a b : str) :
  (lcs_length a b <= length a)%nat /\ (lcs_length a b <= length b)%nat.
Proof.
  rewrite lcs_length_lcs. split; [apply lcs_le_length|].
  rewrite lcs_sym. apply lcs_le_length.
Qed.

Lemma fuzz_ratio_bounds (a b : str) : 0 <= fuzz_ratio a b <= 100.
Proof.
  unfold fuzz_ratio.
  destruct (Z.of_nat (length a) + Z.of_nat (length b) =? 0) eqn:E; [lia|].
  apply Z.eqb_neq in E. destruct (lcs_length_bounds a b).
  apply round_div_bounds; lia.
Qed.

Lemma fuzz_ratio_sym (a b : str) : fuzz_ratio a b = fuzz_ratio b a.
Proof.
  unfold fuzz_ratio.
  rewrite (lcs_length_sym a b), (Z.add_comm (Z.of_nat (length a))). reflexivity.
Qed.

Example fuzz_ratio_values :
  fuzz_ratio (lit "tide") (lit "diet") = 50
  /\ fuzz_ratio (lit "diet") (lit "tide") = 50
  /\ fuzz_ratio (lit "color") (lit "colour") = 91
  /\ fuzz_ratio (lit "weight (kg)") (lit "weight (kg)") = 100
  /\ fuzz_ratio (lit "color") (lit "size") = 0
  /\ fuzz_ratio [] [] = 100
  /\ fuzz_ratio [] (lit "a") = 0.
Proof. repeat split; vm_compute; reflexivity. Qed.

(** C4: the score is an integer between 0 and 100, and it is the same when
    the two strings are swapped. *)
Theorem score_in_range_and_symmetric (a b : str) :
  0 <= fuzz_ratio a b <= 100 /\ fuzz_ratio a b = fuzz_ratio b a.
Proof. split; [apply fuzz_ratio_bounds | apply fuzz_ratio_sym]. Qed.

(** The ratio of a [SequenceMatcher] is not that scorer: the greedy block
    alignment depends on which string comes first, and so does its ratio. *)
Example sequence_matcher_ratio_order :
  sequence_matcher_ratio (lit "tide") (lit "diet") = 25
  /\ sequence_matcher_ratio (lit "diet") (lit "tide") = 50.
Proof. split; vm_compute; reflexivity. Qed.

(** ** Thresholds outside the range *)

Lemma Qle_bool_above (t : Q) (s : Z) :
  (100 < t)%Q -> s <= 100 -> Qle_bool t (inject_Z s) = false.
Proof.
  intros Ht Hs. destruct (Qle_bool t (inject_Z s)) eqn:E; [|reflexivity].
  apply Qle_bool_iff in E.
  assert (H : (100 < inject_Z s)%Q) by (eapply Qlt_le_trans; eassumption).
  unfold Qlt, inject_Z in H. simpl in H. lia.
Qed.

(** C9, as the code has it: the threshold is not checked.  Whatever its
    value the call returns a mapping; above 100 the scorer's results are all
    below the threshold, and only the case variants remain, at score 100. *)
Theorem threshold_not_validated (col : list (option str)) (rest : DataFrame) (t : Q) :
  exists g,
    find_similar_attributes (col :: rest) t = Ok g
    /\ ((100 < t)%Q ->
        forall a b s, In (a, b, s) (all_pairs g) ->
                      are_case_variants a b = true /\ s = 100).
Proof.
  eexists. split; [reflexivity|].
  intros Ht a b s H. unfold similar_groups_of in H. apply in_compare_all in H.
  destruct H as [[] | (a' & b' & s' & _ & Hs & E)].
  injection E as <- <- <-. unfold pair_score in Hs.
  destruct (str_eqb a b); [discriminate|].
  destruct (are_case_variants a b); [split; congruence|].
  cbv zeta in Hs. rewrite Qle_bool_above in Hs; [discriminate | exact Ht|].
  apply fuzz_ratio_bounds.
Qed.

Lemma threshold_not_validated_witness :
  exists g,
    find_similar_attributes (frame_of ["Color"; "color"; "Size"]%string) 150 = Ok g
    /\ forall a b s, In (a, b, s) (all_pairs g) ->
                     are_case_variants a b = true /\ s = 100.
Proof.
  destruct (threshold_not_validated
              (map (fun s => Some (lit s)) ["Color"; "color"; "Size"]%string) [] 150%Q)
    as (g & Hg & H).
  exists g. split; [exact Hg | apply H; reflexivity].
Defined.

(** C9 as stated fails: a threshold of 150 is accepted, and the call
    returns the case variants. *)
Lemma threshold_out_of_range_counterexample :
  ~ (0 <= 150 <= 100)%Q
  /\ find_similar_attributes (frame_of ["Color"; "color"; "Size"]%string) 150
     = Ok [(lit "Color", [(lit "color", 100)])]
  /\ ~ fails (find_similar_attributes (frame_of ["Color"; "color"; "Size"]%string) 150).
Proof.
  split; [intros [_ H]; apply H; reflexivity|].
  split; [vm_compute; reflexivity|].
  intros [e H]. vm_compute in H. discriminate.
Qed.

(** ** The case-variant fast path *)

Lemma are_case_variants_neq (a b : str) :
  are_case_variants a b = true -> str_eqb a b = false.
Proof.
  unfold are_case_variants. intro H. apply andb_true_iff in H.
  destruct H as [_ H]. apply negb_true_iff in H. exact H.
Qed.

(** C5: the scenario gives exactly the group of "Color"; and for a case
    variant the body of the loop appends the pair with score 100 without a
    call of the scorer, whatever the scorer and the threshold are, so that
    the pair is in the result. *)
Theorem case_variant_fast_path :
  (find_similar_attributes (frame_of ["Color"; "color"; "Size"]%string) 80
   = Ok [(lit "Color", [(lit "color", 100)])]
   /\ groups_get [(lit "Color", [(lit "color", 100)])] (lit "Size") = None)
  /\ (forall ratio t attr1 attr2 rest g,
        are_case_variants attr1 attr2 = true ->
        compare_with ratio attr1 (normalize_text (VStr attr1)) t (attr2 :: rest) g
        = compare_with ratio attr1 (normalize_text (VStr attr1)) t rest
            (groups_append attr1 (attr2, 100) g))
  /\ (forall ratio t attributes attr1 attr2,
        compared attributes attr1 attr2 ->
        are_case_variants attr1 attr2 = true ->
        In (attr1, attr2, 100) (all_pairs (compare_all ratio t attributes []))).
Proof.
  split; [split; vm_compute; reflexivity|]. split.
  - intros ratio t a b rest g H. simpl.
    rewrite (are_case_variants_neq a b H), H. reflexivity.
  - intros ratio t attributes a b Hc H. apply in_compare_all. right.
    exists a, b, 100. split; [exact Hc|]. split; [|reflexivity].
    unfold pair_score. rewrite (are_case_variants_neq a b H), H. reflexivity.
Qed.

Lemma case_variant_fast_path_witness :
  are_case_variants (lit "Color") (lit "color") = true
  /\ In (lit "Color", lit "color", 100)
       (all_pairs (compare_all fuzz_ratio 101 [lit "Color"; lit "color"; lit "Size"] [])).
Proof.
  split; [reflexivity|].
  apply (proj2 (proj2 case_variant_fast_path) fuzz_ratio 101%Q
           [lit "Color"; lit "color"; lit "Size"] (lit "Color") (lit "color")).
  - exists [], [lit "color"; lit "Size"]. split; [reflexivity | left; reflexivity].
  - reflexivity.
Defined.

(** ** The Normalizer *)

(** *** Character classes *)

Ltac by_cases_on c :=
  destruct c as [[] [] [] [] [] [] [] []]; vm_compute;
  try reflexivity; try discriminate; auto.

Lemma lower_char_idempotent (c : ascii) : lower_char (lower_char c) = lower_char c.
Proof. by_cases_on c. Qed.

Lemma space_not_period (c : ascii) : isspace c = true -> is_char "." c = false.
Proof. by_cases_on c. Qed.

Lemma space_not_digit (c : ascii) : isspace c = true -> isdecimal c = false.
Proof. by_cases_on c. Qed.

Lemma space_lowered (c : ascii) : isspace c = true -> lowered c.
Proof. unfold lowered. by_cases_on c. Qed.

Lemma digit_not_period (c : ascii) : isdecimal c = true -> is_char "." c = false.
Proof. by_cases_on c. Qed.

Lemma is_char_true (x c : ascii) : is_char x c = true -> c = x.
Proof. unfold is_char. apply Ascii.eqb_eq. Qed.

(** *** Substitution *)

Lemma prev_free_around (x : ascii) : prev_free (pat_around x).
Proof. intros p p' s. reflexivity. Qed.

Lemma prev_free_spaces : prev_free pat_spaces.
Proof. intros p p' s. reflexivity. Qed.

Lemma re_sub_from_skip (m : matcher) (repl : str) :
  prev_free m ->
  forall s k prev prev',
    re_sub_from m repl prev k s = re_sub_from m repl prev' O (skipn k s).
Proof.
  intro Hm. induction s as [|c r IH]; intros k prev prev'.
  - destruct k; reflexivity.
  - destruct k as [|k]; simpl.
    + rewrite (Hm prev prev'). reflexivity.
    + apply IH.
Qed.

Lemma re_sub_match (m : matcher) (repl : str) (c : ascii) (r : str) (k : nat) :
  prev_free m -> m None (c :: r) = Some (S k) ->
  re_sub m repl (c :: r) = repl ++ re_sub m repl (skipn k r).
Proof.
  intros Hm H. unfold re_sub. simpl. rewrite H. f_equal.
  apply re_sub_from_skip. exact Hm.
Qed.

Lemma re_sub_no_match (m : matcher) (repl : str) (c : ascii) (r : str) :
  prev_free m -> m None (c :: r) = None ->
  re_sub m repl (c :: r) = c :: re_sub m repl r.
Proof.
  intros Hm H. unfold re_sub. simpl. rewrite H. f_equal.
  change r with (skipn 0 r) at 2. apply re_sub_from_skip. exact Hm.
Qed.

(** Substitution keeps a property of the characters that the replacement
    text has too. *)
Lemma re_sub_from_Forall (P : ascii -> Prop) (m : matcher) (repl : str) :
  Forall P repl ->
  forall s prev k, Forall P s -> Forall P (re_sub_from m repl prev k s).
Proof.
  intros Hrepl. induction s as [|c r IH]; intros prev k Hs; simpl.
  - constructor.
  - inversion Hs as [|? ? Hc Hr]; subst. destruct k as [|k]; [|apply IH; exact Hr].
    destruct (m prev (c :: r)) as [[|k]|].
    + constructor; [exact Hc | apply IH; exact Hr].
    + apply Forall_app. split; [exact Hrepl | apply IH; exact Hr].
    + constructor; [exact Hc | apply IH; exact Hr].
Qed.

(** *** Whitespace *)

Lemma span_space_app (w s : str) :
  spaces w -> span_space (w ++ s) = (length w + span_space s)%nat.
Proof.
  induction 1 as [|c w Hc _ IH]; simpl; [reflexivity|].
  rewrite Hc, IH. reflexivity.
Qed.

Lemma skipn_length_app (w s : str) : skipn (length w) (w ++ s) = s.
Proof. induction w as [|c w IH]; simpl; [reflexivity | exact IH]. Qed.

Lemma span_space_flat (items : list item) :
  Forall valid_item items -> span_space (flat items) = O.
Proof.
  intros H. destruct H as [|[c w] items [Hc _] _]; simpl; [reflexivity|].
  simpl in Hc. rewrite Hc. reflexivity.
Qed.

Lemma pat_around_hit (x : ascii) (w w' s : str) :
  spaces w -> spaces w' -> isspace x = false -> span_space s = O ->
  pat_around x None (w ++ x :: w' ++ s) = Some (length w + 1 + length w')%nat.
Proof.
  intros Hw Hw' Hx Hs. unfold pat_around.
  rewrite span_space_app by exact Hw. simpl. rewrite Hx.
  rewrite Nat.add_0_r, skipn_length_app. unfold is_char. rewrite Ascii.eqb_refl.
  rewrite span_space_app by exact Hw'. rewrite Hs, Nat.add_0_r. reflexivity.
Qed.

Lemma pat_around_miss (x c : ascii) (w s : str) :
  spaces w -> isspace c = false -> is_char x c = false ->
  pat_around x None (w ++ c :: s) = None.
Proof.
  intros Hw Hc Hx. unfold pat_around.
  rewrite span_space_app by exact Hw. simpl. rewrite Hc.
  rewrite Nat.add_0_r, skipn_length_app, Hx. reflexivity.
Qed.

Lemma pat_around_spaces (x : ascii) (w : str) :
  spaces w -> pat_around x None w = None.
Proof.
  intros Hw. unfold pat_around.
  rewrite <- (app_nil_r w) at 1 2. rewrite span_space_app by exact Hw.
  simpl. rewrite Nat.add_0_r, skipn_length_app. reflexivity.
Qed.

Lemma re_sub_around_spaces (x : ascii) (repl w : str) :
  spaces w -> re_sub (pat_around x) repl w = w.
Proof.
  induction 1 as [|c w Hc Hw IH]; [reflexivity|].
  rewrite re_sub_no_match; [f_equal; exact IH | apply prev_free_around |].
  apply pat_around_spaces. constructor; assumption.
Qed.

Lemma re_sub_around_miss (x c : ascii) (repl w s : str) :
  spaces w -> isspace c = false -> is_char x c = false ->
  re_sub (pat_around x) repl (w ++ c :: s) = w ++ c :: re_sub (pat_around x) repl s.
Proof.
  intros Hw Hc Hx. induction Hw as [|d w Hd Hw IH]; simpl.
  - apply re_sub_no_match; [apply prev_free_around|].
    apply (pat_around_miss x c [] s); [constructor | assumption ..].
  - rewrite re_sub_no_match; [f_equal; exact IH | apply prev_free_around |].
    apply (pat_around_miss x c (d :: w) s); [constructor | ..]; assumption.
Qed.

Lemma re_sub_around_hit (x : ascii) (repl w w' s : str) :
  spaces w -> spaces w' -> isspace x = false -> span_space s = O ->
  re_sub (pat_around x) repl (w ++ x :: w' ++ s)
  = repl ++ re_sub (pat_around x) repl s.
Proof.
  intros Hw Hw' Hx Hs.
  pose proof (pat_around_hit x w w' s Hw Hw' Hx Hs) as H.
  destruct w as [|d w]; simpl in *.
  - rewrite (re_sub_match _ _ _ _ _ (prev_free_around x) H).
    rewrite skipn_length_app. reflexivity.
  - rewrite (re_sub_match _ _ _ _ _ (prev_free_around x) H).
    replace (length w + 1 + length w')%nat with (length (w ++ x :: w')).
    + rewrite <- skipn_length_app with (w := w ++ x :: w') (s := s) at 2.
      rewrite <- app_assoc. reflexivity.
    + rewrite length_app. simpl. lia.
Qed.

(** *** The whitespace steps on runs *)

Lemma first_char_map_next (g : ascii -> str -> option ascii -> str) (items : list item) :
  first_char (map_next g items) = first_char items.
Proof. destruct items as [|[c w] r]; reflexivity. Qed.

Lemma map_next_fusion (g1 g2 : ascii -> str -> option ascii -> str) (items : list item) :
  map_next g2 (map_next g1 items) = map_next (fun c w n => g2 c (g1 c w n) n) items.
Proof.
  induction items as [|[c w] r IH]; simpl; [reflexivity|].
  rewrite first_char_map_next, IH. reflexivity.
Qed.

Lemma map_next_ext (g1 g2 : ascii -> str -> option ascii -> str) (items : list item) :
  (forall c w n, g1 c w n = g2 c w n) -> map_next g1 items = map_next g2 items.
Proof.
  intro H. induction items as [|[c w] r IH]; simpl; [reflexivity|].
  rewrite H, IH. reflexivity.
Qed.

Lemma map_next_valid (g : ascii -> str -> option ascii -> str) (items : list item) :
  (forall c w n, spaces w -> spaces (g c w n)) ->
  Forall valid_item items -> Forall valid_item (map_next g items).
Proof.
  intros Hg. induction 1 as [|[c w] r [Hc Hw] _ IH]; simpl; constructor.
  - split; [exact Hc | apply Hg; exact Hw].
  - exact IH.
Qed.

Lemma spaces_lit_space : spaces (lit " ").
Proof. repeat constructor. Qed.

Lemma spaces_run_around (x : ascii) (pre post : str) (c : ascii) (w : str)
  (n : option ascii) :
  spaces pre -> spaces post -> spaces w -> spaces (run_around x pre post c w n).
Proof.
  intros Hpre Hpost Hw. unfold run_around.
  destruct (is_char x c), (next_is x n); try assumption;
    apply Forall_app; split; try assumption; constructor.
Qed.

Lemma spaces_lead_around (x : ascii) (pre lead : str) (items : list item) :
  spaces pre -> spaces lead -> spaces (lead_around x pre lead items).
Proof. intros. unfold lead_around. destruct (next_is _ _); assumption. Qed.

Lemma spaces_one_space (w : str) : spaces (one_space w).
Proof. destruct w; [constructor | apply spaces_lit_space]. Qed.

(** [\s*X\s*] replaced by [pre X post], on runs. *)
Lemma re_sub_around_runs (x : ascii) (pre post : str) (items : list item) :
  isspace x = false -> Forall valid_item items ->
  forall lead,
    spaces lead ->
    re_sub (pat_around x) (pre ++ x :: post) (lead ++ flat items)
    = lead_around x pre lead items ++ flat (map_next (run_around x pre post) items).
Proof.
  intros Hx. induction 1 as [|[c w] r [Hc Hw] Hr IH]; intros lead Hlead.
  - simpl. rewrite app_nil_r. rewrite re_sub_around_spaces by exact Hlead.
    unfold lead_around. simpl. rewrite app_nil_r. reflexivity.
  - simpl in Hc, Hw. unfold lead_around, run_around. simpl.
    destruct (is_char x c) eqn:E.
    + apply is_char_true in E. subst c.
      rewrite re_sub_around_hit;
        [| assumption | assumption | assumption | apply span_space_flat; exact Hr].
      pose proof (IH [] ltac:(constructor)) as IH0. simpl in IH0. rewrite IH0.
      unfold lead_around.
      simpl. rewrite <- !app_assoc. reflexivity.
    + rewrite re_sub_around_miss by assumption.
      rewrite (IH w Hw). unfold lead_around. reflexivity.
Qed.

Lemma pat_spaces_hit (d : ascii) (w s : str) :
  spaces (d :: w) -> span_space s = O ->
  pat_spaces None ((d :: w) ++ s) = Some (S (length w)).
Proof.
  intros Hw Hs. unfold pat_spaces. rewrite span_space_app by exact Hw.
  rewrite Hs. simpl. rewrite Nat.add_0_r. reflexivity.
Qed.

Lemma re_sub_spaces_lead (w s : str) :
  spaces w -> span_space s = O ->
  re_sub pat_spaces (lit " ") (w ++ s) = one_space w ++ re_sub pat_spaces (lit " ") s.
Proof.
  intros Hw Hs. destruct w as [|d w]; [reflexivity|].
  pose proof (pat_spaces_hit d w s Hw Hs) as H. simpl in H.
  simpl. rewrite (re_sub_match _ _ _ _ _ prev_free_spaces H).
  rewrite skipn_length_app. reflexivity.
Qed.

Lemma re_sub_spaces_items (items : list item) :
  Forall valid_item items ->
  re_sub pat_spaces (lit " ") (flat items) = flat (map_next run_collapse items).
Proof.
  induction 1 as [|[c w] r [Hc Hw] Hr IH]; [reflexivity|].
  simpl in Hc, Hw. simpl.
  rewrite re_sub_no_match; [| apply prev_free_spaces |].
  - rewrite re_sub_spaces_lead; [| exact Hw | apply span_space_flat; exact Hr].
    rewrite IH. reflexivity.
  - unfold pat_spaces. simpl. rewrite Hc. reflexivity.
Qed.

(** [\s+] replaced by one space, on runs. *)
Lemma re_sub_spaces_runs (items : list item) (lead : str) :
  Forall valid_item items -> spaces lead ->
  re_sub pat_spaces (lit " ") (lead ++ flat items)
  = one_space lead ++ flat (map_next run_collapse items).
Proof.
  intros Hi Hl. rewrite re_sub_spaces_lead; [| exact Hl | apply span_space_flat; exact Hi].
  rewrite re_sub_spaces_items by exact Hi. reflexivity.
Qed.

Lemma lstrip_spaces_app (w s : str) : spaces w -> lstrip (w ++ s) = lstrip s.
Proof. induction 1 as [|c w Hc _ IH]; simpl; [reflexivity|]. rewrite Hc. exact IH. Qed.

Lemma lstrip_flat (items : list item) :
  Forall valid_item items -> lstrip (flat items) = flat items.
Proof.
  intros H. destruct H as [|[c w] r [Hc _] _]; simpl; [reflexivity|].
  simpl in Hc. rewrite Hc. reflexivity.
Qed.

Lemma lstrip_app_solid (s t : str) :
  Exists (fun c => isspace c = false) s -> lstrip (s ++ t) = lstrip s ++ t.
Proof.
  induction s as [|c s IH]; intro H; [inversion H|].
  simpl. destruct (isspace c) eqn:E; [|reflexivity].
  apply IH. inversion H as [? ? Hc | ? ? Hs]; subst; [congruence | exact Hs].
Qed.

Lemma rstrip_app_solid (p s : str) :
  Exists (fun c => isspace c = false) s -> rstrip (p ++ s) = p ++ rstrip s.
Proof.
  intro H. unfold rstrip. rewrite rev_app_distr.
  rewrite lstrip_app_solid by (apply Exists_rev; exact H).
  rewrite rev_app_distr, rev_involutive. reflexivity.
Qed.

Lemma rstrip_spaces (w : str) : spaces w -> rstrip w = [].
Proof.
  intro H. unfold rstrip. rewrite <- (app_nil_r (rev w)).
  rewrite lstrip_spaces_app by (apply Forall_rev; exact H). reflexivity.
Qed.

Lemma rstrip_flat (items : list item) :
  Forall valid_item items -> rstrip (flat items) = flat (map_next run_strip items).
Proof.
  induction 1 as [|[c w] r [Hc Hw] Hr IH]; [reflexivity|].
  simpl in Hc, Hw. destruct r as [|[c' w'] r'].
  - simpl. rewrite app_nil_r.
    change (c :: w) with ([c] ++ w).
    unfold rstrip. rewrite rev_app_distr.
    rewrite lstrip_spaces_app by (apply Forall_rev; exact Hw).
    simpl. rewrite Hc. reflexivity.
  - change (flat ((c, w) :: (c', w') :: r')) with ((c :: w) ++ flat ((c', w') :: r')).
    rewrite rstrip_app_solid.
    + change (flat (map_next run_strip ((c, w) :: (c', w') :: r')))
        with ((c :: w) ++ flat (map_next run_strip ((c', w') :: r'))).
      f_equal. exact IH.
    + simpl. left. inversion Hr as [|? ? [Hc' _] _]; subst. exact Hc'.
Qed.

(** [strip], on runs. *)
Lemma strip_runs (items : list item) (lead : str) :
  Forall valid_item items -> spaces lead ->
  strip (lead ++ flat items) = flat (map_next run_strip items).
Proof.
  intros Hi Hl. unfold strip.
  rewrite lstrip_spaces_app by exact Hl.
  rewrite lstrip_flat by exact Hi. apply rstrip_flat. exact Hi.
Qed.

(** The four whitespace steps of the Normalizer, on runs. *)
Lemma whitespace_steps_runs (items : list item) (lead : str) :
  Forall valid_item items -> spaces lead ->
  strip (re_sub pat_spaces (lit " ")
           (re_sub pat_close (lit ") ")
              (re_sub pat_open (lit " (") (lead ++ flat items))))
  = flat (map_next run_normal items).
Proof.
  intros Hi Hl. unfold pat_open, pat_close.
  change (lit " (") with (lit " " ++ "("%char :: []).
  change (lit ") ") with ([] ++ ")"%char :: lit " ").
  rewrite re_sub_around_runs; [| reflexivity | exact Hi | exact Hl].
  rewrite re_sub_around_runs; [| reflexivity | |].
  - rewrite re_sub_spaces_runs.
    + rewrite strip_runs.
      * rewrite !map_next_fusion. reflexivity.
      * repeat apply map_next_valid; try exact Hi; intros.
        -- apply spaces_one_space.
        -- apply spaces_run_around; [constructor | apply spaces_lit_space | assumption].
        -- apply spaces_run_around; [apply spaces_lit_space | constructor | assumption].
      * apply spaces_one_space.
    + repeat apply map_next_valid; try exact Hi; intros.
      * apply spaces_run_around; [constructor | apply spaces_lit_space | assumption].
      * apply spaces_run_around; [apply spaces_lit_space | constructor | assumption].
    + apply spaces_lead_around; [constructor|].
      apply spaces_lead_around; [apply spaces_lit_space | exact Hl].
  - apply map_next_valid; [|exact Hi]. intros.
    apply spaces_run_around; [apply spaces_lit_space | constructor | assumption].
  - apply spaces_lead_around; [apply spaces_lit_space | exact Hl].
Qed.

(** *** The period step *)

Lemma re_sub_period_fixed (s : str) :
  forall prev,
    no_removable (is_digit_opt prev) s = true ->
    re_sub_from pat_period [] prev O s = s.
Proof.
  induction s as [|c r IH]; intros prev H; [reflexivity|].
  simpl in *. apply andb_true_iff in H. destruct H as [H1 H2].
  apply negb_true_iff in H1. rewrite H1. f_equal. apply IH. exact H2.
Qed.

Lemma re_sub_period_clean (s : str) :
  forall prev pd,
    (is_digit_opt prev = true -> pd = true) ->
    no_removable pd (re_sub_from pat_period [] prev O s) = true.
Proof.
  induction s as [|c r IH]; intros prev pd Hpd; [reflexivity|].
  simpl.
  destruct (is_char "." c && negb (is_digit_opt prev) && negb (is_digit_opt (hd_error r)))
    eqn:X.
  - simpl. apply IH. simpl. intro Hc.
    apply andb_true_iff in X. destruct X as [X _].
    apply andb_true_iff in X. destruct X as [X _].
    rewrite (digit_not_period c Hc) in X. discriminate.
  - simpl. apply andb_true_iff. split; [|apply IH; auto].
    apply negb_true_iff.
    destruct (is_char "." c) eqn:Ec; [|reflexivity].
    destruct pd; [reflexivity|]. simpl in *.
    destruct (is_digit_opt prev) eqn:Ep; [specialize (Hpd eq_refl); discriminate|].
    simpl in X. apply negb_false_iff in X.
    destruct r as [|d r']; [discriminate|]. simpl in X.
    simpl. rewrite (digit_not_period d X). simpl. rewrite X. reflexivity.
Qed.

Lemma no_removable_spaces_app (w s : str) (pd : bool) :
  spaces w -> no_removable pd (w ++ s) = no_removable (is_nil w && pd) s.
Proof.
  intro Hw. revert pd. induction Hw as [|d w Hd _ IH]; intro pd; [reflexivity|].
  simpl. rewrite (space_not_period d Hd), (space_not_digit d Hd). simpl.
  rewrite IH, andb_false_r. reflexivity.
Qed.

Lemma hd_spaces_flat (w : str) (items : list item) :
  spaces w ->
  is_digit_opt (hd_error (w ++ flat items)) = is_nil w && is_digit_opt (first_char items).
Proof.
  intros Hw. destruct Hw as [|d w Hd _]; simpl.
  - destruct items as [|[c w'] r]; reflexivity.
  - apply space_not_digit. exact Hd.
Qed.

Lemma no_removable_flat (items : list item) :
  Forall valid_item items ->
  forall pd, no_removable pd (flat items) = no_removable_items pd items.
Proof.
  induction 1 as [|[c w] r [Hc Hw] _ IH]; intro pd; [reflexivity|].
  simpl in Hw.
  change (flat ((c, w) :: r)) with (c :: w ++ flat r). simpl.
  rewrite hd_spaces_flat by exact Hw.
  rewrite no_removable_spaces_app by exact Hw. rewrite IH. reflexivity.
Qed.

Lemma no_removable_items_map_next (g : ascii -> str -> option ascii -> str) :
  keeps_adjacent g ->
  forall items pd pd',
    (pd = true -> next_is "." (first_char items) = true -> pd' = true) ->
    no_removable_items pd items = true ->
    no_removable_items pd' (map_next g items) = true.
Proof.
  intro Hg. induction items as [|[c w] r IH]; intros pd pd' Hpd H; [reflexivity|].
  simpl in *. rewrite first_char_map_next.
  apply andb_true_iff in H. destruct H as [H1 H2]. apply negb_true_iff in H1.
  apply andb_true_iff. split.
  - apply negb_true_iff.
    destruct (is_char "." c) eqn:Ec; [|reflexivity]. simpl in *.
    destruct pd'; [reflexivity|]. simpl.
    destruct pd; [specialize (Hpd eq_refl eq_refl); discriminate|]. simpl in H1.
    apply negb_false_iff in H1. apply andb_true_iff in H1. destruct H1 as [Hw Hn].
    destruct w; [|discriminate]. destruct (first_char r) as [d|]; [|discriminate].
    simpl in Hn. rewrite Hg.
    + simpl. rewrite Hn. reflexivity.
    + unfold period_or_digit. rewrite Ec. reflexivity.
    + unfold period_or_digit. rewrite Hn. apply orb_true_r.
  - apply (IH (is_nil w && isdecimal c)); [|exact H2].
    intros Hwc Hn. apply andb_true_iff in Hwc. destruct Hwc as [Hw Hc].
    destruct w; [|discriminate]. destruct (first_char r) as [d|]; [|discriminate].
    simpl in Hn. rewrite Hg.
    + simpl. exact Hc.
    + unfold period_or_digit. rewrite Hc. apply orb_true_r.
    + unfold period_or_digit. rewrite Hn. reflexivity.
Qed.

Lemma period_or_digit_not_paren (c : ascii) :
  period_or_digit c = true -> is_char "(" c = false /\ is_char ")" c = false.
Proof. by_cases_on c. Qed.

Lemma keeps_adjacent_run_normal : keeps_adjacent run_normal.
Proof.
  intros c d Hc Hd.
  destruct (period_or_digit_not_paren c Hc) as [Hc1 Hc2].
  destruct (period_or_digit_not_paren d Hd) as [Hd1 Hd2].
  unfold run_normal, run_strip, run_collapse, run_around. simpl.
  rewrite Hc1, Hc2, Hd1, Hd2. reflexivity.
Qed.

(** *** The steps in a row *)

Lemma run_normal_idempotent (c : ascii) (w : str) (n : option ascii) :
  run_normal c (run_normal c w n) n = run_normal c w n.
Proof.
  unfold run_normal, run_strip, run_collapse, run_around.
  destruct n as [d|]; [|reflexivity]. simpl.
  destruct (is_char ")" c), (is_char "(" c), (is_char ")" d), (is_char "(" d);
    try reflexivity; destruct w; reflexivity.
Qed.

Lemma run_strip_normal (c : ascii) (w : str) (n : option ascii) :
  run_strip c (run_normal c w n) n = run_normal c w n.
Proof. unfold run_normal, run_strip. destruct n; reflexivity. Qed.

Lemma spaces_run_normal (c : ascii) (w : str) (n : option ascii) :
  spaces (run_normal c w n).
Proof.
  unfold run_normal, run_strip, run_collapse.
  destruct n; [apply spaces_one_space | constructor].
Qed.

Lemma decompose_runs (s : str) :
  exists lead items, spaces lead /\ Forall valid_item items /\ s = lead ++ flat items.
Proof.
  induction s as [|c s (lead & items & Hl & Hi & E)].
  - exists [], []. repeat split; constructor.
  - destruct (isspace c) eqn:Ec.
    + exists (c :: lead), items. repeat split; [constructor | | subst]; auto.
    + exists [], ((c, lead) :: items). repeat split; [constructor | | subst; reflexivity].
      constructor; [split; assumption | exact Hi].
Qed.

Lemma lstrip_Forall (P : ascii -> Prop) (s : str) : Forall P s -> Forall P (lstrip s).
Proof.
  induction 1 as [|c s Hc Hs IH]; simpl; [constructor|].
  destruct (isspace c); [exact IH | constructor; assumption].
Qed.

Lemma strip_Forall (P : ascii -> Prop) (s : str) : Forall P s -> Forall P (strip s).
Proof.
  intro H. unfold strip, rstrip. apply Forall_rev. apply lstrip_Forall.
  apply Forall_rev. apply lstrip_Forall. exact H.
Qed.

Lemma lower_lowered (s : str) : Forall lowered (lower s).
Proof.
  induction s as [|c s IH]; simpl; constructor; [|exact IH].
  apply lower_char_idempotent.
Qed.

Lemma lower_fixed (s : str) : Forall lowered s -> lower s = s.
Proof.
  induction 1 as [|c s Hc _ IH]; simpl; [reflexivity|].
  f_equal; [exact Hc | exact IH].
Qed.

Lemma normalize_str_lowered (s : str) : Forall lowered (normalize_str s).
Proof.
  unfold normalize_str, re_sub. apply strip_Forall.
  repeat (apply re_sub_from_Forall; [repeat constructor|]).
  apply strip_Forall. apply lower_lowered.
Qed.

(** The result of the Normalizer, on the runs of the text after the period
    step. *)
Lemma normalize_str_runs (s : str) :
  exists items,
    Forall valid_item items
    /\ no_removable_items false items = true
    /\ normalize_str s = flat (map_next run_normal items).
Proof.
  destruct (decompose_runs (re_sub pat_period [] (strip (lower s))))
    as (lead & items & Hl & Hi & E).
  exists items. split; [exact Hi|]. split.
  - pose proof (re_sub_period_clean (strip (lower s)) None false ltac:(discriminate)) as H.
    fold (re_sub pat_period [] (strip (lower s))) in H. rewrite E in H.
    rewrite no_removable_spaces_app in H by exact Hl.
    rewrite andb_false_r in H. rewrite no_removable_flat in H by exact Hi. exact H.
  - unfold normalize_str. rewrite E. apply whitespace_steps_runs; assumption.
Qed.

(** A text in the form that the Normalizer gives is left as it is. *)
Lemma normalize_str_fixed (items : list item) :
  Forall valid_item items ->
  no_removable_items false items = true ->
  Forall lowered (flat (map_next run_normal items)) ->
  normalize_str (flat (map_next run_normal items)) = flat (map_next run_normal items).
Proof.
  intros Hi Hd Hl.
  assert (Hv : Forall valid_item (map_next run_normal items)).
  { apply map_next_valid; [|exact Hi]. intros. apply spaces_run_normal. }
  unfold normalize_str. rewrite (lower_fixed _ Hl).
  assert (Hs : strip (flat (map_next run_normal items)) = flat (map_next run_normal items)).
  { pose proof (strip_runs _ [] Hv ltac:(constructor)) as X.
    rewrite app_nil_l in X. rewrite X.
    rewrite map_next_fusion. f_equal. apply map_next_ext. apply run_strip_normal. }
  rewrite Hs.
  assert (Hp : re_sub pat_period [] (flat (map_next run_normal items))
               = flat (map_next run_normal items)).
  { apply (re_sub_period_fixed _ None). simpl.
    rewrite no_removable_flat by exact Hv.
    apply (no_removable_items_map_next _ keeps_adjacent_run_normal items false false);
      [discriminate | exact Hd]. }
  rewrite Hp.
  pose proof (whitespace_steps_runs _ [] Hv ltac:(constructor)) as X.
  rewrite app_nil_l in X. rewrite X.
  rewrite map_next_fusion. f_equal. apply map_next_ext. apply run_normal_idempotent.
Qed.

(** C6: the Normalizer is idempotent on strings. *)
Theorem normalize_idempotent (L : str) :
  normalize_text (VStr (normalize_text (VStr L))) = normalize_text (VStr L).
Proof.
  simpl. pose proof (normalize_str_lowered L) as Hl.
  destruct (normalize_str_runs L) as (items & Hi & Hd & E).
  rewrite E in *. apply normalize_str_fixed; assumption.
Qed.

(** ** The loops of the block alignment end by their own tests

    The loops of [difflib] are [while] loops; the functions above turn a
    counted number of times.  With the counts they are given they stop
    because the test of the loop fails: a higher count gives the same
    result. *)

Lemma extend_left_fuel (a b : str) (alo blo : Z) (f1 : nat) :
  forall f2 bi bj bs,
    bi - alo <= Z.of_nat f1 -> bi - alo <= Z.of_nat f2 ->
    extend_left a b alo blo f1 (bi, bj, bs) = extend_left a b alo blo f2 (bi, bj, bs).
Proof.
  induction f1 as [|f1 IH]; intros f2 bi bj bs H1 H2.
  - destruct f2 as [|f2]; [reflexivity|]. simpl.
    replace (alo <? bi) with false by (symmetry; apply Z.ltb_ge; lia). reflexivity.
  - destruct f2 as [|f2]; simpl.
    + replace (alo <? bi) with false by (symmetry; apply Z.ltb_ge; lia). reflexivity.
    + destruct ((alo <? bi) && (blo <? bj) && _); [|reflexivity].
      apply IH; lia.
Qed.

Lemma extend_right_fuel (a b : str) (ahi bhi : Z) (f1 : nat) :
  forall f2 bi bj bs,
    ahi - (bi + bs) <= Z.of_nat f1 -> ahi - (bi + bs) <= Z.of_nat f2 ->
    extend_right a b ahi bhi f1 (bi, bj, bs) = extend_right a b ahi bhi f2 (bi, bj, bs).
Proof.
  induction f1 as [|f1 IH]; intros f2 bi bj bs H1 H2.
  - destruct f2 as [|f2]; [reflexivity|]. simpl.
    replace (bi + bs <? ahi) with false by (symmetry; apply Z.ltb_ge; lia). reflexivity.
  - destruct f2 as [|f2]; simpl.
    + replace (bi + bs <? ahi) with false by (symmetry; apply Z.ltb_ge; lia). reflexivity.
    + destruct ((bi + bs <? ahi) && (bj + bs <? bhi) && _); [|reflexivity].
      apply IH; lia.
Qed.

(** In a window of the first sequence, [len(a)] turns are enough for the two
    extension loops. *)
Lemma find_longest_match_fuel (a b : str) (b2j : b2j_t) (alo ahi blo bhi : Z)
  (f1 f2 : nat) :
  0 <= alo -> alo <= ahi -> ahi <= Z.of_nat (length a) -> blo <= bhi ->
  (length a <= f1)%nat -> (length a <= f2)%nat ->
  extend_right a b ahi bhi f2
    (extend_left a b alo blo f1
       (scan_is a b2j blo bhi (zrange alo (Z.to_nat (ahi - alo))) [] (alo, blo, 0)))
  = find_longest_match a b b2j alo ahi blo bhi.
Proof.
  intros H0 H1 H2 H3 Hf1 Hf2. unfold find_longest_match.
  assert (Hs : within alo ahi blo bhi
                 (scan_is a b2j blo bhi (zrange alo (Z.to_nat (ahi - alo))) []
                    (alo, blo, 0))).
  { apply scan_is_ok; try lia.
    - replace (alo - alo) with 0 by lia. constructor.
    - simpl. lia. }
  destruct (scan_is a b2j blo bhi (zrange alo (Z.to_nat (ahi - alo))) [] (alo, blo, 0))
    as [[bi bj] bs] eqn:E.
  rewrite (extend_left_fuel a b alo blo f1 (length a)) by (simpl in Hs; lia).
  pose proof (extend_left_ok a b alo ahi blo bhi (length a) _ Hs) as Hl.
  destruct (extend_left a b alo blo (length a) (bi, bj, bs)) as [[ci cj] cs].
  apply extend_right_fuel; simpl in Hl; lia.
Qed.

Lemma work_nonneg (la lb : Z) (q : list range4) :
  Forall (range_ok la lb) q -> 0 <= work q.
Proof.
  induction 1 as [|[[[alo ahi] blo] bhi] q Hx _ IH]; [unfold work, total_width; simpl; lia|].
  change (work ((alo, ahi, blo, bhi) :: q)) with (2 * (ahi - alo) + 1 + work q).
  unfold range_ok in Hx. lia.
Qed.

(** The work loop empties its stack within [work] turns. *)
Lemma blocks_loop_fuel (a b : str) (b2j : b2j_t) (la lb : Z) (f1 : nat) :
  forall f2 queue acc,
    Forall (range_ok la lb) queue ->
    work queue <= Z.of_nat f1 -> work queue <= Z.of_nat f2 ->
    blocks_loop a b b2j f1 queue acc = blocks_loop a b b2j f2 queue acc.
Proof.
  induction f1 as [|f1 IH]; intros f2 queue acc Hq H1 H2.
  - destruct queue as [|[[[alo ahi] blo] bhi] queue].
    + destruct f2; reflexivity.
    + inversion Hq as [|? ? Hr Hq']; subst. unfold range_ok in Hr.
      pose proof (work_nonneg _ _ _ Hq') as Hn.
      change (2 * (ahi - alo) + 1 + work queue <= 0) in H1. lia.
  - destruct queue as [|[[[alo ahi] blo] bhi] queue].
    + destruct f2; reflexivity.
    + inversion Hq as [|? ? Hr Hq']; subst. unfold range_ok in Hr.
      pose proof (work_nonneg _ _ _ Hq') as Hn.
      change (2 * (ahi - alo) + 1 + work queue <= Z.of_nat (S f1)) in H1.
      change (2 * (ahi - alo) + 1 + work queue <= Z.of_nat f2) in H2.
      destruct f2 as [|f2]; [lia|]. simpl.
      pose proof (find_longest_match_within a b b2j alo ahi blo bhi
                    ltac:(lia) ltac:(lia)) as Hin.
      destruct (find_longest_match a b b2j alo ahi blo bhi) as [[i j] k].
      unfold within in Hin.
      destruct (k =? 0) eqn:Ek; [apply IH; try assumption; lia|].
      apply Z.eqb_neq in Ek.
      set (q1 := if (alo <? i) && (blo <? j)
                 then (alo, i, blo, j) :: queue else queue).
      assert (Hq1 : Forall (range_ok la lb) q1 /\ work q1 <= 2 * (i - alo) + 1 + work queue).
      { unfold q1. destruct ((alo <? i) && (blo <? j)).
        - split; [constructor; [unfold range_ok; lia | assumption]|].
          change (work ((alo, i, blo, j) :: queue)) with (2 * (i - alo) + 1 + work queue).
          lia.
        - split; [assumption | lia]. }
      clearbody q1. destruct Hq1 as [Hq1 Hw1].
      set (q2 := if (i + k <? ahi) && (j + k <? bhi)
                 then (i + k, ahi, j + k, bhi) :: q1 else q1).
      assert (Hq2 : Forall (range_ok la lb) q2
                    /\ work q2 <= 2 * (ahi - (i + k)) + 1 + work q1).
      { unfold q2. destruct ((i + k <? ahi) && (j + k <? bhi)).
        - split; [constructor; [unfold range_ok; lia | assumption]|].
          change (work ((i + k, ahi, j + k, bhi) :: q1))
            with (2 * (ahi - (i + k)) + 1 + work q1).
          lia.
        - pose proof (work_nonneg _ _ _ Hq1). split; [assumption | lia]. }
      clearbody q2. destruct Hq2 as [Hq2 Hw2].
      apply IH; try assumption; lia.
Qed.

(** [get_matching_blocks] is given enough turns: any higher count finds the
    same blocks. *)
Lemma get_matching_blocks_fuel (a b : str) (fuel : nat) :
  (2 * length a + 1 <= fuel)%nat ->
  blocks_loop a b (chain_b b) fuel
    [(0, Z.of_nat (length a), 0, Z.of_nat (length b))] []
  = blocks_loop a b (chain_b b) (2 * length a + 1)
      [(0, Z.of_nat (length a), 0, Z.of_nat (length b))] [].
Proof.
  intro H.
  apply (blocks_loop_fuel a b (chain_b b) (Z.of_nat (length a)) (Z.of_nat (length b))).
  - constructor; [unfold range_ok; lia | constructor].
  - change (2 * (Z.of_nat (length a) - 0) + 1 + 0 <= Z.of_nat fuel). lia.
  - change (2 * (Z.of_nat (length a) - 0) + 1 + 0 <= Z.of_nat (2 * length a + 1)). lia.
Qed.

(** ** The result of the matcher, group by group *)

Lemma groups_append_fresh (key : str) (item : str * Z) (g : groups) :
  ~ In key (keys g) -> groups_append key item g = g ++ [(key, [item])].
Proof.
  induction g as [|[k items] g IH]; intro H; simpl; [reflexivity|].
  destruct (str_eqb k key) eqn:E.
  - apply str_eqb_eq in E. subst k. exfalso. apply H. left. reflexivity.
  - rewrite IH; [reflexivity|]. intro Hin. apply H. right. exact Hin.
Qed.

Lemma groups_append_last (key : str) (item : str * Z) (items : list (str * Z))
  (g : groups) :
  ~ In key (keys g) ->
  groups_append key item (g ++ [(key, items)]) = g ++ [(key, items ++ [item])].
Proof.
  induction g as [|[k its] g IH]; intro H; simpl.
  - rewrite str_eqb_refl. reflexivity.
  - destruct (str_eqb k key) eqn:E.
    + apply str_eqb_eq in E. subst k. exfalso. apply H. left. reflexivity.
    + rewrite IH; [reflexivity|]. intro Hin. apply H. right. exact Hin.
Qed.

Lemma groups_append_group (a : str) (item : str * Z) (items : list (str * Z))
  (g : groups) :
  ~ In a (keys g) ->
  groups_append a item (g ++ group_of a items) = g ++ group_of a (items ++ [item]).
Proof.
  intro H. destruct items as [|x items]; simpl.
  - rewrite app_nil_r. apply groups_append_fresh. exact H.
  - apply groups_append_last. exact H.
Qed.

Section GroupsOfLabels.

Variable ratio : str -> str -> Z.

Lemma compare_with_groups (t : Q) (a : str) (rest : list str) :
  forall g items,
    ~ In a (keys g) ->
    compare_with ratio a (normalize_text (VStr a)) t rest (g ++ group_of a items)
    = g ++ group_of a (items ++ matches_of ratio t a rest).
Proof.
  induction rest as [|b rest IH]; intros g items H.
  - simpl. rewrite app_nil_r. reflexivity.
  - rewrite compare_with_cons. unfold record_pair, matches_of. simpl.
    fold (matches_of ratio t a rest).
    destruct (pair_score ratio t a b) as [s|].
    + rewrite groups_append_group by exact H. rewrite IH by exact H.
      rewrite <- app_assoc. reflexivity.
    + apply IH. exact H.
Qed.

Lemma keys_group_of (a : str) (items : list (str * Z)) (x : str) :
  In x (keys (group_of a items)) -> x = a.
Proof. destruct items; simpl; [intros [] | intros [H | []]; congruence]. Qed.

Lemma compare_all_groups (t : Q) (attributes : list str) :
  NoDup attributes ->
  forall g,
    (forall a, In a attributes -> ~ In a (keys g)) ->
    compare_all ratio t attributes g = g ++ expected_groups ratio t attributes.
Proof.
  induction 1 as [|a rest Ha Hrest IH]; intros g Hg; simpl.
  - rewrite app_nil_r. reflexivity.
  - pose proof (compare_with_groups t a rest g [] (Hg a (or_introl eq_refl))) as E.
    simpl in E. rewrite app_nil_r in E. rewrite E.
    rewrite IH; [rewrite <- app_assoc; reflexivity|].
    intros a' Hin Hk. unfold keys in Hk. rewrite map_app in Hk.
    apply in_app_or in Hk. destruct Hk as [Hk | Hk].
    + apply (Hg a' (or_intror Hin)). exact Hk.
    + apply keys_group_of in Hk. subst a'. contradiction.
Qed.

Lemma in_matches_of (t : Q) (a : str) (rest : list str) (b : str) (s : Z) :
  In (b, s) (matches_of ratio t a rest)
  <-> In b rest /\ pair_score ratio t a b = Some s.
Proof.
  unfold matches_of. rewrite in_flat_map. split.
  - intros (b' & Hin & H). destruct (pair_score ratio t a b') as [s'|] eqn:E.
    + destruct H as [H | []]. injection H as <- <-. tauto.
    + destruct H.
  - intros [Hin H]. exists b. rewrite H. split; [exact Hin | left; reflexivity].
Qed.

Lemma matches_of_NoDup (t : Q) (a : str) (rest : list str) :
  NoDup rest -> NoDup (map fst (matches_of ratio t a rest)).
Proof.
  induction 1 as [|b rest Hb _ IH]; [constructor|].
  unfold matches_of. simpl. fold (matches_of ratio t a rest).
  rewrite map_app. destruct (pair_score ratio t a b) as [s|]; simpl; [|exact IH].
  constructor; [|exact IH]. intro Hin. apply in_map_iff in Hin.
  destruct Hin as ([b' s'] & E & Hin). simpl in E. subst b'.
  apply in_matches_of in Hin. tauto.
Qed.

Lemma all_pairs_app (g1 g2 : groups) : all_pairs (g1 ++ g2) = all_pairs g1 ++ all_pairs g2.
Proof. unfold all_pairs. apply flat_map_app. Qed.

Lemma all_pairs_group_of (a : str) (items : list (str * Z)) :
  all_pairs (group_of a items) = map (fun m => (a, fst m, snd m)) items.
Proof. destruct items; simpl; [reflexivity|]. rewrite app_nil_r. reflexivity. Qed.

Lemma in_all_pairs_expected (t : Q) (attributes : list str) (x : str * str * Z) :
  In x (all_pairs (expected_groups ratio t attributes)) ->
  In (fst (fst x)) attributes.
Proof.
  induction attributes as [|a rest IH]; simpl; [intros []|].
  rewrite all_pairs_app, all_pairs_group_of, in_app_iff, in_map_iff.
  intros [([b s] & E & _) | H]; [subst x; left; reflexivity | right; apply IH; exact H].
Qed.

Lemma expected_pairs_NoDup (t : Q) (attributes : list str) :
  NoDup attributes ->
  NoDup (map labels_of (all_pairs (expected_groups ratio t attributes))).
Proof.
  induction 1 as [|a rest Ha Hrest IH]; [constructor|].
  simpl. rewrite all_pairs_app, all_pairs_group_of, map_app, map_map.
  apply NoDup_app.
  - pose proof (matches_of_NoDup t a rest Hrest) as H.
    induction (matches_of ratio t a rest) as [|[b s] m IHm]; [constructor|].
    simpl in *. inversion H as [|? ? Hb Hm]; subst. constructor; [|apply IHm; exact Hm].
    intro Hin. apply Hb. apply in_map_iff in Hin.
    destruct Hin as ([b' s'] & E & Hin). unfold labels_of in E. simpl in E.
    injection E as ->. apply in_map_iff. exists (b, s'). split; [reflexivity | exact Hin].
  - exact IH.
  - intros p H1 H2. apply in_map_iff in H1. destruct H1 as ([b s] & E1 & _).
    apply in_map_iff in H2. destruct H2 as (x & E2 & Hx).
    apply in_all_pairs_expected in Hx. subst p. unfold labels_of in E2. simpl in E2.
    injection E2 as E2 _. rewrite E2 in Hx. contradiction.
Qed.

Lemma expected_groups_nonempty (t : Q) (attributes : list str) :
  Forall (fun e => snd e <> []) (expected_groups ratio t attributes).
Proof.
  induction attributes as [|a rest IH]; simpl; [constructor|].
  apply Forall_app. split; [|exact IH].
  destruct (matches_of ratio t a rest); simpl; constructor; [discriminate | constructor].
Qed.

End GroupsOfLabels.

Lemma in_seen_iff (x : str) (seen : list str) :
  existsb (str_eqb x) seen = true <-> In x seen.
Proof.
  rewrite existsb_exists. split.
  - intros (y & Hin & E). apply str_eqb_eq in E. subst y. exact Hin.
  - intro H. exists x. split; [exact H | apply str_eqb_refl].
Qed.

Lemma unique_from_spec (l : list str) :
  forall seen,
    NoDup (unique_from seen l)
    /\ forall x, In x (unique_from seen l) <-> In x l /\ ~ In x seen.
Proof.
  induction l as [|y l IH]; intro seen; simpl.
  - split; [constructor | tauto].
  - destruct (existsb (str_eqb y) seen) eqn:E.
    + apply in_seen_iff in E. destruct (IH seen) as [H1 H2]. split; [exact H1|].
      intro x. rewrite H2. split; [tauto|]. intros [[-> | H] Hn]; [contradiction | tauto].
    + assert (Hy : ~ In y seen).
      { intro H. apply in_seen_iff in H. congruence. }
      destruct (IH (y :: seen)) as [H1 H2]. split.
      * constructor; [|exact H1]. rewrite H2. simpl. tauto.
      * intro x. simpl. rewrite H2. simpl. split.
        -- intros [-> | [H Hn]]; tauto.
        -- intros [[-> | H] Hn]; [tauto|].
           destruct (list_eq_dec ascii_dec y x) as [-> | Hneq]; [tauto|]. right. tauto.
Qed.

(** The labels that are compared are distinct. *)
Lemma unique_NoDup (l : list str) : NoDup (unique l).
Proof. apply unique_from_spec. Qed.

Lemma similar_groups_of_expected (labels : list str) (t : Q) :
  NoDup labels -> similar_groups_of labels t = expected_groups fuzz_ratio t labels.
Proof.
  intro H. unfold similar_groups_of.
  rewrite (compare_all_groups fuzz_ratio t labels H []); [reflexivity|].
  intros a _ [].
Qed.

(** X1: the result lists the groups in the order of the labels, each under
    the first label of its pairs, with the candidates in the order of the
    labels too. *)
Theorem find_similar_attributes_groups (col : list (option str)) (rest : DataFrame) (t : Q) :
  find_similar_attributes (col :: rest) t
  = Ok (expected_groups fuzz_ratio t (unique (dropna col))).
Proof.
  unfold find_similar_attributes. simpl. f_equal.
  apply similar_groups_of_expected. apply unique_NoDup.
Qed.

(** X2: no group of the result is empty. *)
Theorem find_similar_attributes_no_empty_group (df : DataFrame) (t : Q) (g : groups) :
  find_similar_attributes df t = Ok g -> Forall (fun e => snd e <> []) g.
Proof.
  intro H. apply find_similar_attributes_ok in H. destruct H as (col & rest & -> & ->).
  rewrite similar_groups_of_expected by apply unique_NoDup.
  apply expected_groups_nonempty.
Qed.

Lemma find_similar_attributes_no_empty_group_witness :
  Forall (fun e : str * list (str * Z) => snd e <> [])
    [(lit "Color", [(lit "color", 100)])].
Proof.
  apply (find_similar_attributes_no_empty_group
           (frame_of ["Color"; "color"; "Size"]%string) 80%Q).
  vm_compute. reflexivity.
Defined.

(** X3: a pair is reported at most once. *)
Theorem find_similar_attributes_pairs_once (df : DataFrame) (t : Q) (g : groups) :
  find_similar_attributes df t = Ok g -> NoDup (map labels_of (all_pairs g)).
Proof.
  intro H. apply find_similar_attributes_ok in H. destruct H as (col & rest & -> & ->).
  rewrite similar_groups_of_expected by apply unique_NoDup.
  apply expected_pairs_NoDup. apply unique_NoDup.
Qed.

Lemma find_similar_attributes_pairs_once_witness :
  NoDup (map labels_of (all_pairs [(lit "Color", [(lit "color", 100)])])).
Proof.
  apply (find_similar_attributes_pairs_once
           (frame_of ["Color"; "color"; "Size"]%string) 80%Q).
  vm_compute. reflexivity.
Defined.

(** X4: the two labels of a reported pair differ, the base comes before the
    candidate among the distinct labels of the column, and the score is 100
    or reaches the threshold. *)
Theorem find_similar_attributes_pair_shape (col : list (option str)) (rest : DataFrame)
  (t : Q) (g : groups) (a b : str) (s : Z) :
  find_similar_attributes (col :: rest) t = Ok g ->
  In (a, b, s) (all_pairs g) ->
  a <> b
  /\ compared (unique (dropna col)) a b
  /\ (s = 100 \/ (t <= inject_Z s)%Q).
Proof.
  unfold find_similar_attributes. simpl. intros H Hin. injection H as <-.
  unfold similar_groups_of in Hin. apply in_compare_all in Hin.
  destruct Hin as [[] | (a' & b' & s' & Hc & Hs & E)].
  injection E as <- <- <-. split; [|split; [exact Hc|]].
  - apply (pair_score_value fuzz_ratio t a b s Hs).
  - unfold pair_score in Hs. destruct (str_eqb a b); [discriminate|].
    destruct (are_case_variants a b); [left; congruence|].
    cbv zeta in Hs. destruct (Qle_bool t _) eqn:E; [|discriminate].
    injection Hs as <-. right. apply Qle_bool_iff. exact E.
Qed.

Lemma find_similar_attributes_pair_shape_witness :
  lit "Color" <> lit "color"
  /\ compared (unique (dropna (map (fun s => Some (lit s)) ["Color"; "color"; "Size"]%string)))
       (lit "Color") (lit "color")
  /\ (100 = 100 \/ (80 <= inject_Z 100)%Q).
Proof.
  apply (find_similar_attributes_pair_shape
           (map (fun s => Some (lit s)) ["Color"; "color"; "Size"]%string) [] 80%Q
           [(lit "Color", [(lit "color", 100)])]).
  - vm_compute. reflexivity.
  - left. reflexivity.
Defined.

(** X5: with a threshold of zero or less every pair of distinct labels is
    reported, the earlier label as the base: n labels give n (n - 1) / 2
    pairs. *)
Theorem find_similar_attributes_all_pairs (col : list (option str)) (rest : DataFrame)
  (t : Q) (g : groups) :
  (t <= 0)%Q ->
  find_similar_attributes (col :: rest) t = Ok g ->
  (forall a b, compared (unique (dropna col)) a b ->
               exists s, In (a, b, s) (all_pairs g))
  /\ (2 * length (all_pairs g)
      = length (unique (dropna col)) * (length (unique (dropna col)) - 1))%nat.
Proof.
  intros Ht H. unfold find_similar_attributes in H. simpl in H. injection H as <-.
  pose proof (unique_NoDup (dropna col)) as Hnd.
  assert (Hs : forall a b, a <> b -> exists s, pair_score fuzz_ratio t a b = Some s).
  { intros a b Hab. unfold pair_score. apply str_eqb_neq in Hab. rewrite Hab.
    destruct (are_case_variants a b); [eexists; reflexivity|]. cbv zeta.
    set (s := fuzz_ratio _ _).
    assert (E : Qle_bool t (inject_Z s) = true).
    { apply Qle_bool_iff. eapply Qle_trans; [exact Ht|].
      pose proof (fuzz_ratio_bounds (normalize_text (VStr a)) (normalize_text (VStr b))).
      unfold Qle, inject_Z. simpl. fold s. lia. }
    rewrite E. eexists. reflexivity. }
  split.
  - intros a b Hc.
    assert (Hab : a <> b).
    { destruct Hc as (l1 & l2 & E & Hin). rewrite E in Hnd.
      apply NoDup_remove_2 in Hnd. intros ->. apply Hnd. apply in_or_app. tauto. }
    destruct (Hs a b Hab) as [s E]. exists s. unfold similar_groups_of.
    apply in_compare_all. right. exists a, b, s. tauto.
  - rewrite similar_groups_of_expected by exact Hnd.
    induction Hnd as [|a l Ha Hl IH]; [reflexivity|].
    simpl. rewrite all_pairs_app, all_pairs_group_of, length_app, length_map.
    assert (E : length (matches_of fuzz_ratio t a l) = length l).
    { clear IH Hl. induction l as [|b l IHl]; [reflexivity|].
      unfold matches_of. simpl. fold (matches_of fuzz_ratio t a l).
      rewrite length_app, IHl by (intro; apply Ha; right; assumption).
      destruct (Hs a b) as [s ->]; [|reflexivity].
      intros ->. apply Ha. left. reflexivity. }
    rewrite E. destruct l; simpl in *; nia.
Qed.

Lemma find_similar_attributes_all_pairs_witness :
  (forall a b,
      compared (unique (dropna (map (fun s => Some (lit s)) ["Color"; "color"; "Size"]%string)))
        a b ->
      exists s, In (a, b, s)
                  (all_pairs [(lit "Color", [(lit "color", 100); (lit "Size", 0)]);
                              (lit "color", [(lit "Size", 0)])]))
  /\ (2 * length (all_pairs [(lit "Color", [(lit "color", 100%Z); (lit "Size", 0%Z)]);
                             (lit "color", [(lit "Size", 0%Z)])])
      = length (unique (dropna (map (fun s => Some (lit s)) ["Color"; "color"; "Size"]%string)))
        * (length (unique (dropna (map (fun s => Some (lit s))
                                     ["Color"; "color"; "Size"]%string))) - 1))%nat.
Proof.
  apply (find_similar_attributes_all_pairs
           (map (fun s => Some (lit s)) ["Color"; "color"; "Size"]%string) [] 0%Q).
  - discriminate.
  - vm_compute. reflexivity.
Defined.

(** ** The shape of a normalized text *)

Lemma last_or_cons (p : option ascii) (x : ascii) (l : str) :
  last_or p (x :: l) = last_or (Some x) l.
Proof. unfold last_or. simpl. destruct (rev l); reflexivity. Qed.

Lemma windows_app (P : option ascii -> ascii -> option ascii -> bool)
  (l : str) (c : ascii) (r : str) :
  forall prev,
    windows P prev (l ++ c :: r) = true ->
    P (last_or prev l) c (hd_error r) = true.
Proof.
  induction l as [|x l IH]; intros prev H; simpl in H.
  - apply andb_true_iff in H. apply H.
  - apply andb_true_iff in H. destruct H as [_ H]. apply IH in H.
    rewrite last_or_cons. exact H.
Qed.

Lemma spaces_run_normal_cases (c : ascii) (w : str) (n : option ascii) :
  run_normal c w n = [] \/ (run_normal c w n = lit " " /\ n <> None).
Proof.
  unfold run_normal, run_strip, run_collapse.
  destruct n as [d|]; [|left; reflexivity].
  destruct (run_around _ _ _ _ _ _); [left | right; split]; try reflexivity. discriminate.
Qed.

Lemma run_normal_before_open (c : ascii) (w : str) (d : ascii) :
  is_char "(" d = true -> run_normal c w (Some d) = lit " ".
Proof.
  intro H. apply is_char_true in H. subst d.
  unfold run_normal, run_strip, run_collapse, run_around. simpl.
  destruct (is_char "(" c), (is_char ")" c); reflexivity.
Qed.

Lemma run_normal_after_close (w : str) (d : ascii) :
  run_normal ")" w (Some d) = lit " ".
Proof.
  unfold run_normal, run_strip, run_collapse, run_around. simpl.
  destruct (is_char "(" d); reflexivity.
Qed.

Lemma normal_items_spaced (items : list item) :
  Forall valid_item items ->
  forall prev,
    (next_is "(" (first_char items) = true -> none_or_space prev = true) ->
    windows spaced prev (flat (map_next run_normal items)) = true.
Proof.
  induction 1 as [|[c w] r [Hc Hw] Hr IH]; intros prev Hp; [reflexivity|].
  simpl in Hc, Hw, Hp.
  change (flat (map_next run_normal ((c, w) :: r)))
    with (c :: run_normal c w (first_char r) ++ flat (map_next run_normal r)).
  assert (Hhd : forall its : list item,
             Forall valid_item its ->
             hd_error (flat (map_next run_normal its)) = first_char its).
  { intros [|[c' w'] r'] _; reflexivity. }
  destruct (spaces_run_normal_cases c w (first_char r)) as [E | [E Hn]]; rewrite E.
  - simpl. rewrite Hhd by exact Hr.
    apply andb_true_iff. split.
    + unfold spaced. rewrite Hc. simpl.
      apply andb_true_iff. split.
      * destruct (is_char "(" c) eqn:Eo; [apply Hp; reflexivity | reflexivity].
      * destruct (is_char ")" c) eqn:Ec; [|reflexivity].
        apply is_char_true in Ec. subst c.
        destruct (first_char r) as [d|]; [|reflexivity].
        rewrite run_normal_after_close in E. discriminate.
    + apply IH. intro Ho. destruct (first_char r) as [d|]; [|discriminate].
      simpl in Ho. rewrite (run_normal_before_open c w d Ho) in E. discriminate.
  - destruct (first_char r) as [d|] eqn:Ed; [|congruence].
    assert (Hd : isspace d = false).
    { destruct r as [|[c' w'] r']; [discriminate|]. simpl in Ed. injection Ed as <-.
      inversion Hr as [|? ? [Hc' _] _]; subst. exact Hc'. }
    simpl. rewrite Hhd by exact Hr. rewrite Ed.
    apply andb_true_iff. split; [|apply andb_true_iff; split].
    + unfold spaced. rewrite Hc. simpl.
      destruct (is_char "(" c) eqn:Eo; [rewrite (Hp eq_refl)|]; simpl;
        destruct (is_char ")" c); reflexivity.
    + unfold spaced. simpl. rewrite Hc, Hd. reflexivity.
    + apply IH. intros _. reflexivity.
Qed.

Lemma normalize_str_spaced (s : str) : windows spaced None (normalize_str s) = true.
Proof.
  destruct (normalize_str_runs s) as (items & Hi & _ & E). rewrite E.
  apply normal_items_spaced; [exact Hi | reflexivity].
Qed.

Lemma last_or_snoc (p : option ascii) (l : str) (x : ascii) :
  last_or p (l ++ [x]) = Some x.
Proof. unfold last_or. rewrite rev_app_distr. reflexivity. Qed.

Lemma last_or_cases (p : option ascii) (l : str) :
  (l = [] /\ last_or p l = p) \/ exists l' x, l = l' ++ [x] /\ last_or p l = Some x.
Proof.
  destruct l as [|c l] using rev_ind; [left; split; reflexivity|].
  right. exists l, c. split; [reflexivity | apply last_or_snoc].
Qed.

(** X6: in a normalized text every whitespace is a single space character
    that stands between two characters that are not whitespace: the text is
    trimmed and its runs of whitespace are collapsed. *)
Theorem normalize_text_single_spaces (s l r : str) (c : ascii) :
  normalize_text (VStr s) = l ++ c :: r -> isspace c = true ->
  c = " "%char
  /\ (exists l' x, l = l' ++ [x] /\ isspace x = false)
  /\ (exists y r', r = y :: r' /\ isspace y = false).
Proof.
  simpl. intros E Hc. pose proof (normalize_str_spaced s) as H. rewrite E in H.
  apply windows_app in H. unfold spaced in H. rewrite Hc in H.
  apply andb_true_iff in H. destruct H as [H _].
  apply andb_true_iff in H. destruct H as [H _].
  apply andb_true_iff in H. destruct H as [H Hn].
  apply andb_true_iff in H. destruct H as [H Hp].
  split; [apply is_char_true; exact H|]. split.
  - destruct (last_or_cases None l) as [[_ El] | (l' & x & -> & El)];
      rewrite El in Hp; [discriminate|].
    exists l', x. split; [reflexivity | apply negb_true_iff; exact Hp].
  - destruct r as [|y r']; [discriminate|].
    exists y, r'. split; [reflexivity | apply negb_true_iff; exact Hn].
Qed.

Lemma normalize_text_single_spaces_witness :
  lit " " = lit " "
  /\ (exists l' x, lit "a" = l' ++ [x] /\ isspace x = false)
  /\ (exists y r', lit "(b" = y :: r' /\ isspace y = false).
Proof.
  destruct (normalize_text_single_spaces (lit "  A(  b ") (lit "a") (lit "(b") " "%char)
    as (_ & H1 & H2); [reflexivity | reflexivity |].
  split; [reflexivity | split; assumption].
Defined.

(** X7: in a normalized text an opening parenthesis stands at the start or
    after a space, and a closing parenthesis at the end or before a space. *)
Theorem normalize_text_parentheses (s l r : str) :
  (normalize_text (VStr s) = l ++ "("%char :: r ->
   l = [] \/ exists l', l = l' ++ lit " ")
  /\ (normalize_text (VStr s) = l ++ ")"%char :: r ->
      r = [] \/ exists r', r = " "%char :: r').
Proof.
  simpl. pose proof (normalize_str_spaced s) as H. split; intro E; rewrite E in H;
    apply windows_app in H; unfold spaced in H;
    apply andb_true_iff in H; destruct H as [H H2];
    apply andb_true_iff in H; destruct H as [_ H1].
  - simpl in H1.
    destruct (last_or_cases None l) as [[-> _] | (l' & x & -> & El)]; [left; reflexivity|].
    rewrite El in H1. simpl in H1. apply is_char_true in H1. subst x.
    right. exists l'. reflexivity.
  - simpl in H2. destruct r as [|y r']; [left; reflexivity|].
    simpl in H2. apply is_char_true in H2. subst y. right. exists r'. reflexivity.
Qed.

Lemma normalize_str_no_removable (s : str) : no_removable false (normalize_str s) = true.
Proof.
  destruct (normalize_str_runs s) as (items & Hi & Hd & E). rewrite E.
  rewrite no_removable_flat.
  - apply (no_removable_items_map_next _ keeps_adjacent_run_normal items false false);
      [discriminate | exact Hd].
  - apply map_next_valid; [|exact Hi]. intros. apply spaces_run_normal.
Qed.

Lemma no_removable_app (l r : str) :
  forall pd,
    no_removable pd (l ++ "."%char :: r) = true ->
    is_digit_opt (last_or (if pd then Some "0"%char else None) l) = true
    \/ is_digit_opt (hd_error r) = true.
Proof.
  induction l as [|x l IH]; intros pd H; simpl in H.
  - apply andb_true_iff in H. destruct H as [H _]. apply negb_true_iff in H.
    destruct pd; [left; reflexivity|]. simpl in H. apply negb_false_iff in H. right. exact H.
  - apply andb_true_iff in H. destruct H as [_ H]. apply IH in H.
    destruct H as [H | H]; [left | right; exact H].
    rewrite last_or_cons.
    destruct (last_or_cases (Some x) l) as [[-> El] | (l' & y & -> & El)].
    + unfold last_or in *. simpl in *. destruct (isdecimal x); [reflexivity | discriminate].
    + rewrite last_or_snoc in *. exact H.
Qed.

(** X8: every period of a normalized text has a digit just before it or
    just after it. *)
Theorem normalize_text_periods (s l r : str) :
  normalize_text (VStr s) = l ++ "."%char :: r ->
  (exists l' d, l = l' ++ [d] /\ isdecimal d = true)
  \/ (exists d r', r = d :: r' /\ isdecimal d = true).
Proof.
  simpl. intro E. pose proof (normalize_str_no_removable s) as H. rewrite E in H.
  apply no_removable_app in H. destruct H as [H | H].
  - left. destruct (last_or_cases None l) as [[_ El] | (l' & x & -> & El)];
      rewrite El in H; [discriminate|].
    exists l', x. split; [reflexivity | exact H].
  - right. destruct r as [|d r']; [discriminate|]. exists d, r'. split; [reflexivity | exact H].
Qed.

Lemma normalize_text_periods_witness :
  (exists l' d, lit "v1" = l' ++ [d] /\ isdecimal d = true)
  \/ (exists d r', lit "5 inc" = d :: r' /\ isdecimal d = true).
Proof.
  apply (normalize_text_periods (lit "V1.5 Inc.") (lit "v1") (lit "5 inc")). reflexivity.
Defined.

(** X9: a normalized text is in lower case. *)
Theorem normalize_text_lowercase (s : str) :
  lower (normalize_text (VStr s)) = normalize_text (VStr s).
Proof. apply lower_fixed. apply normalize_str_lowered. Qed.

(** ** The matching blocks hold equal elements *)

Lemma py_index_nth (s : str) (n : nat) (c : ascii) :
  nth_error s n = Some c -> py_index s (Z.of_nat n) = Some c.
Proof.
  intro H. unfold py_index.
  assert (Hn : (n < length s)%nat) by (apply nth_error_Some; congruence).
  replace (Z.of_nat n <? 0) with false by (symmetry; apply Z.ltb_ge; lia).
  replace (0 <=? Z.of_nat n) with true by (symmetry; apply Z.leb_le; lia).
  replace (Z.of_nat n <? Z.of_nat (length s)) with true
    by (symmetry; apply Z.ltb_lt; lia).
  simpl. rewrite Nat2Z.id. exact H.
Qed.

Lemma py_index_in_range (s : str) (i : Z) :
  0 <= i < Z.of_nat (length s) -> py_index s i = nth_error s (Z.to_nat i).
Proof.
  intro H. unfold py_index.
  replace (i <? 0) with false by (symmetry; apply Z.ltb_ge; lia).
  replace (0 <=? i) with true by (symmetry; apply Z.leb_le; lia).
  replace (i <? Z.of_nat (length s)) with true by (symmetry; apply Z.ltb_lt; lia).
  reflexivity.
Qed.

Lemma b2j_add_sound (b : str) (elt : ascii) (i : Z) (d : b2j_t) :
  py_index b i = Some elt -> b2j_sound b d -> b2j_sound b (b2j_add elt i d).
Proof.
  intros Hi. induction 1 as [|[e idxs] d He Hd IH]; simpl.
  - repeat constructor. exact Hi.
  - destruct (Ascii.eqb e elt) eqn:E.
    + apply Ascii.eqb_eq in E. subst e. constructor; [|exact Hd].
      simpl in *. apply Forall_app. split; [exact He | repeat constructor; exact Hi].
    + constructor; [exact He | exact IH].
Qed.

Lemma chain_b_from_sound (b : str) (rest : str) :
  forall i0 d,
    (forall n c, nth_error rest n = Some c -> py_index b (i0 + Z.of_nat n) = Some c) ->
    b2j_sound b d -> b2j_sound b (chain_b_from i0 rest d).
Proof.
  induction rest as [|x rest IH]; intros i0 d Hpos Hd; simpl; [exact Hd|].
  apply IH.
  - intros n c Hn. replace (i0 + 1 + Z.of_nat n) with (i0 + Z.of_nat (S n)) by lia.
    apply Hpos. exact Hn.
  - apply b2j_add_sound; [|exact Hd].
    replace i0 with (i0 + Z.of_nat 0) by (simpl; lia). apply Hpos. reflexivity.
Qed.

Lemma chain_b_sound (b : str) : b2j_sound b (chain_b b).
Proof.
  assert (H : b2j_sound b (chain_b_from 0 b [])).
  { apply chain_b_from_sound; [|constructor].
    intros n c Hn. apply py_index_nth. exact Hn. }
  unfold chain_b. destruct (200 <=? Z.of_nat (length b)); [|exact H].
  unfold b2j_sound in *. rewrite Forall_forall in *.
  intros e He. apply filter_In in He. apply H. apply He.
Qed.

Lemma b2j_get_sound (b : str) (d : b2j_t) (c : ascii) :
  b2j_sound b d -> Forall (fun j => py_index b j = Some c) (b2j_get d c).
Proof.
  induction 1 as [|[e idxs] d He _ IH]; simpl; [constructor|].
  destruct (Ascii.eqb e c) eqn:E; [|exact IH].
  apply Ascii.eqb_eq in E. subst e. exact He.
Qed.

Lemma j2len_get_sound (a b : str) (i j : Z) (d : j2len_t) :
  j2len_sound a b i d ->
  matched a b (i - j2len_get d j + 1, j - j2len_get d j + 1, j2len_get d j).
Proof.
  induction 1 as [|[j' k] d He _ IH]; simpl.
  - intros t Ht. lia.
  - destruct (j' =? j) eqn:E; [|exact IH].
    apply Z.eqb_eq in E. subst j'. exact He.
Qed.

Lemma scan_js_sound (a b : str) (blo bhi i : Z) (j2len : j2len_t) (js : list Z) :
  Forall (fun j => same_elt (py_index a i) (py_index b j) = true) js ->
  j2len_sound a b (i - 1) j2len ->
  forall newj2len best,
    j2len_sound a b i newj2len -> matched a b best ->
    j2len_sound a b i (fst (scan_js blo bhi i j2len js newj2len best))
    /\ matched a b (snd (scan_js blo bhi i j2len js newj2len best)).
Proof.
  intros Hjs Hprev. induction Hjs as [|j js Hj _ IH]; intros new best Hnew Hbest; simpl.
  - split; assumption.
  - destruct (j <? blo); [apply IH; assumption|].
    destruct (bhi <=? j); [split; assumption|].
    destruct best as [[bi bj] bs].
    pose proof (j2len_get_sound a b (i - 1) (j - 1) j2len Hprev) as Hg.
    set (k := j2len_get j2len (j - 1)) in *.
    assert (Hk : matched a b (i - (k + 1) + 1, j - (k + 1) + 1, k + 1)).
    { intros t Ht. destruct (Z.eq_dec t k) as [-> | Hne].
      - replace (i - (k + 1) + 1 + k) with i by lia.
        replace (j - (k + 1) + 1 + k) with j by lia. exact Hj.
      - specialize (Hg t ltac:(lia)).
        replace (i - (k + 1) + 1 + t) with (i - 1 - k + 1 + t) by lia.
        replace (j - (k + 1) + 1 + t) with (j - 1 - k + 1 + t) by lia. exact Hg. }
    apply IH.
    + constructor; [exact Hk | exact Hnew].
    + destruct (bs <? k + 1); [exact Hk | exact Hbest].
Qed.

Lemma scan_is_sound (a b : str) (b2j : b2j_t) (blo bhi : Z) (rows : list Z) :
  b2j_sound b b2j ->
  forall i n j2len best,
    rows = zrange i n ->
    j2len_sound a b (i - 1) j2len -> matched a b best ->
    matched a b (scan_is a b2j blo bhi rows j2len best).
Proof.
  intros Hb. induction rows as [|r rows IH]; intros i n j2len best E Hd Hbest; simpl.
  - exact Hbest.
  - destruct n as [|n]; [discriminate|]. simpl in E. injection E as -> ->.
    set (js := match py_index a i with Some c => b2j_get b2j c | None => [] end).
    assert (Hjs : Forall (fun j => same_elt (py_index a i) (py_index b j) = true) js).
    { unfold js. destruct (py_index a i) as [c|]; [|constructor].
      pose proof (b2j_get_sound b b2j c Hb) as H. rewrite Forall_forall in *.
      intros j Hj. rewrite (H j Hj). simpl. apply Ascii.eqb_refl. }
    destruct (scan_js_sound a b blo bhi i j2len js Hjs Hd [] best
                (Forall_nil _) Hbest) as [H1 H2].
    destruct (scan_js blo bhi i j2len js [] best) as [new best'].
    simpl in H1, H2. apply (IH (i + 1) n); [reflexivity | | exact H2].
    replace (i + 1 - 1) with i by lia. exact H1.
Qed.

Lemma extend_left_sound (a b : str) (alo blo : Z) (fuel : nat) (m : block) :
  matched a b m -> matched a b (extend_left a b alo blo fuel m).
Proof.
  revert m. induction fuel as [|f IH]; intros [[bi bj] bs] H; simpl; [exact H|].
  destruct ((alo <? bi) && (blo <? bj)
            && same_elt (py_index a (bi - 1)) (py_index b (bj - 1))) eqn:E; [|exact H].
  apply andb_true_iff in E. destruct E as [_ E]. apply IH.
  intros t Ht. destruct (Z.eq_dec t 0) as [-> | Hne].
  - rewrite !Z.add_0_r. exact E.
  - specialize (H (t - 1) ltac:(lia)).
    replace (bi - 1 + t) with (bi + (t - 1)) by lia.
    replace (bj - 1 + t) with (bj + (t - 1)) by lia. exact H.
Qed.

Lemma extend_right_sound (a b : str) (ahi bhi : Z) (fuel : nat) (m : block) :
  matched a b m -> matched a b (extend_right a b ahi bhi fuel m).
Proof.
  revert m. induction fuel as [|f IH]; intros [[bi bj] bs] H; simpl; [exact H|].
  destruct ((bi + bs <? ahi) && (bj + bs <? bhi)
            && same_elt (py_index a (bi + bs)) (py_index b (bj + bs))) eqn:E; [|exact H].
  apply andb_true_iff in E. destruct E as [_ E]. apply IH.
  intros t Ht. destruct (Z.eq_dec t bs) as [-> | Hne]; [exact E | apply H; lia].
Qed.

Lemma find_longest_match_sound (a b : str) (b2j : b2j_t) (alo ahi blo bhi : Z) :
  b2j_sound b b2j -> matched a b (find_longest_match a b b2j alo ahi blo bhi).
Proof.
  intro Hb. unfold find_longest_match.
  apply extend_right_sound. apply extend_left_sound.
  apply (scan_is_sound a b b2j blo bhi _ Hb alo (Z.to_nat (ahi - alo))).
  - reflexivity.
  - constructor.
  - intros t Ht. lia.
Qed.

Lemma blocks_loop_sound (a b : str) (b2j : b2j_t) (fuel : nat) :
  b2j_sound b b2j ->
  forall queue acc,
    Forall (matched a b) acc -> Forall (matched a b) (blocks_loop a b b2j fuel queue acc).
Proof.
  intro Hb. induction fuel as [|f IH]; intros queue acc Hacc; simpl; [exact Hacc|].
  destruct queue as [|[[[alo ahi] blo] bhi] queue]; [exact Hacc|].
  pose proof (find_longest_match_sound a b b2j alo ahi blo bhi Hb) as Hm.
  destruct (find_longest_match a b b2j alo ahi blo bhi) as [[i j] k].
  destruct (k =? 0); [apply IH; exact Hacc|].
  apply IH. apply Forall_app. split; [exact Hacc | constructor; [exact Hm | constructor]].
Qed.

Lemma emit_block_matched (a b : str) (i j k : Z) :
  matched a b (i, j, k) -> Forall (matched a b) (emit_block i j k).
Proof.
  intro H. unfold emit_block.
  destruct (k =? 0); [constructor | constructor; [exact H | constructor]].
Qed.

Lemma collapse_adjacent_matched (a b : str) (bl : list block) :
  Forall (matched a b) bl ->
  forall i1 j1 k1,
    matched a b (i1, j1, k1) -> Forall (matched a b) (collapse_adjacent i1 j1 k1 bl).
Proof.
  induction 1 as [|[[i2 j2] k2] bl Hx _ IH]; intros i1 j1 k1 H1; simpl.
  - apply emit_block_matched. exact H1.
  - destruct ((i1 + k1 =? i2) && (j1 + k1 =? j2)) eqn:E.
    + apply andb_true_iff in E. destruct E as [E1 E2].
      apply Z.eqb_eq in E1, E2. subst i2 j2. apply IH.
      intros t Ht. destruct (Z_lt_dec t k1) as [Hlt | Hge]; [apply H1; lia|].
      specialize (Hx (t - k1) ltac:(lia)).
      replace (i1 + t) with (i1 + k1 + (t - k1)) by lia.
      replace (j1 + t) with (j1 + k1 + (t - k1)) by lia. exact Hx.
    + apply Forall_app. split; [apply emit_block_matched; exact H1 | apply IH; exact Hx].
Qed.

Lemma get_matching_blocks_matched (a b : str) :
  Forall (matched a b) (get_matching_blocks a b).
Proof.
  unfold get_matching_blocks. apply Forall_app. split.
  - apply collapse_adjacent_matched.
    + apply sort_blocks_Forall. apply blocks_loop_sound; [apply chain_b_sound | constructor].
    + intros t Ht. lia.
  - constructor; [intros t Ht; lia | constructor].
Qed.

Lemma same_elt_true (x y : option ascii) : same_elt x y = true -> x = y.
Proof.
  destruct x as [c|], y as [d|]; simpl; try discriminate.
  intro H. apply Ascii.eqb_eq in H. congruence.
Qed.

Lemma py_slice_in_range (s : str) (i k : Z) :
  0 <= i -> 0 <= k -> i + k <= Z.of_nat (length s) ->
  py_slice s i (i + k) = firstn (Z.to_nat k) (skipn (Z.to_nat i) s).
Proof.
  intros Hi Hk H. unfold py_slice, clamp_index.
  replace (i <? 0) with false by (symmetry; apply Z.ltb_ge; lia).
  replace (i + k <? 0) with false by (symmetry; apply Z.ltb_ge; lia).
  rewrite !Z.min_l by lia. replace (i + k - i) with k by lia. reflexivity.
Qed.

Lemma matched_slices (a b : str) (i j k : Z) :
  block_ok (Z.of_nat (length a)) (Z.of_nat (length b)) (i, j, k) ->
  matched a b (i, j, k) ->
  py_slice a i (i + k) = py_slice b j (j + k).
Proof.
  intros Hok Hm. unfold block_ok, within in Hok.
  rewrite !py_slice_in_range by lia.
  apply nth_error_ext. intro n. rewrite !nth_error_firstn, !nth_error_skipn.
  destruct (Nat.ltb n (Z.to_nat k)) eqn:E; [|reflexivity].
  apply Nat.ltb_lt in E. specialize (Hm (Z.of_nat n) ltac:(lia)).
  apply same_elt_true in Hm. rewrite !py_index_in_range in Hm by lia.
  replace (Z.to_nat (i + Z.of_nat n)) with (Z.to_nat i + n)%nat in Hm by lia.
  replace (Z.to_nat (j + Z.of_nat n)) with (Z.to_nat j + n)%nat in Hm by lia.
  exact Hm.
Qed.

(** X10: every matching block that the alignment of [find_differences]
    gives, [Match(i, j, k)], lies inside the two strings and the two strings
    are equal on it: [str1[i:i+k] == str2[j:j+k]]. *)
Theorem matching_blocks_equal (str1 str2 : str) :
  Forall (fun x : block =>
            let '(i, j, k) := x in
            0 <= i /\ 0 <= j /\ 0 <= k
            /\ i + k <= Z.of_nat (length str1) /\ j + k <= Z.of_nat (length str2)
            /\ py_slice str1 i (i + k) = py_slice str2 j (j + k))
    (get_matching_blocks str1 str2).
Proof.
  pose proof (get_matching_blocks_ok str1 str2) as Hok.
  pose proof (get_matching_blocks_matched str1 str2) as Hm.
  rewrite Forall_forall in *. intros [[i j] k] Hin.
  pose proof (Hok _ Hin) as H1. pose proof (Hm _ Hin) as H2.
  pose proof (matched_slices str1 str2 i j k H1 H2) as E.
  unfold block_ok, within in H1. repeat split; try lia. exact E.
Qed.

(** ** The matching blocks come in order *)

Lemma pairwise_app {A : Type} (R : A -> A -> Prop) (l1 l2 : list A) :
  pairwise R (l1 ++ l2)
  <-> pairwise R l1 /\ pairwise R l2 /\ Forall (fun x => Forall (R x) l2) l1.
Proof.
  induction l1 as [|x l1 IH]; simpl.
  - split; [intro H; repeat split; [exact H | constructor] | tauto].
  - rewrite Forall_app, IH. split.
    + intros [[H1 H2] (H3 & H4 & H5)]. repeat split; try assumption.
      constructor; assumption.
    + intros ([H1 H2] & H3 & H4). inversion H4; subst. tauto.
Qed.

Lemma chain_sym (r1 r2 : range4) : chain r1 r2 -> chain r2 r1.
Proof. unfold chain. tauto. Qed.

Lemma chain_inside (n w x : range4) : inside n w -> chain w x -> chain n x.
Proof.
  destruct n as [[[a1 a2] a3] a4], w as [[[w1 w2] w3] w4], x as [[[x1 x2] x3] x4].
  unfold inside, chain, rbefore. lia.
Qed.

Lemma Forall_chain_inside (n w : range4) (l : list range4) :
  inside n w -> Forall (chain w) l -> Forall (chain n) l.
Proof.
  intros Hn H. rewrite Forall_forall in *. intros x Hx.
  apply (chain_inside n w x Hn). apply H. exact Hx.
Qed.

Lemma loop_chained_push (n : range4) (queue : list range4) (acc : list block) :
  loop_chained queue acc ->
  Forall (chain n) queue -> Forall (fun x => chain n (rect_of_block x)) acc ->
  loop_chained (n :: queue) acc.
Proof.
  intros (HA & HB & HC & HD) Hq Hacc. repeat split; try assumption.
  constructor; assumption.
Qed.

Lemma blocks_loop_chained (a b : str) (b2j : b2j_t) (la lb : Z) (fuel : nat) :
  forall queue acc,
    Forall (range_ok la lb) queue -> loop_chained queue acc ->
    pairwise chain_blocks (blocks_loop a b b2j fuel queue acc)
    /\ Forall positive_size (blocks_loop a b b2j fuel queue acc).
Proof.
  induction fuel as [|f IH]; intros queue acc Hr Hc.
  - simpl. destruct Hc as (_ & HB & _ & HD). split; assumption.
  - destruct queue as [|[[[alo ahi] blo] bhi] queue].
    + simpl. destruct Hc as (_ & HB & _ & HD). split; assumption.
    + simpl. inversion Hr as [|? ? Hw Hr']; subst. unfold range_ok in Hw.
      destruct Hc as ([HWq Hq] & HB & HC & HD).
      inversion HC as [|? ? HWacc Hqacc]; subst.
      pose proof (find_longest_match_within a b b2j alo ahi blo bhi
                    ltac:(lia) ltac:(lia)) as Hin.
      destruct (find_longest_match a b b2j alo ahi blo bhi) as [[i j] k].
      unfold within in Hin.
      destruct (k =? 0) eqn:Ek.
      { apply IH; [exact Hr' | repeat split; assumption]. }
      apply Z.eqb_neq in Ek.
      set (W := (alo, ahi, blo, bhi)) in *.
      assert (HBW : inside (rect_of_block (i, j, k)) W) by (simpl; lia).
      assert (Hbase : loop_chained queue (acc ++ [(i, j, k)])).
      { split; [|split; [|split]].
        - exact Hq.
        - apply pairwise_app. split; [exact HB|].
          split; [simpl; split; [constructor | exact I]|].
          rewrite Forall_forall in *. intros x Hx. constructor; [|constructor].
          apply chain_sym. apply (chain_inside _ W); [exact HBW|]. apply HWacc. exact Hx.
        - rewrite Forall_forall in *. intros w Hw'. apply Forall_app. split.
          + pose proof (Hqacc w Hw') as H. exact H.
          + constructor; [|constructor]. apply chain_sym.
            apply (chain_inside _ W); [exact HBW|]. apply HWq. exact Hw'.
        - apply Forall_app. split; [exact HD|].
          constructor; [unfold positive_size; simpl; lia | constructor]. }
      assert (Hfrom : forall n, inside n W ->
                chain n (rect_of_block (i, j, k)) ->
                Forall (chain n) queue
                /\ Forall (fun x => chain n (rect_of_block x)) (acc ++ [(i, j, k)])).
      { intros n Hn Hnb. split; [apply (Forall_chain_inside n W); assumption|].
        apply Forall_app. split; [|constructor; [exact Hnb | constructor]].
        rewrite Forall_forall in *. intros x Hx.
        apply (chain_inside n W); [exact Hn|]. apply HWacc. exact Hx. }
      set (q1 := if (alo <? i) && (blo <? j) then (alo, i, blo, j) :: queue else queue).
      assert (H1 : Forall (range_ok la lb) q1 /\ loop_chained q1 (acc ++ [(i, j, k)])
                   /\ forall n, inside n W -> chain n (alo, i, blo, j) ->
                                Forall (chain n) queue -> Forall (chain n) q1).
      { unfold q1. destruct ((alo <? i) && (blo <? j)).
        - split; [constructor; [unfold range_ok; lia | exact Hr']|]. split.
          + destruct (Hfrom (alo, i, blo, j)) as [Ha Hb];
              [unfold W; simpl; lia | left; simpl; lia |].
            apply loop_chained_push; assumption.
          + intros n _ Hn Hq'. constructor; assumption.
        - split; [exact Hr'|]. split; [exact Hbase|]. intros n _ _ Hq'. exact Hq'. }
      clearbody q1. destruct H1 as (Hr1 & Hc1 & Hq1).
      apply IH.
      * destruct ((i + k <? ahi) && (j + k <? bhi)); [|exact Hr1].
        constructor; [unfold range_ok; lia | exact Hr1].
      * destruct ((i + k <? ahi) && (j + k <? bhi)); [|exact Hc1].
        destruct (Hfrom (i + k, ahi, j + k, bhi)) as [Ha Hb];
          [unfold W; simpl; lia | right; simpl; lia |].
        apply loop_chained_push; [exact Hc1 | | exact Hb].
        apply Hq1; [unfold W; simpl; lia | right; simpl; lia | exact Ha].
Qed.

Lemma block_leb_first (x y : block) :
  (block_leb x y = true -> fst (fst x) <= fst (fst y))
  /\ (block_leb x y = false -> fst (fst y) <= fst (fst x)).
Proof.
  destruct x as [[i1 j1] k1], y as [[i2 j2] k2]. unfold block_leb. simpl.
  destruct (i1 <? i2) eqn:E1; simpl.
  - apply Z.ltb_lt in E1. split; [lia | discriminate].
  - apply Z.ltb_ge in E1. destruct (i1 =? i2) eqn:E2; simpl.
    + apply Z.eqb_eq in E2. split; lia.
    + split; [discriminate | lia].
Qed.

Lemma chain_blocks_leb (x y : block) :
  positive_size x -> positive_size y -> chain_blocks x y ->
  (block_leb x y = true -> before x y) /\ (block_leb x y = false -> before y x).
Proof.
  intros Hx Hy Hc. pose proof (block_leb_first x y) as [H1 H2].
  destruct x as [[i1 j1] k1], y as [[i2 j2] k2].
  unfold positive_size, chain_blocks, chain, before, rbefore in *. simpl in *.
  split; intro E; [specialize (H1 E) | specialize (H2 E)]; lia.
Qed.

Lemma before_trans (x y z : block) :
  positive_size y -> before x y -> before y z -> before x z.
Proof.
  destruct x as [[i1 j1] k1], y as [[i2 j2] k2], z as [[i3 j3] k3].
  unfold positive_size, before, rbefore. simpl. lia.
Qed.

Lemma insert_block_before (x : block) (l : list block) :
  positive_size x -> Forall positive_size l ->
  pairwise before l -> Forall (chain_blocks x) l ->
  pairwise before (insert_block x l).
Proof.
  intros Hx. induction l as [|y l IH]; intros Hpos Hl Hc; simpl.
  - split; [constructor | exact I].
  - inversion Hpos as [|? ? Hy Hpos']; subst. inversion Hc as [|? ? Hxy Hc']; subst.
    destruct Hl as [Hyl Hl].
    destruct (chain_blocks_leb x y Hx Hy Hxy) as [Ht Hf].
    destruct (block_leb x y) eqn:E.
    + split; [|split; assumption].
      constructor; [apply Ht; reflexivity|].
      rewrite Forall_forall in *. intros z Hz.
      apply (before_trans x y z Hy); [apply Ht; reflexivity | apply Hyl; exact Hz].
    + split; [|apply IH; assumption].
      apply insert_block_Forall; [apply Hf; reflexivity | exact Hyl].
Qed.

Lemma sort_blocks_before (l : list block) :
  pairwise chain_blocks l -> Forall positive_size l -> pairwise before (sort_blocks l).
Proof.
  unfold sort_blocks. induction l as [|x l IH]; intros Hc Hpos; simpl; [exact I|].
  destruct Hc as [Hx Hc]. inversion Hpos as [|? ? Hpx Hpos']; subst.
  apply insert_block_before.
  - exact Hpx.
  - apply (sort_blocks_Forall positive_size). exact Hpos'.
  - apply IH; assumption.
  - apply (sort_blocks_Forall (chain_blocks x)). exact Hx.
Qed.

Lemma emit_block_starts (i j k : Z) : Forall (starts_from i j) (emit_block i j k).
Proof.
  unfold emit_block. destruct (k =? 0); [constructor|].
  constructor; [simpl; lia | constructor].
Qed.

Lemma collapse_adjacent_starts (bl : list block) :
  forall i1 j1 k1,
    0 <= k1 -> Forall positive_size bl ->
    Forall (before (i1, j1, k1)) bl -> pairwise before bl ->
    Forall (starts_from i1 j1) (collapse_adjacent i1 j1 k1 bl).
Proof.
  induction bl as [|[[i2 j2] k2] bl IH]; intros i1 j1 k1 Hk Hpos Hb Hp; simpl.
  - apply emit_block_starts.
  - inversion Hpos as [|? ? Hp2 Hpos']; subst. inversion Hb as [|? ? Hb2 Hb']; subst.
    destruct Hp as [Hp2' Hp]. unfold positive_size in Hp2. simpl in Hp2.
    unfold before, rbefore in Hb2. simpl in Hb2.
    destruct ((i1 + k1 =? i2) && (j1 + k1 =? j2)) eqn:E.
    + apply andb_true_iff in E. destruct E as [E1 E2]. apply Z.eqb_eq in E1, E2.
      apply IH; [lia | exact Hpos' | | exact Hp].
      rewrite Forall_forall in *. intros [[i3 j3] k3] Hz.
      specialize (Hp2' _ Hz). unfold before, rbefore in *. simpl in *. lia.
    + apply Forall_app. split; [apply emit_block_starts|].
      specialize (IH i2 j2 k2 ltac:(lia) Hpos' Hp2' Hp).
      rewrite Forall_forall in *. intros [[i3 j3] k3] Hz.
      specialize (IH _ Hz). simpl in *. lia.
Qed.

Lemma collapse_adjacent_before (bl : list block) :
  forall i1 j1 k1,
    0 <= k1 -> Forall positive_size bl ->
    Forall (before (i1, j1, k1)) bl -> pairwise before bl ->
    pairwise before (collapse_adjacent i1 j1 k1 bl).
Proof.
  induction bl as [|[[i2 j2] k2] bl IH]; intros i1 j1 k1 Hk Hpos Hb Hp; simpl.
  - unfold emit_block. destruct (k1 =? 0); simpl; [exact I | split; [constructor | exact I]].
  - inversion Hpos as [|? ? Hp2 Hpos']; subst. inversion Hb as [|? ? Hb2 Hb']; subst.
    destruct Hp as [Hp2' Hp]. unfold positive_size in Hp2. simpl in Hp2.
    pose proof Hb2 as Hb2'. unfold before, rbefore in Hb2'. simpl in Hb2'.
    destruct ((i1 + k1 =? i2) && (j1 + k1 =? j2)) eqn:E.
    + apply andb_true_iff in E. destruct E as [E1 E2]. apply Z.eqb_eq in E1, E2.
      apply IH; [lia | exact Hpos' | | exact Hp].
      rewrite Forall_forall in *. intros [[i3 j3] k3] Hz.
      specialize (Hp2' _ Hz). unfold before, rbefore in *. simpl in *. lia.
    + apply pairwise_app. split; [|split].
      * unfold emit_block. destruct (k1 =? 0); simpl; [exact I | split; [constructor | exact I]].
      * apply IH; [lia | assumption ..].
      * pose proof (collapse_adjacent_starts bl i2 j2 k2 ltac:(lia) Hpos' Hp2' Hp) as Hs.
        unfold emit_block. destruct (k1 =? 0); [constructor|].
        constructor; [|constructor].
        rewrite Forall_forall in *. intros [[i3 j3] k3] Hz.
        specialize (Hs _ Hz). unfold before, rbefore. simpl in *. lia.
Qed.

(** The matching blocks are in order: each ends, in both strings, where
    the next begins or earlier. *)
Lemma get_matching_blocks_ordered (a b : str) :
  pairwise before (get_matching_blocks a b).
Proof.
  pose proof (get_matching_blocks_ok a b) as Hok.
  unfold get_matching_blocks in *.
  set (found := blocks_loop a b (chain_b b) (2 * length a + 1)
                  [(0, Z.of_nat (length a), 0, Z.of_nat (length b))] []) in *.
  destruct (blocks_loop_chained a b (chain_b b) (Z.of_nat (length a))
              (Z.of_nat (length b)) (2 * length a + 1)
              [(0, Z.of_nat (length a), 0, Z.of_nat (length b))] []) as [Hc Hp].
  { constructor; [unfold range_ok; lia | constructor]. }
  { repeat split; constructor; constructor. }
  fold found in Hc, Hp.
  pose proof (found_blocks_ok a b) as (Hf & _ & _). cbv zeta in Hf. fold found in Hf.
  apply Forall_app in Hok. destruct Hok as [Hok _].
  apply pairwise_app. split; [|split].
  - apply collapse_adjacent_before.
    + lia.
    + apply (sort_blocks_Forall positive_size). exact Hp.
    + apply (sort_blocks_Forall (before (0, 0, 0))).
      rewrite Forall_forall in *. intros [[i j] k] Hz. specialize (Hf _ Hz).
      unfold block_ok, within in Hf. unfold before, rbefore. simpl. lia.
    + apply sort_blocks_before; assumption.
  - split; [constructor | exact I].
  - rewrite Forall_forall in *. intros [[i j] k] Hz. specialize (Hok _ Hz).
    unfold block_ok, within in Hok. constructor; [|constructor].
    unfold before, rbefore. simpl. lia.
Qed.

(** ** The spans of [find_differences] and the matching blocks *)

Lemma end_a_snoc (e : Z) (l : list block) (i j k : Z) :
  end_a e (l ++ [(i, j, k)]) = i + k.
Proof. unfold end_a. rewrite fold_left_app. reflexivity. Qed.

Lemma end_b_snoc (e : Z) (l : list block) (i j k : Z) :
  end_b e (l ++ [(i, j, k)]) = j + k.
Proof. unfold end_b. rewrite fold_left_app. reflexivity. Qed.

Lemma total_length_cons (x : str) (l : list str) :
  total_length (x :: l) = Z.of_nat (length x) + total_length l.
Proof. unfold total_length. simpl. rewrite length_app. lia. Qed.

Lemma before_starts (i j k : Z) (r : list block) :
  Forall (before (i, j, k)) r -> Forall (starts_from (i + k) (j + k)) r.
Proof.
  intro H. rewrite Forall_forall in *. intros [[i' j'] k'] Hz.
  specialize (H _ Hz). unfold before, rbefore in H. simpl in *. exact H.
Qed.

Lemma differences_from_lengths (a b : str) (blocks : list block) :
  Forall (block_ok (Z.of_nat (length a)) (Z.of_nat (length b))) blocks ->
  pairwise before blocks ->
  forall e1 e2,
    0 <= e1 -> 0 <= e2 -> Forall (starts_from e1 e2) blocks ->
    total_length (map fst (differences_from a b e1 e2 blocks)) + total_size blocks
    = end_a e1 blocks - e1
    /\ total_length (map snd (differences_from a b e1 e2 blocks)) + total_size blocks
       = end_b e2 blocks - e2.
Proof.
  induction 1 as [|[[i j] k] r Hok _ IH]; intros Hp e1 e2 H1 H2 Hs.
  - simpl. unfold total_length, total_size, end_a, end_b. simpl. lia.
  - destruct Hp as [Hb Hp]. inversion Hs as [|? ? Hs0 _]; subst.
    unfold block_ok, within in Hok. simpl in Hs0.
    destruct (IH Hp (i + k) (j + k) ltac:(lia) ltac:(lia) (before_starts i j k r Hb))
      as [IHa IHb].
    change (end_a e1 ((i, j, k) :: r)) with (end_a (i + k) r).
    change (end_b e2 ((i, j, k) :: r)) with (end_b (j + k) r).
    change (total_size ((i, j, k) :: r)) with (k + total_size r).
    simpl differences_from.
    destruct ((e1 <? i) || (e2 <? j)) eqn:E.
    + simpl map. rewrite !total_length_cons. simpl fst. simpl snd.
      rewrite !py_slice_length by lia. lia.
    + apply orb_false_iff in E. destruct E as [Ea Eb].
      apply Z.ltb_ge in Ea, Eb. lia.
Qed.

Lemma gmb_starts (a b : str) : Forall (starts_from 0 0) (get_matching_blocks a b).
Proof.
  pose proof (get_matching_blocks_ok a b) as H. rewrite Forall_forall in *.
  intros [[i j] k] Hz. specialize (H _ Hz). unfold block_ok, within in H. simpl. lia.
Qed.

Lemma gmb_ends (a b : str) :
  end_a 0 (get_matching_blocks a b) = Z.of_nat (length a)
  /\ end_b 0 (get_matching_blocks a b) = Z.of_nat (length b).
Proof. unfold get_matching_blocks. rewrite end_a_snoc, end_b_snoc. lia. Qed.

(** X11: what [find_differences] leaves out of its spans is what the blocks
    match: the lengths of the segments taken from the first string and the
    number of matched characters add up to the length of the first string,
    and the same holds for the second string. *)
Theorem find_differences_lengths (str1 str2 : str) :
  total_length (map fst (find_differences str1 str2)) + matches str1 str2
  = Z.of_nat (length str1)
  /\ total_length (map snd (find_differences str1 str2)) + matches str1 str2
     = Z.of_nat (length str2).
Proof.
  destruct (differences_from_lengths str1 str2 (get_matching_blocks str1 str2)
              (get_matching_blocks_ok str1 str2) (get_matching_blocks_ordered str1 str2)
              0 0 ltac:(lia) ltac:(lia) (gmb_starts str1 str2)) as [Ha Hb].
  destruct (gmb_ends str1 str2) as [Ea Eb]. rewrite Ea in Ha. rewrite Eb in Hb.
  change (matches str1 str2) with (total_size (get_matching_blocks str1 str2)).
  unfold find_differences. lia.
Qed.

Lemma firstn_plus (n m : nat) (l : str) :
  firstn (n + m) l = firstn n l ++ firstn m (skipn n l).
Proof.
  revert l. induction n as [|n IH]; intro l; [reflexivity|].
  destruct l as [|x l]; simpl.
  - destruct m; reflexivity.
  - rewrite IH. reflexivity.
Qed.

Lemma py_slice_split (s : str) (x y z : Z) :
  0 <= x -> x <= y -> y <= z -> z <= Z.of_nat (length s) ->
  py_slice s x z = py_slice s x y ++ py_slice s y z.
Proof.
  intros H0 H1 H2 H3.
  replace z with (x + (z - x)) at 1 by lia.
  replace y with (x + (y - x)) at 1 by lia.
  replace z with (y + (z - y)) at 2 by lia.
  rewrite !py_slice_in_range by lia.
  replace (Z.to_nat (z - x)) with (Z.to_nat (y - x) + Z.to_nat (z - y))%nat by lia.
  rewrite firstn_plus, skipn_skipn.
  replace (Z.to_nat (y - x) + Z.to_nat x)%nat with (Z.to_nat y) by lia. reflexivity.
Qed.

Lemma py_slice_empty (s : str) (e : Z) :
  0 <= e -> e <= Z.of_nat (length s) -> py_slice s e e = [].
Proof.
  intros H0 H1. apply length_zero_iff_nil.
  rewrite py_slice_length by lia. lia.
Qed.

Lemma py_slice_whole (s : str) : py_slice s 0 (Z.of_nat (length s)) = s.
Proof.
  pose proof (py_slice_in_range s 0 (Z.of_nat (length s)) ltac:(lia) ltac:(lia) ltac:(lia))
    as E. simpl in E. rewrite E. rewrite Nat2Z.id. apply firstn_all.
Qed.

Lemma differences_from_nil (a b : str) (blocks : list block) :
  Forall (block_ok (Z.of_nat (length a)) (Z.of_nat (length b))) blocks ->
  Forall (matched a b) blocks ->
  pairwise before blocks ->
  forall e1 e2,
    0 <= e1 <= Z.of_nat (length a) -> 0 <= e2 <= Z.of_nat (length b) ->
    Forall (starts_from e1 e2) blocks ->
    differences_from a b e1 e2 blocks = [] ->
    e1 <= end_a e1 blocks <= Z.of_nat (length a)
    /\ e2 <= end_b e2 blocks <= Z.of_nat (length b)
    /\ py_slice a e1 (end_a e1 blocks) = py_slice b e2 (end_b e2 blocks).
Proof.
  induction 1 as [|[[i j] k] r Hok _ IH]; intros Hm Hp e1 e2 H1 H2 Hs Hd.
  - unfold end_a, end_b. simpl. rewrite !py_slice_empty by lia.
    repeat split; try lia.
  - destruct Hp as [Hb Hp]. inversion Hs as [|? ? Hs0 _]; subst.
    inversion Hm as [|? ? Hm0 Hm']; subst.
    pose proof Hok as Hok'. unfold block_ok, within in Hok'. simpl in Hs0.
    simpl in Hd. destruct ((e1 <? i) || (e2 <? j)) eqn:E; [discriminate|].
    apply orb_false_iff in E. destruct E as [Ea Eb]. apply Z.ltb_ge in Ea, Eb.
    assert (i = e1) by lia. assert (j = e2) by lia. subst i j.
    destruct (IH Hm' Hp (e1 + k) (e2 + k) ltac:(lia) ltac:(lia)
                (before_starts e1 e2 k r Hb) Hd) as (Ha' & Hb' & E).
    change (end_a e1 ((e1, e2, k) :: r)) with (end_a (e1 + k) r).
    change (end_b e2 ((e1, e2, k) :: r)) with (end_b (e2 + k) r).
    split; [lia|]. split; [lia|].
    rewrite (py_slice_split a e1 (e1 + k)) by lia.
    rewrite (py_slice_split b e2 (e2 + k)) by lia.
    rewrite E, (matched_slices a b e1 e2 k Hok Hm0). reflexivity.
Qed.

(** When no span is returned the two strings are the same. *)
Lemma find_differences_nil_equal (a b : str) : find_differences a b = [] -> a = b.
Proof.
  intro H. unfold find_differences in H.
  destruct (differences_from_nil a b (get_matching_blocks a b)
              (get_matching_blocks_ok a b) (get_matching_blocks_matched a b)
              (get_matching_blocks_ordered a b) 0 0 ltac:(lia) ltac:(lia)
              (gmb_starts a b) H) as (_ & _ & E).
  destruct (gmb_ends a b) as [Ea Eb]. rewrite Ea, Eb, !py_slice_whole in E. exact E.
Qed.

(** ** A string aligned with itself *)

Lemma b2j_get_add (e : ascii) (i : Z) (d : b2j_t) (c : ascii) :
  b2j_get (b2j_add e i d) c
  = if Ascii.eqb e c then b2j_get d c ++ [i] else b2j_get d c.
Proof.
  induction d as [|[e' idxs] d IH]; simpl.
  - destruct (Ascii.eqb e c); reflexivity.
  - destruct (Ascii.eqb e' e) eqn:E1; simpl.
    + apply Ascii.eqb_eq in E1. subst e'. destruct (Ascii.eqb e c); reflexivity.
    + destruct (Ascii.eqb e' c) eqn:E2; [|exact IH].
      apply Ascii.eqb_eq in E2. subst e'.
      rewrite Ascii.eqb_sym in E1. rewrite E1. reflexivity.
Qed.

Lemma b2j_get_chain_from (s : str) (c : ascii) :
  forall i0 d,
    b2j_get (chain_b_from i0 s d) c = b2j_get d c ++ positions i0 s c.
Proof.
  induction s as [|x s IH]; intros i0 d; simpl.
  - rewrite app_nil_r. reflexivity.
  - rewrite IH, b2j_get_add.
    destruct (Ascii.eqb x c); [rewrite <- app_assoc|]; reflexivity.
Qed.

Lemma b2j_add_keys (e : ascii) (i : Z) (d : b2j_t) :
  (forall x, In x (b2j_keys (b2j_add e i d)) <-> x = e \/ In x (b2j_keys d))
  /\ (NoDup (b2j_keys d) -> NoDup (b2j_keys (b2j_add e i d))).
Proof.
  induction d as [|[e' idxs] d [IH1 IH2]]; simpl.
  - split; [intro x; simpl; intuition congruence|].
    intros _. constructor; [intros [] | constructor].
  - destruct (Ascii.eqb e' e) eqn:E; simpl.
    + apply Ascii.eqb_eq in E. subst e'. split; [intro x; intuition congruence | auto].
    + split.
      * intro x. rewrite IH1. tauto.
      * intro H. inversion H as [|? ? Hn Hd]; subst. constructor; [|apply IH2; exact Hd].
        rewrite IH1. intros [-> | Hin]; [|contradiction].
        rewrite Ascii.eqb_refl in E. discriminate.
Qed.

Lemma chain_b_from_keys (s : str) :
  forall i0 d, NoDup (b2j_keys d) -> NoDup (b2j_keys (chain_b_from i0 s d)).
Proof.
  induction s as [|x s IH]; intros i0 d H; simpl; [exact H|].
  apply IH. apply b2j_add_keys. exact H.
Qed.

Lemma b2j_get_absent (d : b2j_t) (c : ascii) : ~ In c (b2j_keys d) -> b2j_get d c = [].
Proof.
  induction d as [|[e idxs] d IH]; simpl; intro H; [reflexivity|].
  destruct (Ascii.eqb e c) eqn:E.
  - apply Ascii.eqb_eq in E. subst e. exfalso. apply H. left. reflexivity.
  - apply IH. intro Hin. apply H. right. exact Hin.
Qed.

Lemma b2j_get_filter (f : ascii * list Z -> bool) (d : b2j_t) (c : ascii) :
  NoDup (b2j_keys d) ->
  b2j_get (filter f d) c = [] \/ b2j_get (filter f d) c = b2j_get d c.
Proof.
  induction d as [|[e idxs] d IH]; simpl; intro H; [left; reflexivity|].
  inversion H as [|? ? Hn Hd]; subst.
  destruct (Ascii.eqb e c) eqn:E.
  - apply Ascii.eqb_eq in E. subst e. destruct (f (c, idxs)); simpl.
    + rewrite Ascii.eqb_refl. right. reflexivity.
    + left. apply b2j_get_absent. intro Hin. apply Hn.
      unfold b2j_keys in *. apply in_map_iff in Hin. destruct Hin as (x & Ex & Hx).
      apply filter_In in Hx. apply in_map_iff. exists x. tauto.
  - destruct (f (e, idxs)); simpl; [rewrite E|]; apply IH; exact Hd.
Qed.

(** The index of a string holds under an element all its positions, in
    order, or nothing when the element was purged. *)
Lemma b2j_get_chain_b (s : str) (c : ascii) :
  b2j_get (chain_b s) c = [] \/ b2j_get (chain_b s) c = positions 0 s c.
Proof.
  assert (E : b2j_get (chain_b_from 0 s []) c = positions 0 s c)
    by (rewrite b2j_get_chain_from; reflexivity).
  unfold chain_b. destruct (200 <=? Z.of_nat (length s)); [|right; exact E].
  rewrite <- E. apply b2j_get_filter. apply chain_b_from_keys. constructor.
Qed.

Lemma positions_spec (s : str) (c : ascii) :
  forall i0 j,
    In j (positions i0 s c) <-> exists m, nth_error s m = Some c /\ j = i0 + Z.of_nat m.
Proof.
  induction s as [|x s IH]; intros i0 j; simpl.
  - split; [intros [] | intros ([|m] & H & _); discriminate].
  - rewrite in_app_iff, IH. split.
    + intros [H | (m & Hm & ->)].
      * destruct (Ascii.eqb x c) eqn:E; [|destruct H].
        apply Ascii.eqb_eq in E. subst x. destruct H as [<- | []].
        exists O. split; [reflexivity | simpl; lia].
      * exists (S m). split; [exact Hm | lia].
    + intros ([|m] & Hm & ->).
      * simpl in Hm. injection Hm as ->. rewrite Ascii.eqb_refl. left. left. simpl. lia.
      * right. exists m. split; [exact Hm | lia].
Qed.

Lemma positions_ascending (s : str) (c : ascii) :
  forall i0, pairwise Z.lt (positions i0 s c).
Proof.
  induction s as [|x s IH]; intro i0; simpl; [exact I|].
  apply pairwise_app. split; [|split; [apply IH|]].
  - destruct (Ascii.eqb x c); simpl; [split; [constructor | exact I] | exact I].
  - destruct (Ascii.eqb x c); [|constructor]. constructor; [|constructor].
    rewrite Forall_forall. intros j Hj. apply positions_spec in Hj.
    destruct Hj as (m & _ & ->). lia.
Qed.

Lemma run_to_eq (b2j : b2j_t) (s : str) (m : nat) :
  run_to b2j s m
  = match nth_error s m with
    | Some c => if indexed b2j c
                then match m with
                     | O => 0
                     | S m' => run_to b2j s m'
                     end + 1
                else 0
    | None => 0
    end.
Proof. destruct m; reflexivity. Qed.

Lemma run_to_nonneg (b2j : b2j_t) (s : str) (m : nat) : 0 <= run_to b2j s m.
Proof.
  induction m as [|m IH]; rewrite run_to_eq.
  - destruct (nth_error s 0) as [c|]; [destruct (indexed b2j c)|]; lia.
  - destruct (nth_error s (S m)) as [c|]; [destruct (indexed b2j c)|]; lia.
Qed.

Lemma run_at_nonneg (b2j : b2j_t) (s : str) (i : Z) : 0 <= run_at b2j s i.
Proof. unfold run_at. destruct (i <? 0); [lia | apply run_to_nonneg]. Qed.

Lemma run_at_negative (b2j : b2j_t) (s : str) (i : Z) : i < 0 -> run_at b2j s i = 0.
Proof. intro H. unfold run_at. apply Z.ltb_lt in H. rewrite H. reflexivity. Qed.

Lemma run_at_step (b2j : b2j_t) (s : str) (i : Z) (c : ascii) :
  0 <= i -> py_index s i = Some c ->
  run_at b2j s i = if indexed b2j c then run_at b2j s (i - 1) + 1 else 0.
Proof.
  intros Hi Hc. unfold py_index in Hc.
  replace (i <? 0) with false in Hc by (symmetry; apply Z.ltb_ge; lia).
  destruct ((0 <=? i) && (i <? Z.of_nat (length s))); [|discriminate].
  unfold run_at. replace (i <? 0) with false by (symmetry; apply Z.ltb_ge; lia).
  rewrite run_to_eq, Hc. destruct (indexed b2j c); [|reflexivity].
  destruct (Z.to_nat i) as [|m] eqn:Em.
  - assert (i = 0) by lia. subst i. reflexivity.
  - replace (i - 1 <? 0) with false by (symmetry; apply Z.ltb_ge; lia).
    replace (Z.to_nat (i - 1)) with m by lia. reflexivity.
Qed.

Lemma scan_js_diagonal (s : str) (b2j : b2j_t) (i : Z) (c : ascii) (j2len : j2len_t)
  (js : list Z) :
  0 <= i < Z.of_nat (length s) ->
  py_index s i = Some c -> indexed b2j c = true ->
  row_ok b2j s (i - 1) j2len ->
  Forall (fun j => 0 <= j < Z.of_nat (length s) /\ py_index s j = Some c) js ->
  pairwise Z.lt js ->
  forall newj2len best,
    row_bounded b2j s i newj2len ->
    best_diagonal b2j s i best ->
    (In i js
     \/ (run_at b2j s i <= block_size best /\ j2len_get newj2len i = run_at b2j s i)) ->
    row_ok b2j s i
      (fst (scan_js 0 (Z.of_nat (length s)) i j2len js newj2len best))
    /\ best_diagonal b2j s (i + 1)
         (snd (scan_js 0 (Z.of_nat (length s)) i j2len js newj2len best)).
Proof.
  intros Hi Hc Hx [Hprev Hprevd] Hjs. pose proof (run_at_step b2j s i c ltac:(lia) Hc) as Ri.
  rewrite Hx in Ri.
  induction Hjs as [|j js [Hj Hcj] _ IH]; intros Hasc new best Hnew Hbest Hd; simpl.
  - destruct Hd as [[] | [Hd1 Hd2]]. split; [split; assumption|].
    destruct best as [[bi bj] bs]. destruct Hbest as (Hb1 & Hb2 & Hb3). simpl in Hd1.
    repeat split; try assumption. intros m Hm.
    destruct (Z.eq_dec m i) as [-> | Hne]; [exact Hd1 | apply Hb3; lia].
  - destruct Hasc as [Hlt Hasc].
    replace (j <? 0) with false by (symmetry; apply Z.ltb_ge; lia).
    replace (Z.of_nat (length s) <=? j) with false by (symmetry; apply Z.leb_gt; lia).
    pose proof (run_at_step b2j s j c ltac:(lia) Hcj) as Rj. rewrite Hx in Rj.
    destruct (Hprev (j - 1)) as [Hg0 Hg1].
    set (k := j2len_get j2len (j - 1) + 1) in *.
    assert (Hkd : j = i -> k = run_at b2j s i).
    { intros ->. unfold k. rewrite Hprevd. lia. }
    assert (Hk : 1 <= k <= run_at b2j s (Z.min i j)).
    { replace (Z.min (i - 1) (j - 1)) with (Z.min i j - 1) in Hg1 by lia.
      unfold k. destruct (Z.min_spec i j) as [[_ E] | [_ E]]; rewrite E in *; lia. }
    clearbody k.
    destruct best as [[bi bj] bs]. destruct Hbest as (Hb1 & Hb2 & Hb3).
    assert (Hnew' : row_bounded b2j s i ((j, k) :: new)).
    { intro j0. simpl. destruct (j =? j0) eqn:E; [|apply Hnew].
      apply Z.eqb_eq in E. subst j0. lia. }
    destruct (Z.lt_trichotomy j i) as [Hji | [Hji | Hji]].
    + assert (Hno : (bs <? k) = false).
      { apply Z.ltb_ge. specialize (Hb3 j ltac:(lia)).
        rewrite Z.min_r in Hk by lia. lia. }
      rewrite Hno. apply IH; [exact Hasc | exact Hnew' | repeat split; assumption |].
      destruct Hd as [[Hd | Hd] | [Hd1 Hd2]]; [lia | left; exact Hd | right].
      split; [exact Hd1|]. simpl.
      replace (j =? i) with false by (symmetry; apply Z.eqb_neq; lia). exact Hd2.
    + subst j. rewrite Z.min_id in Hk.
      assert (Ek : k = run_at b2j s i) by (apply Hkd; reflexivity).
      apply IH; [exact Hasc | exact Hnew' | |].
      * destruct (bs <? k) eqn:E.
        -- apply Z.ltb_lt in E. repeat split; try lia.
           intros m Hm. specialize (Hb3 m Hm). lia.
        -- repeat split; assumption.
      * right. split.
        -- destruct (bs <? k) eqn:E; simpl; [lia | apply Z.ltb_ge in E; lia].
        -- simpl. rewrite Z.eqb_refl. exact Ek.
    + assert (Hd' : run_at b2j s i <= bs /\ j2len_get new i = run_at b2j s i).
      { destruct Hd as [[Hd | Hd] | Hd]; [lia | | exact Hd].
        rewrite Forall_forall in Hlt. specialize (Hlt i Hd). lia. }
      assert (Hno : (bs <? k) = false).
      { apply Z.ltb_ge. rewrite Z.min_l in Hk by lia. lia. }
      rewrite Hno. apply IH; [exact Hasc | exact Hnew' | repeat split; assumption |].
      right. split; [apply Hd'|]. simpl.
      replace (j =? i) with false by (symmetry; apply Z.eqb_neq; lia). apply Hd'.
Qed.

Lemma py_index_some (s : str) (i : Z) :
  0 <= i < Z.of_nat (length s) -> exists c, py_index s i = Some c.
Proof.
  intro H. rewrite py_index_in_range by exact H.
  destruct (nth_error s (Z.to_nat i)) as [c|] eqn:E; [exists c; reflexivity|].
  apply nth_error_None in E. lia.
Qed.

Lemma row_ok_empty (b2j : b2j_t) (s : str) (i : Z) :
  run_at b2j s i = 0 -> row_ok b2j s i [].
Proof.
  intro H. split; [|simpl; lia]. intro j. simpl.
  pose proof (run_at_nonneg b2j s (Z.min i j)). lia.
Qed.

Lemma scan_is_diagonal (s : str) (cnt : nat) :
  forall i j2len best,
    0 <= i -> i + Z.of_nat cnt <= Z.of_nat (length s) ->
    row_ok (chain_b s) s (i - 1) j2len ->
    best_diagonal (chain_b s) s i best ->
    exists c k,
      scan_is s (chain_b s) 0 (Z.of_nat (length s)) (zrange i cnt) j2len best = (c, c, k).
Proof.
  induction cnt as [|cnt IH]; intros i j2len best Hi Hn Hrow Hbest.
  - simpl. destruct best as [[bi bj] bs]. destruct Hbest as [-> _]. eauto.
  - simpl. destruct (py_index_some s i ltac:(lia)) as [c Hc]. rewrite Hc.
    destruct (indexed (chain_b s) c) eqn:Ex.
    + assert (Ejs : b2j_get (chain_b s) c = positions 0 s c).
      { destruct (b2j_get_chain_b s c) as [E | E]; [|exact E].
        unfold indexed in Ex. rewrite E in Ex. discriminate. }
      rewrite Ejs.
      destruct (scan_js_diagonal s (chain_b s) i c j2len (positions 0 s c)
                  ltac:(lia) Hc Ex Hrow) with (newj2len := @nil (Z * Z)) (best := best)
        as [H1 H2].
      * rewrite Forall_forall. intros j Hj. apply positions_spec in Hj.
        destruct Hj as (m & Hm & ->). split; [|apply py_index_nth; exact Hm].
        assert (m < length s)%nat by (apply nth_error_Some; congruence). lia.
      * apply positions_ascending.
      * intro j. simpl. pose proof (run_at_nonneg (chain_b s) s (Z.min i j)). lia.
      * exact Hbest.
      * left. apply positions_spec. exists (Z.to_nat i). split; [|lia].
        rewrite <- py_index_in_range by lia. exact Hc.
      * destruct (scan_js 0 (Z.of_nat (length s)) i j2len (positions 0 s c) [] best)
          as [new best'].
        simpl in H1, H2. apply IH; try lia.
        -- replace (i + 1 - 1) with i by lia. exact H1.
        -- exact H2.
    + assert (Ejs : b2j_get (chain_b s) c = []).
      { unfold indexed in Ex. destruct (b2j_get (chain_b s) c); [reflexivity | discriminate]. }
      rewrite Ejs. simpl.
      pose proof (run_at_step (chain_b s) s i c Hi Hc) as R. rewrite Ex in R.
      apply IH; try lia.
      * replace (i + 1 - 1) with i by lia. apply row_ok_empty. exact R.
      * destruct best as [[bi bj] bs]. destruct Hbest as (H1 & H2 & H3).
        repeat split; try assumption. intros m Hm.
        destruct (Z.eq_dec m i) as [-> | Hne]; [lia | apply H3; lia].
Qed.

Lemma same_elt_self (s : str) (i : Z) :
  0 <= i < Z.of_nat (length s) -> same_elt (py_index s i) (py_index s i) = true.
Proof.
  intro H. destruct (py_index_some s i H) as [c ->]. simpl. apply Ascii.eqb_refl.
Qed.

Lemma extend_left_self (s : str) (fuel : nat) :
  forall c k,
    0 <= c <= Z.of_nat (length s) -> c <= Z.of_nat fuel ->
    extend_left s s 0 0 fuel (c, c, k) = (0, 0, k + c).
Proof.
  induction fuel as [|f IH]; intros c k Hc Hf.
  - simpl. assert (c = 0) by lia. subst c. rewrite Z.add_0_r. reflexivity.
  - simpl. destruct (0 <? c) eqn:E; simpl.
    + apply Z.ltb_lt in E. rewrite same_elt_self by lia.
      rewrite IH by lia. f_equal. lia.
    + apply Z.ltb_ge in E. assert (c = 0) by lia. subst c.
      rewrite Z.add_0_r. reflexivity.
Qed.

Lemma extend_right_self (s : str) (fuel : nat) :
  forall k,
    0 <= k <= Z.of_nat (length s) -> Z.of_nat (length s) - k <= Z.of_nat fuel ->
    extend_right s s (Z.of_nat (length s)) (Z.of_nat (length s)) fuel (0, 0, k)
    = (0, 0, Z.of_nat (length s)).
Proof.
  induction fuel as [|f IH]; intros k Hk Hf.
  - simpl. f_equal. lia.
  - simpl. destruct (k <? Z.of_nat (length s)) eqn:E; simpl.
    + apply Z.ltb_lt in E. rewrite same_elt_self by lia. apply IH; lia.
    + apply Z.ltb_ge in E. f_equal. lia.
Qed.

(** The longest match of a string with itself is the whole string, also when
    elements were purged from the index. *)
Lemma find_longest_match_self (s : str) :
  find_longest_match s s (chain_b s) 0 (Z.of_nat (length s)) 0 (Z.of_nat (length s))
  = (0, 0, Z.of_nat (length s)).
Proof.
  unfold find_longest_match. rewrite Z.sub_0_r, Nat2Z.id.
  assert (Hw : within 0 (Z.of_nat (length s)) 0 (Z.of_nat (length s))
                 (scan_is s (chain_b s) 0 (Z.of_nat (length s))
                    (zrange 0 (length s)) [] (0, 0, 0))).
  { apply scan_is_ok; try lia; [constructor | simpl; lia]. }
  destruct (scan_is_diagonal s (length s) 0 [] (0, 0, 0)) as (c & k & E); try lia.
  - apply row_ok_empty. apply run_at_negative. lia.
  - repeat split; try lia.
  - rewrite E in *. simpl in Hw.
    rewrite extend_left_self by lia. apply extend_right_self; lia.
Qed.

Lemma blocks_loop_done (a b : str) (b2j : b2j_t) (fuel : nat) (acc : list block) :
  blocks_loop a b b2j fuel [] acc = acc.
Proof. destruct fuel; reflexivity. Qed.

Lemma get_matching_blocks_self (s : str) :
  get_matching_blocks s s
  = emit_block 0 0 (Z.of_nat (length s))
      ++ [(Z.of_nat (length s), Z.of_nat (length s), 0)].
Proof.
  unfold get_matching_blocks. f_equal.
  replace (2 * length s + 1)%nat with (S (2 * length s)) by lia.
  cbn [blocks_loop]. rewrite find_longest_match_self.
  destruct (Z.of_nat (length s) =? 0) eqn:E.
  - rewrite blocks_loop_done. simpl. apply Z.eqb_eq in E. rewrite E. reflexivity.
  - rewrite Z.add_0_l, !Z.ltb_irrefl. simpl andb. cbv iota.
    rewrite blocks_loop_done. simpl. unfold emit_block. rewrite E. reflexivity.
Qed.

Lemma find_differences_self (s : str) : find_differences s s = [].
Proof.
  unfold find_differences. rewrite get_matching_blocks_self. unfold emit_block.
  destruct (Z.of_nat (length s) =? 0) eqn:E.
  - apply Z.eqb_eq in E. simpl. rewrite E. reflexivity.
  - cbn [app differences_from]. rewrite !Z.add_0_l, !Z.ltb_irrefl.
    reflexivity.
Qed.

(** X12: [find_differences] returns no span exactly when the two strings
    are the same. *)
Theorem find_differences_nil_iff (str1 str2 : str) :
  find_differences str1 str2 = [] <-> str1 = str2.
Proof.
  split; [apply find_differences_nil_equal | intros ->; apply find_differences_self].
Qed.

Lemma find_differences_nil_iff_witness : find_differences (lit "Color") (lit "Color") = [].
Proof. apply (proj2 (find_differences_nil_iff (lit "Color") (lit "Color"))). reflexivity. Defined.

(** ** Strings without a common character, and empty strings *)

Lemma positions_absent (s : str) (c : ascii) :
  ~ In c s -> forall i0, positions i0 s c = [].
Proof.
  intros H i0. destruct (positions i0 s c) as [|j js] eqn:E; [reflexivity|].
  exfalso. assert (Hj : In j (positions i0 s c)) by (rewrite E; left; reflexivity).
  apply positions_spec in Hj. destruct Hj as (m & Hm & _).
  apply H. eapply nth_error_In. exact Hm.
Qed.

Lemma b2j_get_chain_b_absent (s : str) (c : ascii) :
  ~ In c s -> b2j_get (chain_b s) c = [].
Proof.
  intro H. destruct (b2j_get_chain_b s c) as [E | E]; [exact E|].
  rewrite E. apply positions_absent. exact H.
Qed.

Lemma py_index_In (s : str) (i : Z) (c : ascii) : py_index s i = Some c -> In c s.
Proof.
  unfold py_index. destruct ((0 <=? _) && _); [|discriminate]. apply nth_error_In.
Qed.

Lemma scan_is_disjoint (a b : str) (blo bhi : Z) (rows : list Z) (best : block) :
  (forall c, In c a -> ~ In c b) ->
  scan_is a (chain_b b) blo bhi rows [] best = best.
Proof.
  intro H. induction rows as [|i rows IH]; simpl; [reflexivity|].
  destruct (py_index a i) as [c|] eqn:E; [|exact IH].
  rewrite b2j_get_chain_b_absent; [exact IH|]. apply H. eapply py_index_In. exact E.
Qed.

Lemma same_elt_disjoint (a b : str) (i j : Z) :
  (forall c, In c a -> ~ In c b) -> same_elt (py_index a i) (py_index b j) = false.
Proof.
  intro H. destruct (py_index a i) as [c|] eqn:Ea; [|reflexivity].
  destruct (py_index b j) as [d|] eqn:Eb; [|reflexivity]. simpl.
  destruct (Ascii.eqb c d) eqn:E; [|reflexivity].
  apply Ascii.eqb_eq in E. subst d. exfalso.
  apply (H c); eapply py_index_In; eassumption.
Qed.

Lemma find_longest_match_disjoint (a b : str) (alo ahi blo bhi : Z) :
  (forall c, In c a -> ~ In c b) ->
  find_longest_match a b (chain_b b) alo ahi blo bhi = (alo, blo, 0).
Proof.
  intro H. unfold find_longest_match. rewrite scan_is_disjoint by exact H.
  assert (El : extend_left a b alo blo (length a) (alo, blo, 0) = (alo, blo, 0)).
  { destruct (length a); simpl; [reflexivity|]. rewrite Z.ltb_irrefl. reflexivity. }
  rewrite El. destruct (length a); simpl; [reflexivity|].
  rewrite same_elt_disjoint by exact H. rewrite !andb_false_r. reflexivity.
Qed.

(** X13: when the two strings have no character in common, and in
    particular when one of them is empty, [find_differences] returns the two
    strings as its only span; it returns no span when both are empty. *)
Theorem find_differences_disjoint (str1 str2 : str) :
  (forall c, In c str1 -> ~ In c str2) ->
  find_differences str1 str2
  = if truthy str1 || truthy str2 then [(str1, str2)] else [].
Proof.
  intro H. unfold find_differences, get_matching_blocks.
  replace (2 * length str1 + 1)%nat with (S (2 * length str1)) by lia.
  cbn [blocks_loop]. rewrite find_longest_match_disjoint by exact H.
  rewrite Z.eqb_refl, blocks_loop_done. cbn.
  rewrite !py_slice_whole.
  destruct str1 as [|x a], str2 as [|y b]; reflexivity.
Qed.

Lemma find_differences_disjoint_witness :
  find_differences [] (lit "Size") = [([], lit "Size")].
Proof.
  apply (find_differences_disjoint [] (lit "Size")). intros c [].
Defined.

(** ** The difference text *)

Lemma join_nonempty (sep p : text) (parts : list text) :
  p <> [] -> join sep (p :: parts) <> [].
Proof.
  intro H. simpl. destruct parts; [exact H|].
  destruct p; [contradiction | discriminate].
Qed.

Lemma filter_real_spans (diffs : list (str * str)) :
  Forall real_span diffs ->
  filter (fun d => truthy (fst d) || truthy (snd d)) diffs = diffs.
Proof.
  induction 1 as [|[d1 d2] l Hd _ IH]; simpl; [reflexivity|].
  rewrite IH. unfold real_span in Hd. simpl in Hd.
  destruct d1, d2; simpl; try reflexivity. destruct Hd; contradiction.
Qed.

Lemma find_differences_real (a b : str) : Forall real_span (find_differences a b).
Proof.
  unfold find_differences.
  apply (differences_from_nonempty a b _ (get_matching_blocks_ok a b)); lia.
Qed.

(** X14: the difference text of two labels, as [export_to_excel] and the
    app build it, is empty exactly when the two labels are the same; every
    pair that the matcher reports has a difference text. *)
Theorem diff_text_empty_iff (str1 str2 : str) :
  diff_text (find_differences str1 str2) = [] <-> str1 = str2.
Proof.
  split.
  - intro H. apply find_differences_nil_equal.
    unfold diff_text in H. rewrite filter_real_spans in H by apply find_differences_real.
    destruct (find_differences str1 str2) as [|[d1 d2] l]; [reflexivity|].
    exfalso. simpl map in H. revert H. apply join_nonempty.
    unfold arrow. destruct (encode d1); discriminate.
  - intros ->. rewrite find_differences_self. reflexivity.
Qed.

Lemma diff_text_empty_iff_witness :
  diff_text (find_differences (lit "Color") (lit "Color")) = [].
Proof. apply (proj2 (diff_text_empty_iff (lit "Color") (lit "Color"))). reflexivity. Defined.

(** ** [get_unique_filename] *)

Lemma to_int_not_nil (z : Z) (d : Decimal.int) :
  Z.of_int d = 0 -> d <> Z.to_int 0 -> Z.to_int z <> d.
Proof.
  intros Hd Hne Heq.
  assert (Hz : z = 0).
  { rewrite <- (DecimalZ.of_to z). rewrite Heq. exact Hd. }
  subst z. apply Hne. symmetry. exact Heq.
Qed.

(** [str] of an integer determines the integer. *)
Lemma py_str_int_inj (a b : Z) : py_str (VInt a) = py_str (VInt b) -> a = b.
Proof.
  unfold py_str, lit. intros H.
  apply (f_equal string_of_list_ascii) in H.
  rewrite !string_of_list_ascii_of_string in H.
  apply DecimalZ.to_int_inj.
  assert (Ha : NilZero.int_of_string (NilZero.string_of_int (Z.to_int a)) = Some (Z.to_int a)).
  { apply NilZero.isi; apply to_int_not_nil; try reflexivity; discriminate. }
  assert (Hb : NilZero.int_of_string (NilZero.string_of_int (Z.to_int b)) = Some (Z.to_int b)).
  { apply NilZero.isi; apply to_int_not_nil; try reflexivity; discriminate. }
  rewrite H in Ha. rewrite Ha in Hb. congruence.
Qed.

Lemma starts_with_app (c x : ascii) (s t u : str) :
  starts_with c (s ++ x :: t) = starts_with c (s ++ x :: u).
Proof. destruct s; reflexivity. Qed.

(** The names tried by the loop differ only in the counter. *)
Lemma path_join_numbered (directory name ext : str) :
  exists pre, forall k,
    path_join directory (numbered name k ext) = pre ++ py_str (VInt k) ++ ext.
Proof.
  unfold path_join, numbered.
  destruct (starts_with "/" (name ++ ["_"%char])) eqn:Hs.
  - exists (name ++ ["_"%char]). intros k.
    rewrite (starts_with_app "/" "_" name _ []), Hs.
    rewrite <- app_assoc. reflexivity.
  - destruct (negb (truthy directory) || ends_with "/" directory).
    + exists (directory ++ name ++ ["_"%char]). intros k.
      rewrite (starts_with_app "/" "_" name _ []), Hs.
      rewrite <- !app_assoc. reflexivity.
    + exists (directory ++ "/"%char :: name ++ ["_"%char]). intros k.
      rewrite (starts_with_app "/" "_" name _ []), Hs.
      rewrite <- !app_assoc. simpl. rewrite <- !app_assoc. reflexivity.
Qed.

Lemma path_join_numbered_inj (directory name ext : str) (a b : Z) :
  path_join directory (numbered name a ext) = path_join directory (numbered name b ext) ->
  a = b.
Proof.
  destruct (path_join_numbered directory name ext) as [pre Hpre].
  rewrite !Hpre. intros H.
  apply app_inv_head in H. apply app_inv_tail in H.
  apply py_str_int_inj. exact H.
Qed.

Lemma exists_in_In (fs : list str) (p : str) : exists_in fs p = true <-> In p fs.
Proof.
  unfold exists_in. rewrite existsb_exists. split.
  - intros [x [Hin Heq]]. apply str_eqb_eq in Heq. subst. exact Hin.
  - intros Hin. exists p. split; [exact Hin | apply str_eqb_refl].
Qed.

(** A result of the loop is the first free name from [counter] on. *)
Lemma unique_loop_some (exists_ : str -> bool) (directory name ext : str)
  (fuel : nat) (counter : Z) (p : str) :
  unique_loop exists_ directory name ext fuel counter = Some p ->
  exists k, (k < fuel)%nat
    /\ p = path_join directory (numbered name (counter + Z.of_nat k) ext)
    /\ exists_ p = false
    /\ forall i, (i < k)%nat ->
         exists_ (path_join directory (numbered name (counter + Z.of_nat i) ext)) = true.
Proof.
  revert counter. induction fuel as [|f IH]; intros counter H; [discriminate|].
  simpl in H.
  destruct (exists_ (path_join directory (numbered name counter ext))) eqn:He; simpl in H.
  - destruct (IH _ H) as [k [Hk [Hp [Hfree Hbefore]]]].
    exists (S k). split; [lia|]. split.
    { replace (counter + Z.of_nat (S k)) with (counter + 1 + Z.of_nat k) by lia. exact Hp. }
    split; [exact Hfree|].
    intros [|i] Hi.
    + rewrite Z.add_0_r. exact He.
    + replace (counter + Z.of_nat (S i)) with (counter + 1 + Z.of_nat i) by lia.
      apply Hbefore. lia.
  - inversion H; subst p. exists 0%nat. split; [lia|].
    rewrite Z.add_0_r. split; [reflexivity|]. split; [exact He|].
    intros i Hi. lia.
Qed.

(** When the turns run out, every name tried was taken. *)
Lemma unique_loop_none (exists_ : str -> bool) (directory name ext : str)
  (fuel : nat) (counter : Z) :
  unique_loop exists_ directory name ext fuel counter = None ->
  forall i, (i < fuel)%nat ->
    exists_ (path_join directory (numbered name (counter + Z.of_nat i) ext)) = true.
Proof.
  revert counter. induction fuel as [|f IH]; intros counter H i Hi; [lia|].
  simpl in H.
  destruct (exists_ (path_join directory (numbered name counter ext))) eqn:He; simpl in H;
    [|discriminate].
  destruct i as [|i].
  - rewrite Z.add_0_r. exact He.
  - replace (counter + Z.of_nat (S i)) with (counter + 1 + Z.of_nat i) by lia.
    apply (IH _ H). lia.
Qed.

(** More turns than the file system has paths are enough. *)
Lemma unique_loop_terminates (fs : list str) (directory name ext : str) (counter : Z) :
  unique_loop (exists_in fs) directory name ext (S (length fs)) counter <> None.
Proof.
  intros H.
  pose proof (unique_loop_none _ _ _ _ _ _ H) as Hall.
  set (cand := fun i : nat =>
    path_join directory (numbered name (counter + Z.of_nat i) ext)).
  assert (Hnd : NoDup (map cand (seq 0 (S (length fs))))).
  { apply NoDup_map_NoDup_ForallPairs; [|apply seq_NoDup].
    intros x y _ _ Hxy. unfold cand in Hxy.
    apply path_join_numbered_inj in Hxy. lia. }
  assert (Hincl : incl (map cand (seq 0 (S (length fs)))) fs).
  { intros p Hp. apply in_map_iff in Hp. destruct Hp as [i [Hi Hin]].
    apply in_seq in Hin. subst p. apply exists_in_In. apply Hall. lia. }
  pose proof (NoDup_incl_length Hnd Hincl) as Hlen.
  rewrite length_map, length_seq in Hlen. lia.
Qed.

(** X15: on a file system that holds finitely many paths, the loop of
    [get_unique_filename] ends within one turn more than there are paths,
    and the path returned does not exist; it is the path asked for when
    that one is free. *)
Theorem get_unique_filename_fresh (fs : list str) (file_path : str) :
  exists p,
    get_unique_filename (exists_in fs) (S (length fs)) file_path = Some p
    /\ ~ In p fs
    /\ (~ In file_path fs -> p = file_path).
Proof.
  unfold get_unique_filename.
  destruct (exists_in fs file_path) eqn:He; cbn [negb].
  - destruct (splitext (basename file_path)) as [name ext].
    destruct (unique_loop (exists_in fs) (dirname file_path) name ext (S (length fs)) 1)
      as [p|] eqn:Hl.
    + exists p. split; [reflexivity|].
      destruct (unique_loop_some _ _ _ _ _ _ _ Hl) as [k [_ [_ [Hfree _]]]].
      split.
      * intros Hin. apply exists_in_In in Hin. congruence.
      * intros Hn. exfalso. apply Hn. apply exists_in_In. exact He.
    + exfalso. exact (unique_loop_terminates _ _ _ _ _ Hl).
  - exists file_path. split; [reflexivity|]. split; [|reflexivity].
    intros Hin. apply exists_in_In in Hin. congruence.
Qed.

(** X16: when the path asked for exists, the path returned is in the same
    directory and carries the smallest counter, from 1 on, whose name is
    free: every smaller counter's name exists. *)
Theorem get_unique_filename_first_free (exists_ : str -> bool) (fuel : nat)
  (file_path p : str) :
  exists_ file_path = true ->
  get_unique_filename exists_ fuel file_path = Some p ->
  exists k : Z,
    1 <= k
    /\ p = path_join (dirname file_path)
             (numbered (fst (splitext (basename file_path))) k
                (snd (splitext (basename file_path))))
    /\ exists_ p = false
    /\ forall i : Z, 1 <= i < k ->
         exists_ (path_join (dirname file_path)
                    (numbered (fst (splitext (basename file_path))) i
                       (snd (splitext (basename file_path))))) = true.
Proof.
  unfold get_unique_filename. intros He. rewrite He. simpl.
  destruct (splitext (basename file_path)) as [name ext]. simpl.
  intros Hl.
  destruct (unique_loop_some _ _ _ _ _ _ _ Hl) as [k [_ [Hp [Hfree Hbefore]]]].
  exists (1 + Z.of_nat k). split; [lia|]. split; [exact Hp|]. split; [exact Hfree|].
  intros i Hi.
  replace i with (1 + Z.of_nat (Z.to_nat (i - 1))) by lia.
  apply Hbefore. lia.
Qed.

Lemma get_unique_filename_first_free_witness :
  exists k : Z,
    1 <= k
    /\ lit "d/r_3.xlsx" = path_join (dirname (lit "d/r.xlsx"))
             (numbered (fst (splitext (basename (lit "d/r.xlsx")))) k
                (snd (splitext (basename (lit "d/r.xlsx")))))
    /\ exists_in [lit "d/r.xlsx"; lit "d/r_2.xlsx"; lit "d/r_1.xlsx"] (lit "d/r_3.xlsx") = false
    /\ forall i : Z, 1 <= i < k ->
         exists_in [lit "d/r.xlsx"; lit "d/r_2.xlsx"; lit "d/r_1.xlsx"]
           (path_join (dirname (lit "d/r.xlsx"))
                    (numbered (fst (splitext (basename (lit "d/r.xlsx")))) i
                       (snd (splitext (basename (lit "d/r.xlsx")))))) = true.
Proof.
  apply (get_unique_filename_first_free
           (exists_in [lit "d/r.xlsx"; lit "d/r_2.xlsx"; lit "d/r_1.xlsx"]) 4
           (lit "d/r.xlsx") (lit "d/r_3.xlsx")).
  - vm_compute. reflexivity.
  - vm_compute. reflexivity.
Defined.

(** ** The order of strings and of sort keys *)

Lemma code_inj (x y : ascii) : code x = code y -> x = y.
Proof.
  unfold code. intro H.
  rewrite <- (ascii_N_embedding x), <- (ascii_N_embedding y), H. reflexivity.
Qed.

Lemma str_ltb_irrefl (a : str) : str_ltb a a = false.
Proof.
  induction a as [|x a IH]; simpl; [reflexivity|].
  rewrite N.eqb_refl. exact IH.
Qed.

Lemma str_ltb_trans (a b c : str) :
  str_ltb a b = true -> str_ltb b c = true -> str_ltb a c = true.
Proof.
  revert b c. induction a as [|x a IH]; intros [|y b] [|z c]; simpl;
    try discriminate; try reflexivity.
  destruct (code x =? code y)%N eqn:Exy, (code y =? code z)%N eqn:Eyz;
    intros H1 H2.
  - apply N.eqb_eq in Exy, Eyz.
    replace (code x =? code z)%N with true by (symmetry; apply N.eqb_eq; congruence).
    apply (IH b c H1 H2).
  - apply N.eqb_eq in Exy. rewrite Exy, Eyz. exact H2.
  - apply N.eqb_eq in Eyz. rewrite <- Eyz, Exy. exact H1.
  - apply N.ltb_lt in H1, H2.
    replace (code x =? code z)%N with false by (symmetry; apply N.eqb_neq; lia).
    apply N.ltb_lt. lia.
Qed.

Lemma str_ltb_total (a b : str) :
  str_ltb a b = false -> str_ltb b a = false -> a = b.
Proof.
  revert b. induction a as [|x a IH]; intros [|y b]; simpl;
    try discriminate; try reflexivity.
  rewrite (N.eqb_sym (code y)).
  destruct (code x =? code y)%N eqn:Exy; intros H1 H2.
  - apply N.eqb_eq, code_inj in Exy. subst y. f_equal. apply IH; assumption.
  - apply N.eqb_neq in Exy. apply N.ltb_ge in H1, H2. lia.
Qed.

Lemma key_ltb_spec (k1 k2 : sort_key) :
  key_ltb k1 k2 = true
  <-> fst k1 < fst k2 \/ (fst k1 = fst k2 /\ str_ltb (snd k1) (snd k2) = true).
Proof.
  unfold key_ltb. destruct (fst k1 =? fst k2) eqn:E1; simpl.
  - apply Z.eqb_eq in E1. destruct (str_eqb (snd k1) (snd k2)) eqn:E2; simpl.
    + apply str_eqb_eq in E2. rewrite E2, str_ltb_irrefl. split; [discriminate|].
      intros [H | [_ H]]; [lia | discriminate].
    + split; [intro H; right; split; assumption|].
      intros [H | [_ H]]; [lia | exact H].
  - apply Z.eqb_neq in E1. rewrite Z.ltb_lt. split; [intro H; left; exact H|].
    intros [H | [H _]]; [exact H | contradiction].
Qed.

Lemma key_ltb_irrefl (k : sort_key) : key_ltb k k = false.
Proof.
  destruct (key_ltb k k) eqn:E; [|reflexivity].
  apply key_ltb_spec in E. rewrite str_ltb_irrefl in E.
  destruct E as [E | [_ E]]; [lia | discriminate].
Qed.

Lemma key_ltb_trans (k1 k2 k3 : sort_key) :
  key_ltb k1 k2 = true -> key_ltb k2 k3 = true -> key_ltb k1 k3 = true.
Proof.
  rewrite !key_ltb_spec.
  intros [H1 | [E1 H1]] [H2 | [E2 H2]].
  - left. lia.
  - left. lia.
  - left. lia.
  - right. split; [lia|]. apply (str_ltb_trans _ _ _ H1 H2).
Qed.

Lemma key_ltb_total (k1 k2 : sort_key) :
  key_ltb k1 k2 = false -> key_ltb k2 k1 = false -> k1 = k2.
Proof.
  intros H1 H2.
  assert (E : fst k1 = fst k2).
  { destruct (Z.lt_trichotomy (fst k1) (fst k2)) as [L | [E | L]]; [|exact E|].
    - assert (key_ltb k1 k2 = true) by (apply key_ltb_spec; left; exact L). congruence.
    - assert (key_ltb k2 k1 = true) by (apply key_ltb_spec; left; exact L). congruence. }
  destruct k1 as [n1 s1], k2 as [n2 s2]. simpl in E. subst n2. f_equal.
  apply str_ltb_total.
  - destruct (str_ltb s1 s2) eqn:L; [|reflexivity].
    assert (key_ltb (n1, s1) (n1, s2) = true)
      by (apply key_ltb_spec; right; split; [reflexivity | exact L]).
    congruence.
  - destruct (str_ltb s2 s1) eqn:L; [|reflexivity].
    assert (key_ltb (n1, s2) (n1, s1) = true)
      by (apply key_ltb_spec; right; split; [reflexivity | exact L]).
    congruence.
Qed.

(** "Not smaller" is transitive. *)
Lemma key_geb_trans (k1 k2 k3 : sort_key) :
  key_ltb k2 k1 = false -> key_ltb k3 k2 = false -> key_ltb k3 k1 = false.
Proof.
  intros H1 H2. destruct (key_ltb k3 k1) eqn:H3; [|reflexivity].
  destruct (key_ltb k1 k2) eqn:H4.
  - rewrite (key_ltb_trans _ _ _ H3 H4) in H2. discriminate.
  - rewrite (key_ltb_total _ _ H4 H1) in H3. congruence.
Qed.

Lemma key_ltb_asym (k1 k2 : sort_key) : key_ltb k1 k2 = true -> key_ltb k2 k1 = false.
Proof.
  intro H. destruct (key_ltb k2 k1) eqn:H'; [|reflexivity].
  pose proof (key_ltb_trans _ _ _ H H') as C. rewrite key_ltb_irrefl in C. discriminate.
Qed.

(** ** The stable sort *)

Section SortFacts.

Context {A : Type}.
Variable key_of : A -> sort_key.

(** [x] may stand before [y] in a sorted list. *)
Let may_precede (x y : A) : Prop := key_ltb (key_of y) (key_of x) = false.

Lemma sort_insert_perm (x : A) (l : list A) : Permutation (sort_insert key_of x l) (x :: l).
Proof.
  induction l as [|y l IH]; simpl; [apply Permutation_refl|].
  destruct (key_ltb (key_of y) (key_of x)); [|apply Permutation_refl].
  apply (perm_trans (perm_skip y IH)). apply perm_swap.
Qed.

Lemma py_sort_perm (l : list A) : Permutation (py_sort key_of l) l.
Proof.
  induction l as [|x l IH]; simpl; [apply perm_nil|].
  apply (perm_trans (sort_insert_perm x _)). apply perm_skip. exact IH.
Qed.

Lemma sort_insert_sorted (x : A) (l : list A) :
  StronglySorted may_precede l -> StronglySorted may_precede (sort_insert key_of x l).
Proof.
  induction 1 as [|y l Hl IH Hy]; simpl.
  - constructor; constructor.
  - destruct (key_ltb (key_of y) (key_of x)) eqn:E.
    + constructor; [exact IH|].
      apply (Permutation_Forall (Permutation_sym (sort_insert_perm x l))).
      constructor; [|exact Hy].
      apply key_ltb_asym. exact E.
    + constructor; [constructor; assumption|].
      constructor; [exact E|].
      apply (Forall_impl _ (P := may_precede y)); [|exact Hy].
      intros z Hz. apply (key_geb_trans _ (key_of y)); assumption.
Qed.

Lemma py_sort_sorted (l : list A) : StronglySorted may_precede (py_sort key_of l).
Proof.
  induction l as [|x l IH]; simpl; [constructor|].
  apply sort_insert_sorted. exact IH.
Qed.

(** The sort is stable: the elements of one key keep their order. *)
Lemma sort_insert_stable (same : A -> bool) (x : A) (l : list A) :
  (forall y z, same y = true -> same z = true -> key_of y = key_of z) ->
  filter same (sort_insert key_of x l) = filter same (x :: l).
Proof.
  intro Hsame. induction l as [|y l IH]; [reflexivity|].
  cbn [sort_insert]. destruct (key_ltb (key_of y) (key_of x)) eqn:E; [|reflexivity].
  cbn [filter] in *. rewrite IH.
  destruct (same x) eqn:Ex, (same y) eqn:Ey; try reflexivity.
  rewrite (Hsame y x Ey Ex), key_ltb_irrefl in E. discriminate.
Qed.

Lemma py_sort_stable (same : A -> bool) (l : list A) :
  (forall y z, same y = true -> same z = true -> key_of y = key_of z) ->
  filter same (py_sort key_of l) = filter same l.
Proof.
  intro Hsame. induction l as [|x l IH]; [reflexivity|].
  cbn [py_sort fold_right]. fold (py_sort key_of l).
  rewrite (sort_insert_stable same x _ Hsame).
  cbn [filter]. rewrite IH. reflexivity.
Qed.

Lemma py_sort_count (f : A -> bool) (l : list A) :
  length (filter f (py_sort key_of l)) = length (filter f l).
Proof.
  apply Permutation_length.
  assert (H : forall l1 l2 : list A, Permutation l1 l2 ->
                Permutation (filter f l1) (filter f l2)).
  { induction 1 as [| x l1 l2 _ IH | x y l0 | l1 l2 l3 _ IH1 _ IH2]; simpl.
    - apply perm_nil.
    - destruct (f x); [apply perm_skip|]; exact IH.
    - destruct (f x), (f y); try apply Permutation_refl. apply perm_swap.
    - apply (perm_trans IH1 IH2). }
  apply H. apply py_sort_perm.
Qed.

End SortFacts.

(** X17: the report lists the recorded pairs, each once, by descending
    score; pairs of one score by ascending base label, in the order of the
    code points; pairs of one score and base label in the order in which
    they were recorded. *)
Theorem export_order (similar_groups : groups) :
  let sorted := py_sort pair_key (all_pairs similar_groups) in
  Permutation sorted (all_pairs similar_groups)
  /\ StronglySorted
       (fun x y => snd y < snd x
                   \/ (snd y = snd x /\ str_ltb (fst (fst y)) (fst (fst x)) = false))
       sorted
  /\ forall (base : str) (score : Z),
       filter (fun x => str_eqb (fst (fst x)) base && (snd x =? score)) sorted
       = filter (fun x => str_eqb (fst (fst x)) base && (snd x =? score))
           (all_pairs similar_groups).
Proof.
  cbv zeta. split; [apply py_sort_perm|]. split.
  - pose proof (py_sort_sorted pair_key (all_pairs similar_groups)) as H.
    induction H as [|x l _ IH Hx]; constructor; [exact IH|].
    apply (Forall_impl _ (P := fun y => key_ltb (pair_key y) (pair_key x) = false));
      [|exact Hx].
    intros y Hy. unfold pair_key in Hy.
    destruct (Z.lt_trichotomy (snd y) (snd x)) as [L | [E | L]].
    + left. exact L.
    + right. split; [exact E|].
      destruct (str_ltb (fst (fst y)) (fst (fst x))) eqn:S; [|reflexivity].
      assert (C : key_ltb (- snd y, fst (fst y)) (- snd x, fst (fst x)) = true).
      { apply key_ltb_spec. right. simpl. split; [lia | exact S]. }
      congruence.
    + assert (C : key_ltb (- snd y, fst (fst y)) (- snd x, fst (fst x)) = true).
      { apply key_ltb_spec. left. simpl. lia. }
      congruence.
  - intros base score. apply py_sort_stable.
    intros y z Hy Hz. apply andb_true_iff in Hy, Hz.
    destruct Hy as [By Sy], Hz as [Bz Sz].
    apply str_eqb_eq in By, Bz. apply Z.eqb_eq in Sy, Sz.
    unfold pair_key. congruence.
Qed.

(** ** [print_similar_groups] *)

Lemma print_matches_buckets (base_attr : str) (matches : list (str * Z)) (b : buckets)
  (p : Z) :
  length (snd (print_matches base_attr matches b) p)
  = (length (b p) + length (filter (fun m => (snd m =? p)%Z) matches))%nat.
Proof.
  revert b. induction matches as [|[m score] rest IH]; intro b; simpl.
  - lia.
  - specialize (IH (bucket_append score (base_attr, m) b)).
    destruct (print_matches base_attr rest (bucket_append score (base_attr, m) b))
      as [out b'].
    simpl in *. rewrite IH. unfold bucket_append. rewrite (Z.eqb_sym score p).
    destruct (p =? score); simpl; [rewrite length_app; simpl|]; lia.
Qed.

Lemma filter_score_map (base_attr : str) (matches : list (str * Z)) (p : Z) :
  filter (fun x : str * str * Z => snd x =? p)
    (map (fun m => (base_attr, fst m, snd m)) matches)
  = map (fun m => (base_attr, fst m, snd m)) (filter (fun m => snd m =? p) matches).
Proof.
  induction matches as [|m rest IH]; simpl; [reflexivity|].
  rewrite IH. destruct (snd m =? p); reflexivity.
Qed.

(** A bucket holds as many entries as there are pairs of its score. *)
Lemma print_groups_buckets (similar_groups : groups) (b : buckets) (p : Z) :
  length (snd (print_groups similar_groups b) p)
  = (length (b p)
     + length (filter (fun x => (snd x =? p)%Z) (all_pairs similar_groups)))%nat.
Proof.
  revert b. induction similar_groups as [|[base_attr matches] rest IH]; intro b.
  - simpl. lia.
  - change (all_pairs ((base_attr, matches) :: rest))
      with (map (fun m => (base_attr, fst m, snd m)) matches ++ all_pairs rest).
    rewrite filter_app, length_app, filter_score_map, length_map.
    cbn [print_groups]. destruct matches as [|m0 ms] eqn:Em.
    + rewrite IH. simpl. lia.
    + rewrite <- Em.
      pose proof (print_matches_buckets base_attr (py_sort match_key matches) b p) as H1.
      destruct (print_matches base_attr (py_sort match_key matches) b) as [out1 b1].
      specialize (IH b1).
      destruct (print_groups rest b1) as [out2 b2].
      simpl in *. rewrite IH, H1, py_sort_count. lia.
Qed.

Lemma print_summary_total (b : buckets) (pairs : list (str * str * Z)) :
  (forall p, length (b p) = length (filter (fun x => snd x =? p) pairs)) ->
  forall percents grand_total,
    NoDup percents ->
    snd (print_summary b percents grand_total)
    = grand_total
      + Z.of_nat (length (filter (fun x => existsb (Z.eqb (snd x)) percents) pairs)).
Proof.
  intros Hb percents. induction percents as [|p rest IH]; intros total Hnd.
  - simpl. clear Hb. induction pairs; simpl; [lia | assumption].
  - inversion Hnd as [|? ? Hp Hrest]; subst.
    assert (E : snd (print_summary b (p :: rest) total)
                = snd (print_summary b rest (total + Z.of_nat (length (b p))))).
    { cbn [print_summary]. destruct (b p) as [|x l] eqn:Ebp.
      - simpl. rewrite Z.add_0_r. reflexivity.
      - destruct (print_summary b rest (total + Z.of_nat (length (x :: l)))).
        reflexivity. }
    rewrite E, (IH _ Hrest), Hb. clear E IH Hb.
    assert (C : forall l : list (str * str * Z),
      (length (filter (fun x => existsb (Z.eqb (snd x)) (p :: rest)) l)
       = length (filter (fun x => (snd x =? p)%Z) l)
         + length (filter (fun x => existsb (Z.eqb (snd x)) rest) l))%nat).
    { induction l as [|x l IHl]; [reflexivity|].
      cbn [filter].
      change (existsb (Z.eqb (snd x)) (p :: rest))
        with ((snd x =? p) || existsb (Z.eqb (snd x)) rest).
      destruct (snd x =? p) eqn:Ex.
      - apply Z.eqb_eq in Ex.
        assert (Er : existsb (Z.eqb (snd x)) rest = false).
        { destruct (existsb (Z.eqb (snd x)) rest) eqn:Er; [|reflexivity].
          apply existsb_exists in Er. destruct Er as [q [Hq Eq]].
          apply Z.eqb_eq in Eq. exfalso. apply Hp. congruence. }
        rewrite Er. cbn [orb length]. rewrite IHl. reflexivity.
      - cbn [orb]. destruct (existsb (Z.eqb (snd x)) rest); cbn [length];
          rewrite IHl; lia. }
    rewrite C. lia.
Qed.

Lemma in_range_down (start stop p : Z) :
  In p (range_down start stop) <-> stop < p <= start.
Proof.
  unfold range_down. rewrite in_map_iff. split.
  - intros [k [E Hk]]. apply in_seq in Hk. lia.
  - intro H. exists (Z.to_nat (start - p)). split; [lia|]. apply in_seq. lia.
Qed.

Lemma range_down_NoDup (start stop : Z) : NoDup (range_down start stop).
Proof.
  unfold range_down. apply NoDup_map_NoDup_ForallPairs; [|apply seq_NoDup].
  intros x y _ _ H. lia.
Qed.

Lemma in_summary_range (min_threshold : Q) (x : str * str * Z) :
  existsb (Z.eqb (snd x)) (range_down 100 (int_of min_threshold - 1))
  = in_summary min_threshold x.
Proof.
  apply eq_true_iff_eq. unfold in_summary.
  rewrite existsb_exists, andb_true_iff, !Z.leb_le. split.
  - intros [q [Hq E]]. apply Z.eqb_eq in E. subst q.
    apply in_range_down in Hq. lia.
  - intro H. exists (snd x). split; [apply in_range_down; lia | apply Z.eqb_refl].
Qed.

Lemma print_similar_groups_counted (similar_groups : groups) (min_threshold : Q) :
  exists body,
    print_similar_groups similar_groups min_threshold
    = body ++ total_lines
                (Z.of_nat (length (filter (in_summary min_threshold)
                                     (all_pairs similar_groups)))).
Proof.
  unfold print_similar_groups.
  pose proof (print_groups_buckets similar_groups (fun _ => [])) as Hb.
  destruct (print_groups similar_groups (fun _ => [])) as [out1 b].
  simpl in Hb.
  pose proof (print_summary_total b (all_pairs similar_groups) Hb
                (range_down 100 (int_of min_threshold - 1)) 0
                (range_down_NoDup _ _)) as Ht.
  destruct (print_summary b (range_down 100 (int_of min_threshold - 1)) 0)
    as [out2 grand_total].
  simpl in Ht. subst grand_total.
  rewrite (filter_ext _ _ (in_summary_range min_threshold)).
  eexists. rewrite !app_assoc. reflexivity.
Qed.

(** X18: the last three lines that [print_similar_groups] prints are a
    rule, the total and a rule, and the total is the number of pairs of the
    groups whose score lies between [int(min_threshold)] and 100. *)
Theorem print_similar_groups_total (similar_groups : groups) (min_threshold : Q) :
  exists body,
    print_similar_groups similar_groups min_threshold
    = body
      ++ [newline ++ rule "=" 80;
          encode (lit "Total number of similar pairs found: ")
            ++ show_int (Z.of_nat (length (filter (in_summary min_threshold)
                                             (all_pairs similar_groups))));
          rule "=" 80].
Proof. apply print_similar_groups_counted. Qed.

Lemma int_of_le (x : Q) (s : Z) : 0 <= s -> (x <= inject_Z s)%Q -> int_of x <= s.
Proof.
  unfold int_of, Qle. destruct x as [n d]. simpl. intros Hs H.
  destruct (Z.le_gt_cases 0 n) as [Hn | Hn].
  - rewrite Z.quot_div_nonneg by lia.
    apply Z.div_le_upper_bound; lia.
  - replace n with (- (- n)) by lia. rewrite Z.quot_opp_l by lia.
    rewrite Z.quot_div_nonneg by lia.
    pose proof (Z.div_pos (- n) (Z.pos d)). lia.
Qed.

Lemma int_of_lt (x : Q) (s : Z) : 0 <= s -> (x < inject_Z (s + 1))%Q -> int_of x <= s.
Proof.
  unfold int_of, Qlt. destruct x as [n d]. simpl. intros Hs H.
  destruct (Z.le_gt_cases 0 n) as [Hn | Hn].
  - rewrite Z.quot_div_nonneg by lia.
    assert (n / Z.pos d < s + 1) by (apply Z.div_lt_upper_bound; lia). lia.
  - replace n with (- (- n)) by lia. rewrite Z.quot_opp_l by lia.
    rewrite Z.quot_div_nonneg by lia.
    pose proof (Z.div_pos (- n) (Z.pos d)). lia.
Qed.

Lemma recorded_in_summary (col : list (option str)) (rest : DataFrame) (t : Q)
  (g : groups) (x : str * str * Z) :
  (t < 101)%Q ->
  find_similar_attributes (col :: rest) t = Ok g ->
  In x (all_pairs g) -> in_summary t x = true.
Proof.
  intros Ht H Hin. unfold find_similar_attributes in H. simpl in H.
  injection H as <-. unfold similar_groups_of in Hin.
  apply in_compare_all in Hin.
  destruct Hin as [[] | (a & b & s & _ & Hs & ->)].
  unfold in_summary. simpl. apply andb_true_iff. rewrite !Z.leb_le.
  unfold pair_score in Hs. destruct (str_eqb a b); [discriminate|].
  destruct (are_case_variants a b).
  - injection Hs as <-. split; [|lia].
    apply int_of_lt; [lia | exact Ht].
  - pose proof (fuzz_ratio_bounds (normalize_text (VStr a)) (normalize_text (VStr b)))
      as Hb.
    destruct (Qle_bool t _) eqn:Eq; [|discriminate].
    injection Hs as <-. apply Qle_bool_iff in Eq.
    split; [apply int_of_le; [exact (proj1 Hb) | exact Eq] | exact (proj2 Hb)].
Qed.

(** X19: for a threshold below 101, as the prompt of the script and the
    slider of the app give it, the total that [print_similar_groups] prints
    for the result of [find_similar_attributes] is the number of all pairs
    of the result. *)
Theorem print_similar_groups_all (df : DataFrame) (t : Q) (g : groups) :
  (t < 101)%Q ->
  find_similar_attributes df t = Ok g ->
  exists body,
    print_similar_groups g t
    = body
      ++ [newline ++ rule "=" 80;
          encode (lit "Total number of similar pairs found: ")
            ++ show_int (Z.of_nat (length (all_pairs g)));
          rule "=" 80].
Proof.
  intros Ht H.
  destruct (find_similar_attributes_ok df t g H) as (col & rest & -> & _).
  destruct (print_similar_groups_counted g t) as [body E].
  exists body. rewrite E. unfold total_lines.
  replace (filter (in_summary t) (all_pairs g)) with (all_pairs g); [reflexivity|].
  symmetry. apply forallb_filter_id. apply forallb_forall.
  intros x Hx. apply (recorded_in_summary col rest t g x Ht H Hx).
Qed.

Lemma print_similar_groups_all_witness :
  exists body,
    print_similar_groups
      [(lit "Color", [(lit "color", 100); (lit "Colour", 91)]);
       (lit "color", [(lit "Colour", 91)])] 80%Q
    = body
      ++ [newline ++ rule "=" 80;
          encode (lit "Total number of similar pairs found: ")
            ++ show_int 3;
          rule "=" 80].
Proof.
  apply (print_similar_groups_all (frame_of ["Color"; "color"; "Colour"]%string) 80%Q
           [(lit "Color", [(lit "color", 100); (lit "Colour", 91)]);
            (lit "color", [(lit "Colour", 91)])]).
  - reflexivity.
  - vm_compute. reflexivity.
Defined.

Lemma in_summary_none (min_threshold : Q) (l : list (str * str * Z)) :
  (101 <= min_threshold)%Q -> filter (in_summary min_threshold) l = [].
Proof.
  intro Ht. assert (Hi : 101 <= int_of min_threshold).
  { unfold int_of, Qle in *. destruct min_threshold as [n d]. simpl in *.
    rewrite Z.quot_div_nonneg by lia. apply Z.div_le_lower_bound; lia. }
  induction l as [|x l IH]; [reflexivity|].
  simpl. rewrite IH. unfold in_summary.
  destruct (int_of min_threshold <=? snd x) eqn:E1; [|reflexivity].
  destruct (snd x <=? 100) eqn:E2; [|reflexivity].
  apply Z.leb_le in E1, E2. lia.
Qed.

(** X20: with a threshold of 101 or more the summary runs over no
    percentage and the total printed is 0, whatever the groups hold. *)
Theorem print_similar_groups_none (similar_groups : groups) (min_threshold : Q) :
  (101 <= min_threshold)%Q ->
  exists body,
    print_similar_groups similar_groups min_threshold
    = body
      ++ [newline ++ rule "=" 80;
          encode (lit "Total number of similar pairs found: ") ++ show_int 0;
          rule "=" 80].
Proof.
  intro Ht.
  destruct (print_similar_groups_counted similar_groups min_threshold) as [body E].
  exists body. rewrite E, (in_summary_none _ _ Ht). reflexivity.
Qed.

Lemma print_similar_groups_none_witness :
  exists body,
    print_similar_groups [(lit "Color", [(lit "color", 100)])] 150%Q
    = body
      ++ [newline ++ rule "=" 80;
          encode (lit "Total number of similar pairs found: ") ++ show_int 0;
          rule "=" 80].
Proof.
  apply (print_similar_groups_none [(lit "Color", [(lit "color", 100)])] 150%Q).
  unfold Qle. simpl. lia.
Defined.

(** ** The rows of the report *)

Lemma write_pairs_row_numbers (pairs : list (str * str * Z)) (current_row pair_id : Z) :
  map row_number (write_pairs current_row pair_id pairs)
  = zrange current_row (2 * length pairs).
Proof.
  revert current_row pair_id. induction pairs as [|[[a b] s] rest IH]; intros r k.
  - reflexivity.
  - replace (2 * length (((a, b, s)) :: rest))%nat with (S (S (2 * length rest)))
      by (simpl; lia).
    cbn [write_pairs pair_rows app map row_number zrange].
    rewrite IH. do 3 f_equal. lia.
Qed.

Lemma write_pairs_rows (pairs : list (str * str * Z)) (current_row pair_id : Z)
  (r : sheet_row) :
  In r (write_pairs current_row pair_id pairs) ->
  exists x n,
    In x pairs /\ 0 <= n
    /\ In r (pair_rows (current_row + 2 * n) (pair_id + n) x).
Proof.
  revert current_row pair_id. induction pairs as [|x rest IH]; intros cr k; [intros []|].
  cbn [write_pairs]. rewrite in_app_iff. intros [H | H].
  - exists x, 0. split; [left; reflexivity|]. split; [lia|].
    rewrite Z.mul_0_r, !Z.add_0_r. exact H.
  - destruct (IH _ _ H) as (y & n & Hy & Hn & Hr).
    exists y, (n + 1). split; [right; exact Hy|]. split; [lia|].
    replace (cr + 2 * (n + 1)) with (cr + 2 + 2 * n) by lia.
    replace (k + (n + 1)) with (k + 1 + n) by lia. exact Hr.
Qed.

Lemma pair_rows_cells (current_row pair_id : Z) (a b : str) (s : Z) (r : sheet_row) :
  In r (pair_rows current_row pair_id (a, b, s)) ->
  row_pair_id r = pair_id
  /\ row_differences r = diff_text (find_differences a b)
  /\ row_fill r = (if pair_id mod 2 =? 0 then white_fill else gray_fill)
  /\ ((row_number r = current_row /\ row_attribute r = a
       /\ row_comment r = highlight_comment true (find_differences a b))
      \/ (row_number r = current_row + 1 /\ row_attribute r = b
          /\ row_comment r = highlight_comment false (find_differences a b))).
Proof.
  intros [<- | [<- | []]]; simpl; repeat split; auto.
Qed.

(** X21: below the header the sheet is filled without a gap: the data rows
    are the rows 2, 3, ... in this order, two for each pair of the groups,
    and the pair with id [k] stands in the rows [2k] and [2k + 1], with the
    gray fill when [k] is odd and the white one when it is even. *)
Theorem export_rows_layout (similar_groups : groups) :
  map row_number (export_rows similar_groups)
  = zrange 2 (2 * length (all_pairs similar_groups))
  /\ Forall (fun r =>
       (row_number r = 2 * row_pair_id r \/ row_number r = 2 * row_pair_id r + 1)
       /\ row_fill r = if Z.odd (row_pair_id r) then gray_fill else white_fill)
       (export_rows similar_groups).
Proof.
  unfold export_rows. split.
  - rewrite write_pairs_row_numbers.
    rewrite (Permutation_length (py_sort_perm pair_key (all_pairs similar_groups))).
    reflexivity.
  - apply Forall_forall. intros r Hr.
    destruct (write_pairs_rows _ _ _ _ Hr) as ([[a b] s] & n & _ & Hn & Hin).
    destruct (pair_rows_cells _ _ _ _ _ _ Hin) as (Hid & _ & Hf & Hrow).
    split.
    + destruct Hrow as [(H & _) | (H & _)]; lia.
    + rewrite Hf, Hid. rewrite Zmod_odd. destruct (Z.odd (1 + n)); reflexivity.
Qed.

Lemma diff_text_nonempty (a b : str) : a <> b -> diff_text (find_differences a b) <> [].
Proof.
  intros Hab H. apply Hab. apply find_differences_nil_equal.
  unfold diff_text in H. rewrite filter_real_spans in H by apply find_differences_real.
  destruct (find_differences a b) as [|[d1 d2] l]; [reflexivity|].
  exfalso. simpl map in H. revert H. apply join_nonempty.
  unfold arrow. destruct (encode d1); discriminate.
Qed.

Lemma highlight_comment_some (first_row : bool) (a b : str) :
  a <> b -> highlight_comment first_row (find_differences a b) <> None.
Proof.
  intros Hab. unfold highlight_comment.
  destruct (find_differences a b) eqn:E; [|discriminate].
  exfalso. apply Hab. apply find_differences_nil_equal. exact E.
Qed.

(** X22: in the report of a result of [find_similar_attributes] every data
    row shows one of the two labels of a recorded pair, its Differences
    cell is not empty and its attribute cell carries a comment. *)
Theorem export_rows_annotated (df : DataFrame) (t : Q) (g : groups) (r : sheet_row) :
  find_similar_attributes df t = Ok g ->
  In r (export_rows g) ->
  (exists a b s, In (a, b, s) (all_pairs g)
                 /\ (row_attribute r = a \/ row_attribute r = b))
  /\ row_differences r <> []
  /\ row_comment r <> None.
Proof.
  intros H Hr.
  destruct (find_similar_attributes_ok df t g H) as (col & rest & _ & ->).
  unfold export_rows in Hr.
  destruct (write_pairs_rows _ _ _ _ Hr) as ([[a b] s] & n & Hx & _ & Hin).
  apply (Permutation_in _ (py_sort_perm pair_key _)) in Hx.
  destruct (pair_rows_cells _ _ _ _ _ _ Hin) as (_ & Hd & _ & Hrow).
  assert (Hab : a <> b).
  { unfold similar_groups_of in Hx. apply in_compare_all in Hx.
    destruct Hx as [[] | (a' & b' & s' & _ & Hs & E)].
    injection E as <- <- <-. apply (pair_score_value fuzz_ratio t a b s Hs). }
  split; [|split].
  - exists a, b, s. split; [exact Hx|]. destruct Hrow as [(_ & E & _) | (_ & E & _)]; auto.
  - rewrite Hd. apply diff_text_nonempty. exact Hab.
  - destruct Hrow as [(_ & _ & E) | (_ & _ & E)]; rewrite E;
      apply highlight_comment_some; exact Hab.
Qed.

Lemma export_rows_annotated_witness :
  let g := [(lit "Color", [(lit "color", 100)])] in
  let r := {| row_number := 3; row_pair_id := 1; row_attribute := lit "color";
              row_comment := Some (encode (lit "Different parts:") ++ newline
                                     ++ encode (lit "c"));
              row_similarity := inject_Z 100 / 100;
              row_differences := encode (lit "C") ++ arrow ++ encode (lit "c");
              row_fill := gray_fill |} in
  (exists a b s, In (a, b, s) (all_pairs g)
                 /\ (row_attribute r = a \/ row_attribute r = b))
  /\ row_differences r <> []
  /\ row_comment r <> None.
Proof.
  apply (export_rows_annotated (frame_of ["Color"; "color"]%string) 80%Q).
  - vm_compute. reflexivity.
  - vm_compute. right. left. reflexivity.
Defined.

(** ** More on the Case-Variant Detector *)

Lemma str_eqb_sym (a b : str) : str_eqb a b = str_eqb b a.
Proof.
  destruct (str_eqb b a) eqn:E.
  - apply str_eqb_eq in E. subst. apply str_eqb_refl.
  - apply str_eqb_neq in E. apply str_eqb_neq. auto.
Qed.

(** X23: the Case-Variant Detector does not depend on the order of its two
    arguments. *)
Theorem are_case_variants_symmetric (attr1 attr2 : str) :
  are_case_variants attr1 attr2 = are_case_variants attr2 attr1.
Proof.
  unfold are_case_variants. cbv zeta.
  rewrite (str_eqb_sym (lower (re_sub pat_punct [] attr1))), (str_eqb_sym attr1).
  reflexivity.
Qed.

Lemma word_or_space_lower (c : ascii) : word_or_space (lower_char c) = word_or_space c.
Proof. by_cases_on c. Qed.

Lemma lower_filter (s : str) :
  lower (filter word_or_space s) = filter word_or_space (lower s).
Proof.
  induction s as [|c s IH]; [reflexivity|].
  simpl. rewrite word_or_space_lower.
  destruct (word_or_space c); simpl; rewrite IH; reflexivity.
Qed.

(** X24: over Latin-1, the alphabet of this development, two different
    labels that are equal once lowercased are case variants: there
    [str.lower] maps every character to one character of the same class
    ([word_or_space_lower]), so that removing the punctuation commutes with
    lowercasing.  Nothing is said of labels with characters beyond U+00FF,
    where a character may lower to several. *)
Theorem are_case_variants_case_only (attr1 attr2 : str) :
  lower attr1 = lower attr2 -> attr1 <> attr2 ->
  are_case_variants attr1 attr2 = true.
Proof.
  intros Hl Hne. unfold are_case_variants, re_sub. cbv zeta.
  rewrite !re_sub_punct_filter, !lower_filter, Hl, str_eqb_refl.
  apply str_eqb_neq in Hne. rewrite Hne. reflexivity.
Qed.

Lemma are_case_variants_case_only_witness :
  are_case_variants (lit "Part No. (OEM)") (lit "PART NO. (oem)") = true.
Proof.
  apply (are_case_variants_case_only (lit "Part No. (OEM)") (lit "PART NO. (oem)")).
  - vm_compute. reflexivity.
  - discriminate.
Defined.

(** ** File names without a directory *)

Lemma rfind_from_app (c : ascii) (p q : str) (i found : Z) :
  rfind_from i c (p ++ q) found
  = rfind_from (i + Z.of_nat (length p)) c q (rfind_from i c p found).
Proof.
  revert i found. induction p as [|x p IH]; intros i found.
  - simpl. rewrite Z.add_0_r. reflexivity.
  - cbn [app rfind_from length]. rewrite IH. f_equal. lia.
Qed.

Lemma rfind_from_absent (c : ascii) (p : str) (i found : Z) :
  ~ In c p -> rfind_from i c p found = found.
Proof.
  revert i found. induction p as [|x p IH]; intros i found H; [reflexivity|].
  cbn [rfind_from]. destruct (Ascii.eqb x c) eqn:E.
  - apply Ascii.eqb_eq in E. exfalso. apply H. left. exact E.
  - apply IH. intro Hin. apply H. right. exact Hin.
Qed.

(** The last occurrence of [c] in [p ++ c :: q], when [q] has none. *)
Lemma rfind_last (c : ascii) (p q : str) :
  ~ In c q -> rfind c (p ++ c :: q) = Z.of_nat (length p).
Proof.
  intro H. unfold rfind. rewrite rfind_from_app. cbn [rfind_from].
  rewrite Ascii.eqb_refl. rewrite rfind_from_absent by exact H. lia.
Qed.

Lemma py_slice_prefix (p q : str) : py_slice (p ++ q) 0 (Z.of_nat (length p)) = p.
Proof.
  pose proof (py_slice_in_range (p ++ q) 0 (Z.of_nat (length p))) as E.
  rewrite Z.add_0_l in E. rewrite E by (rewrite ?length_app; lia).
  rewrite Nat2Z.id. simpl. rewrite firstn_app, Nat.sub_diag, firstn_all.
  simpl. apply app_nil_r.
Qed.

Lemma py_slice_from_suffix (p q : str) : py_slice_from (p ++ q) (Z.of_nat (length p)) = q.
Proof.
  unfold py_slice_from.
  pose proof (py_slice_in_range (p ++ q) (Z.of_nat (length p)) (Z.of_nat (length q))) as E.
  rewrite length_app, Nat2Z.inj_add. rewrite E by (rewrite ?length_app; lia).
  rewrite !Nat2Z.id, skipn_app, Nat.sub_diag, skipn_all. simpl. apply firstn_all.
Qed.

Lemma py_slice_from_zero (p : str) : py_slice_from p 0 = p.
Proof. apply (py_slice_from_suffix [] p). Qed.

(** The parts of a file name [stem.ext] that has no directory. *)
Lemma plain_name_parts (c : ascii) (stem ext : str) :
  c <> "."%char -> ~ In "/"%char (c :: stem) -> ~ In "/"%char ext -> ~ In "."%char ext ->
  let p := c :: stem ++ "."%char :: ext in
  dirname p = [] /\ basename p = p /\ splitext p = (c :: stem, "."%char :: ext).
Proof.
  intros Hc Hs He Hd p.
  assert (Hsep : rfind "/" p = -1).
  { unfold rfind. apply rfind_from_absent. unfold p.
    change (c :: stem ++ "."%char :: ext) with ((c :: stem) ++ "."%char :: ext).
    rewrite in_app_iff. intros [H | [H | H]]; [exact (Hs H) | discriminate | exact (He H)]. }
  assert (Hdot : rfind "." p = Z.of_nat (length (c :: stem))).
  { apply (rfind_last "." (c :: stem) ext Hd). }
  split; [|split].
  - unfold dirname. rewrite Hsep. reflexivity.
  - unfold basename. rewrite Hsep. apply py_slice_from_zero.
  - unfold splitext. rewrite Hsep, Hdot.
    replace (-1 <? Z.of_nat (length (c :: stem))) with true
      by (symmetry; apply Z.ltb_lt; lia).
    change (-1 + 1) with 0.
    unfold p. change (c :: stem ++ "."%char :: ext) with ((c :: stem) ++ "."%char :: ext).
    rewrite py_slice_prefix, py_slice_from_suffix.
    cbn [forallb].
    replace (Ascii.eqb "." c) with false; [reflexivity|].
    symmetry. apply Ascii.eqb_neq. auto.
Qed.

(** X25: for a file name [stem.ext] without a directory, whose stem does
    not start with a period and whose extension holds no period, as the
    name [similarity_..._N%.xlsx] that [export_to_excel] builds, and which
    exists, [get_unique_filename] returns [stem_k.ext] for the smallest
    [k >= 1] for which this name is free. *)
Theorem get_unique_filename_plain (exists_ : str -> bool) (fuel : nat)
  (c : ascii) (stem ext p : str) :
  c <> "."%char -> ~ In "/"%char (c :: stem) -> ~ In "/"%char ext ->
  ~ In "."%char ext ->
  exists_ (c :: stem ++ "."%char :: ext) = true ->
  get_unique_filename exists_ fuel (c :: stem ++ "."%char :: ext) = Some p ->
  exists k : Z,
    1 <= k
    /\ p = c :: stem ++ "_"%char :: py_str (VInt k) ++ "."%char :: ext
    /\ exists_ p = false
    /\ forall i : Z, 1 <= i < k ->
         exists_ (c :: stem ++ "_"%char :: py_str (VInt i) ++ "."%char :: ext) = true.
Proof.
  intros Hc Hs He Hd Hex H.
  destruct (plain_name_parts c stem ext Hc Hs He Hd) as (Hdir & Hbase & Hsplit).
  cbv zeta in Hdir, Hbase, Hsplit.
  unfold get_unique_filename in H. rewrite Hex in H. cbn [negb] in H.
  rewrite Hdir, Hbase, Hsplit in H.
  assert (Hj : forall k, path_join [] (numbered (c :: stem) k ("."%char :: ext))
                         = c :: stem ++ "_"%char :: py_str (VInt k) ++ "."%char :: ext).
  { intro k. unfold path_join, numbered. cbn [app starts_with].
    replace (Ascii.eqb c "/") with false; [reflexivity|].
    symmetry. apply Ascii.eqb_neq. intro E. apply Hs. left. exact E. }
  destruct (unique_loop_some _ _ _ _ _ _ _ H) as [k [_ [Hp [Hfree Hbefore]]]].
  exists (1 + Z.of_nat k). rewrite Hj in Hp.
  split; [lia|]. split; [exact Hp|]. split; [exact Hfree|].
  intros i Hi. rewrite <- Hj.
  replace i with (1 + Z.of_nat (Z.to_nat (i - 1))) by lia.
  apply Hbefore. lia.
Qed.

Lemma get_unique_filename_plain_witness :
  exists k : Z,
    1 <= k
    /\ lit "similarity_temp_upload_90%_2.xlsx"
       = "s"%char :: lit "imilarity_temp_upload_90%" ++ "_"%char :: py_str (VInt k)
           ++ "."%char :: lit "xlsx"
    /\ exists_in [lit "similarity_temp_upload_90%.xlsx";
                  lit "similarity_temp_upload_90%_1.xlsx"]
         (lit "similarity_temp_upload_90%_2.xlsx") = false
    /\ forall i : Z, 1 <= i < k ->
         exists_in [lit "similarity_temp_upload_90%.xlsx";
                    lit "similarity_temp_upload_90%_1.xlsx"]
           ("s"%char :: lit "imilarity_temp_upload_90%" ++ "_"%char :: py_str (VInt i)
              ++ "."%char :: lit "xlsx") = true.
Proof.
  apply (get_unique_filename_plain
           (exists_in [lit "similarity_temp_upload_90%.xlsx";
                       lit "similarity_temp_upload_90%_1.xlsx"]) 3
           "s"%char (lit "imilarity_temp_upload_90%") (lit "xlsx")
           (lit "similarity_temp_upload_90%_2.xlsx")).
  - discriminate.
  - vm_compute. intuition discriminate.
  - vm_compute. intuition discriminate.
  - vm_compute. intuition discriminate.
  - vm_compute. reflexivity.
  - vm_compute. reflexivity.
Defined.

(** ** The results section of the app *)

Lemma results_data_pairs (g : groups) :
  results_data g
  = map (fun x => {| base_attribute := fst (fst x); similar_attribute := snd (fst x);
                     similarity_percent := snd x;
                     differences := diff_text (find_differences (fst (fst x))
                                                 (snd (fst x))) |})
      (all_pairs g).
Proof.
  unfold results_data, all_pairs.
  induction g as [|e g IH]; [reflexivity|].
  cbn [flat_map]. rewrite map_app, IH, map_map. reflexivity.
Qed.

Lemma full_matches_pairs (g : groups) :
  length (filter (fun r => similarity_percent r =? 100) (results_data g))
  = length (filter (fun x : str * str * Z => snd x =? 100) (all_pairs g)).
Proof.
  rewrite results_data_pairs.
  induction (all_pairs g) as [|x l IH]; [reflexivity|].
  cbn [map filter similarity_percent]. destruct (snd x =? 100); cbn [length]; rewrite IH;
    reflexivity.
Qed.

(** X26: for a result of [find_similar_attributes] the results section of
    the app never shows the message "No similar attributes found": when the
    result holds no pair the section shows nothing at all, and otherwise it
    shows the table with one record for each pair, the number of the pairs
    and the number of those with score 100. *)
Theorem results_section_views (df : DataFrame) (t : Q) (g : groups) :
  find_similar_attributes df t = Ok g ->
  results_section (Some g) <> no_similar_attributes
  /\ (all_pairs g = [] -> results_section (Some g) = no_section)
  /\ (all_pairs g <> [] ->
      results_section (Some g)
      = results_table (results_data g) (length (all_pairs g))
          (length (filter (fun x : str * str * Z => snd x =? 100) (all_pairs g)))).
Proof.
  intro H.
  assert (Hne : Forall (fun e : str * list (str * Z) => snd e <> []) g).
  { apply find_similar_attributes_ok in H. destruct H as (col & rest & -> & ->).
    rewrite similar_groups_of_expected by apply unique_NoDup.
    apply expected_groups_nonempty. }
  destruct g as [|[a items] g'].
  - split; [discriminate|]. split; [reflexivity|]. intro C. contradiction C. reflexivity.
  - inversion Hne as [|? ? Hitems _]; subst. simpl in Hitems.
    destruct items as [|[m s] items]; [contradiction Hitems; reflexivity|].
    assert (E : results_section (Some ((a, (m, s) :: items) :: g'))
                = results_table (results_data ((a, (m, s) :: items) :: g'))
                    (length (results_data ((a, (m, s) :: items) :: g')))
                    (length (filter (fun r => similarity_percent r =? 100)
                               (results_data ((a, (m, s) :: items) :: g'))))).
    { reflexivity. }
    split; [|split].
    + intro C. pose proof (eq_trans (eq_sym E) C) as C'. discriminate C'.
    + intro C. discriminate C.
    + intros _. etransitivity; [exact E|].
      rewrite full_matches_pairs. f_equal.
      rewrite results_data_pairs. apply length_map.
Qed.

Lemma results_section_views_witness :
  results_section (Some []) <> no_similar_attributes
  /\ (all_pairs [] = [] -> results_section (Some []) = no_section)
  /\ (all_pairs [] <> [] ->
      results_section (Some [])
      = results_table (results_data []) (length (all_pairs []))
          (length (filter (fun x : str * str * Z => snd x =? 100) (all_pairs [])))).
Proof.
  apply (results_section_views (frame_of ["Color"; "Size"]%string) 80%Q []).
  vm_compute. reflexivity.
Defined.
